(** * cffirestore: the condition compiler and the diff-batch updater

    A shallow embedding of the Go package [cffirestore] (collection
    helpers over the Firestore client) and the properties of its
    condition-to-query compiler, pagination and count helpers, of the
    partial-update pipeline behind [BatchDocs], of the writers
    ([AddDoc], [UpdateDoc], [DeleteDoc], [DeleteDocs]) and of the
    helpers on lists of documents.

    Conventions.
    - A Go call either returns or panics: [outcome].  A Go [error] is an
      [option err], [None] being [nil]; a function that returns
      [(T, error)] returns a pair here.
    - A Go [map[string]any] that is only read is a [gmap string value];
      the order in which [range] visits it is not fixed by the language
      and is taken from a [MapOrder], over which every statement
      quantifies.  Where a map is written to, it is an object with an
      address: the maps of a condition sequence for [FindDoc] ([clause],
      [maps]), and the documents, with their arrays and the structs
      behind their pointers, for the writers ([store]).
    - Go's [int] is taken to be 64 bits wide; arithmetic wraps ([wrap]).
    - The Firestore client, the bulk writer and the clock are external
      collaborators, given as records of functions. *)

From Stdlib Require Import ZArith Ascii SpecFloat.
From stdpp Require Import base option list gmap strings pretty.

#[local] Set Warnings "-register-all".
#[local] Open Scope string_scope.
#[local] Open Scope list_scope.
#[local] Open Scope nat_scope.

(** ** Outcomes, errors and panics *)

Inductive panic : Type :=
  | IndexOutOfRange (i : Z) (len : nat)
      (* runtime error: index out of range [i] with length len *)
  | NilDereference
      (* a method called on a nil interface: reflect.TypeOf(nil).Kind() *)
  | TypeAssertion
      (* interface conversion: x.(T) on a value of another dynamic type *)
  | Uncomparable
      (* runtime error: comparing uncomparable type *)
  | SetZeroValue
      (* reflect: call of reflect.Value.Set on zero Value *)
  | Explicit (msg : string).
      (* panic(msg) *)

Inductive outcome (A : Type) : Type :=
  | Ret (a : A)
  | Panic (p : panic)
  | Timeout
      (* the model ran out of fuel; says nothing about the program *)
  | Stuck.
      (* the store has no such object; no Go program gets there *)
Arguments Ret {A} a.
Arguments Panic {A} p.
Arguments Timeout {A}.
Arguments Stuck {A}.

#[global] Instance outcome_bind : MBind outcome := λ A B f x,
  match x with
  | Ret a => f a
  | Panic p => Panic p
  | Timeout => Timeout
  | Stuck => Stuck
  end.

(** Iterate a fallible body over a list, left to right (a [for] loop
    with an accumulator). *)
Fixpoint foldM {A B} (f : A → B → outcome A) (a : A) (l : list B) : outcome A :=
  match l with
  | [] => Ret a
  | b :: l' => a' ← f a b; foldM f a' l'
  end.

(** gRPC status codes, as far as the package tells them apart. *)
Inductive Code : Type := CodeOK | CodeNotFound | CodeUnknown | CodeOther (n : nat).

Inductive err : Type :=
  | ErrNew (msg : string)                  (* errors.New, fmt.Errorf *)
  | ErrStatus (code : Code) (msg : string) (* a gRPC status error *)
  | ErrJoin (errs : list err).             (* errors.Join *)

Definition error : Type := option err.

(** [errors.Join]: nil values are dropped; nil when none is left. *)
Definition errors_Join (errs : list error) : error :=
  match omap id errs with
  | [] => None
  | es => Some (ErrJoin es)
  end.

(** The first gRPC status error that [errors.As] finds in an error,
    depth first. *)
Fixpoint findStatus (e : err) : option Code :=
  match e with
  | ErrNew _ => None
  | ErrStatus c _ => Some c
  | ErrJoin es =>
      (fix first (l : list err) : option Code :=
         match l with
         | [] => None
         | e' :: l' =>
             match findStatus e' with
             | Some c => Some c
             | None => first l'
             end
         end) es
  end.

(** [status.Code] of a non-nil error: the code of the status error
    found in it, [Unknown] when there is none. *)
Definition status_Code (e : err) : Code := default CodeUnknown (findStatus e).

Definition Code_eqb (a b : Code) : bool :=
  match a, b with
  | CodeOK, CodeOK | CodeNotFound, CodeNotFound | CodeUnknown, CodeUnknown => true
  | CodeOther n, CodeOther m => Nat.eqb n m
  | _, _ => false
  end.

(** ** Machine integers *)

Definition wrap (z : Z) : Z := ((z + 2 ^ 63) `mod` 2 ^ 64 - 2 ^ 63)%Z.

Definition int_sub (a b : Z) : Z := wrap (a - b).
Definition int_add (a b : Z) : Z := wrap (a + b).
Definition int_mul (a b : Z) : Z := wrap (a * b).
(** Go's [/] and [%] truncate towards zero. *)
Definition int_quo (a b : Z) : Z := wrap (a `quot` b).
Definition int_rem (a b : Z) : Z := (a `rem` b)%Z.

(** ** Strings *)

(** [strings.ToLower] and [strings.TrimSpace] work on bytes for ASCII
    strings and on runes through the Unicode tables otherwise.  The
    tables are not part of this development: they are a parameter. *)
Record Unicode : Type := {
  unicode_ToLower : string → string;
  unicode_TrimSpace : string → string;
}.

Definition isASCIIByte (c : ascii) : bool := Nat.ltb (nat_of_ascii c) 128.

Fixpoint isASCII (s : string) : bool :=
  match s with
  | EmptyString => true
  | String c r => isASCIIByte c && isASCII r
  end.

Definition lowerByte (c : ascii) : ascii :=
  let n := nat_of_ascii c in
  if Nat.leb 65 n && Nat.leb n 90 then ascii_of_nat (n + 32) else c.

Fixpoint lowerASCII (s : string) : string :=
  match s with
  | EmptyString => EmptyString
  | String c r => String (lowerByte c) (lowerASCII r)
  end.

Definition ToLower (U : Unicode) (s : string) : string :=
  if isASCII s then lowerASCII s else unicode_ToLower U s.

(** The ASCII white space of [strings.TrimSpace]: \t \n \v \f \r and
    the space. *)
Definition isSpaceByte (c : ascii) : bool :=
  let n := nat_of_ascii c in
  (Nat.leb 9 n && Nat.leb n 13) || Nat.eqb n 32.

Fixpoint trimLeftASCII (s : string) : string :=
  match s with
  | EmptyString => EmptyString
  | String c r => if isSpaceByte c then trimLeftASCII r else s
  end.

Fixpoint trimRightASCII (s : string) : string :=
  match s with
  | EmptyString => EmptyString
  | String c r =>
      match trimRightASCII r with
      | EmptyString => if isSpaceByte c then EmptyString else String c EmptyString
      | r' => String c r'
      end
  end.

Definition TrimSpace (U : Unicode) (s : string) : string :=
  if isASCII s then trimRightASCII (trimLeftASCII s) else unicode_TrimSpace U s.

(** [strings.Split(s, sep)] for a separator of one byte. *)
Fixpoint Split (s : string) (sep : ascii) : list string :=
  match s with
  | EmptyString => [EmptyString]
  | String c r =>
      if Ascii.eqb c sep then EmptyString :: Split r sep
      else match Split r sep with
           | h :: t => String c h :: t
           | [] => [String c EmptyString]
           end
  end.

(** ** Maps and their iteration order *)

(** The order of one [for k, v := range m]: some enumeration of the
    entries, each once. *)
Record MapOrder : Type := {
  rangeOver : ∀ V : Type, gmap string V → list (string * V);
  rangeOver_perm : ∀ V (m : gmap string V), rangeOver V m ≡ₚ map_to_list m;
}.
Arguments rangeOver _ {V} _.

(** Two orders: the one in which the entries are stored, and its
    reverse. *)
Definition storedOrder : MapOrder :=
  {| rangeOver := λ V m, map_to_list m;
     rangeOver_perm := λ V m, reflexivity (map_to_list m) |}.

Definition reversedOrder : MapOrder :=
  {| rangeOver := λ V m, reverse (map_to_list m);
     rangeOver_perm := λ V m, reverse_Permutation (map_to_list m) |}.

(** [lo.Assign(a, b)]: a new map, the entries of [b] over those of [a]. *)
Definition lo_Assign {V} (a b : gmap string V) : gmap string V := b ∪ a.

(** [lo.Last]: the zero value of the element type and an error when the
    slice is empty. *)
Definition lo_Last {A} (zero : A) (collection : list A) : A * error :=
  match last collection with
  | Some x => (x, None)
  | None =>
      (zero, Some (ErrNew "last: cannot extract the last element of an empty slice"))
  end.

(** [lo.Chunk]: consecutive pieces of [size] elements, the last one
    possibly shorter; panics unless [size] is positive. *)
Definition lo_Chunk {A} (collection : list A) (size : Z) : outcome (list (list A)) :=
  if (size <=? 0)%Z then Panic (Explicit "Second parameter must be greater than 0")
  else
    let sz := Z.to_nat size in
    let n := length collection in
    let chunksNum := if Nat.eqb (n `mod` sz) 0 then n `div` sz else S (n `div` sz) in
    Ret (map (λ i, take (Nat.min ((i + 1) * sz) n - i * sz) (drop (i * sz) collection))
             (seq 0 chunksNum)).

(** ** Dynamic values of conditions *)

(** [reflect.Kind], as far as the package switches on it. *)
Inductive Kind : Type :=
  | KInvalid | KBool | KInt | KInt64 | KFloat64 | KString
  | KSlice | KMap | KPointer | KStruct.

(** A value of static type [any] in a condition sequence.  [VOther k ty
    id] is a value of any dynamic type not listed before it, of kind
    [k]: a [[]int] has kind [KSlice], a [map[string]string] has kind
    [KMap], a named string type has kind [KString]. *)
Inductive value : Type :=
  | VNil
  | VBool (b : bool)
  | VInt (n : Z)                     (* int *)
  | VString (s : string)             (* string *)
  | VStrings (l : list string)       (* []string *)
  | VSlice (l : list value)          (* []any *)
  | VMap (m : gmap string value)     (* map[string]any *)
  | VOther (k : Kind) (ty id : nat).

(** [reflect.TypeOf(v)], then [.Kind()]: [None] is the nil [Type], on
    which the method call panics. *)
Definition TypeOf_Kind (v : value) : option Kind :=
  match v with
  | VNil => None
  | VBool _ => Some KBool
  | VInt _ => Some KInt
  | VString _ => Some KString
  | VStrings _ | VSlice _ => Some KSlice
  | VMap _ => Some KMap
  | VOther k _ _ => Some k
  end.

(** [reflect.ValueOf(v).Kind()]: the zero [Value] has kind [Invalid]. *)
Definition ValueOf_Kind (v : value) : Kind := default KInvalid (TypeOf_Kind v).

(** Type assertions [v.(T)]. *)
Definition assertString (v : value) : outcome string :=
  match v with VString s => Ret s | _ => Panic TypeAssertion end.
Definition assertInt (v : value) : outcome Z :=
  match v with VInt n => Ret n | _ => Panic TypeAssertion end.
Definition assertStrings (v : value) : outcome (list string) :=
  match v with VStrings l => Ret l | _ => Panic TypeAssertion end.
Definition assertSlice (v : value) : outcome (list value) :=
  match v with VSlice l => Ret l | _ => Panic TypeAssertion end.
Definition assertMap (v : value) : outcome (gmap string value) :=
  match v with VMap m => Ret m | _ => Panic TypeAssertion end.

(** [s[i]] with its bounds check. *)
Definition index {A} (s : list A) (i : nat) : outcome A :=
  match s !! i with
  | Some x => Ret x
  | None => Panic (IndexOutOfRange (Z.of_nat i) (length s))
  end.

(** ** Conditions as the caller holds them *)

(** A [map[string]any] is a reference: two clauses of a sequence may
    be one and the same map, a clause may be the nil map, and what a
    function writes into a map it is handed stays written.  Where that
    matters ([FindDoc] writes into the final mapping), a clause is
    taken as the caller holds it: a reference to one of the caller's
    maps, the nil map, or any other value.  A [VMap] in such a value is
    a map that nothing else refers to. *)
Inductive clause : Type :=
  | Held (v : value)
  | MapAt (m : option nat).         (* nil, or the map at an address *)

(** The maps of the caller, by address. *)
Abbreviation maps := (list (gmap string value)).

(** [reflect.TypeOf(c).Kind()] *)
Definition clauseKind (c : clause) : option Kind :=
  match c with
  | Held v => TypeOf_Kind v
  | MapAt _ => Some KMap
  end.

(** The value of a clause when it is read: the entries of the map it
    refers to; none for the nil map. *)
Definition readClause (ms : maps) (c : clause) : outcome value :=
  match c with
  | Held v => Ret v
  | MapAt None => Ret (VMap ∅)
  | MapAt (Some a) =>
      match ms !! a with
      | Some m => Ret (VMap m)
      | None => Stuck
      end
  end.

Fixpoint readClauses (ms : maps) (cs : list clause) : outcome (list value) :=
  match cs with
  | [] => Ret []
  | c :: cs' => v ← readClause ms c; vs ← readClauses ms cs'; Ret (v :: vs)
  end.

(** [c.(map[string]any)], then [lastCondMap[key] = val] on it, for the
    final clause [c] of [condition]: the write goes to the map itself.
    On the nil map it panics. *)
Definition assignInClause (ms : maps) (condition : list clause) (c : clause)
    (key : string) (val : value) : outcome (maps * list clause) :=
  match c with
  | MapAt None => Panic (Explicit "assignment to entry in nil map")
  | MapAt (Some a) =>
      match ms !! a with
      | Some m => Ret (<[ a := <[ key := val ]> m ]> ms, condition)
      | None => Stuck
      end
  | Held v =>
      m ← assertMap v;
      Ret (ms, <[ length condition - 1 := Held (VMap (<[ key := val ]> m)) ]> condition)
  end.

(** ** Queries *)

Inductive firestore_Direction : Type := Asc | Desc.

(** One call of the query builder. *)
Inductive qcall : Type :=
  | QWhere (path op : string) (val : value)
  | QOrderBy (path : string) (dir : firestore_Direction)
  | QLimit (n : Z)
  | QOffset (n : Z)
  | QStartAt (val : value)
  | QStartAfter (val : value)
  | QEndAt (val : value)
  | QEndBefore (val : value).

(** A [firestore.Query] is the collection's base query and the builder
    calls made on it, oldest first.  What the client makes of them is
    the client's business. *)
Definition Query : Type := list qcall.

Record OrderBy : Type := { Field : string; Direction : firestore_Direction }.

(** The package variable [DefaultPaginatePerPage], at its initial value. *)
Definition DefaultPaginatePerPage : Z := 25.

(** The Firestore client, for one collection. *)
Record Firestore (Snap : Type) : Type := {
  (* query.Documents(ctx).GetAll() *)
  Documents_GetAll : Query → list Snap * error;
  (* query.NewAggregationQuery().WithCount(alias).Get(ctx): the integer
     value under each alias *)
  Aggregation_Get : Query → gmap string Z * error;
  (* coll.ref.Doc(id).Get(ctx): the snapshot when the error is nil *)
  Doc_Get : string → Snap + err;
}.
Arguments Documents_GetAll {Snap} _ _.
Arguments Aggregation_Get {Snap} _ _.
Arguments Doc_Get {Snap} _ _.

(** A value of the result mapping of [Paginate]. *)
Inductive rvalue (Doc : Type) : Type :=
  | RDocs (docs : list Doc)
  | RInt (n : Z).
Arguments RDocs {Doc} docs.
Arguments RInt {Doc} n.

Section Collection.

Context {Snap Doc : Type}.
Variable U : Unicode.
Variable ord : MapOrder.
Variable db : Firestore Snap.
(** [makeDocResponse] (helpers.go) builds the document mapping from a
    snapshot: its decoded data with [_id] and [_ref] added.  How
    documents are represented is left to the instance. *)
Variable makeDocResponse : Snap → Doc.

Definition docSnapsDataToMap (docSnaps : list Snap) : list Doc :=
  foldl (λ data doc, data ++ [makeDocResponse doc]) [] docSnaps.

Definition parseOrderBy (orderBy : string) : outcome (option OrderBy) :=
  if String.eqb orderBy "" then Ret None
  else
    let orderBySlice := Split orderBy ":" in
    let orderBySlice :=
      if Nat.eqb (length orderBySlice) 1 then orderBySlice ++ ["asc"]
      else orderBySlice in
    s0 ← index orderBySlice 0;
    let f := TrimSpace U s0 in
    s1 ← index orderBySlice 1;
    let d := TrimSpace U (ToLower U s1) in
    if String.eqb d "asc" then Ret (Some {| Field := f; Direction := Asc |})
    else if String.eqb d "desc" then Ret (Some {| Field := f; Direction := Desc |})
    else Ret (Some {| Field := f; Direction := Asc |}).

(** The body shared by the two [orderby] branches. *)
Definition addOrderBy (query : Query) (ob : string) : outcome Query :=
  orderBy ← parseOrderBy ob;
  match orderBy with
  | Some o =>
      if Nat.ltb 0 (String.length (Field o))
      then Ret (query ++ [QOrderBy (Field o) (Direction o)])
      else Ret query
  | None => Ret query
  end.

(** One entry of the final mapping. *)
Definition applyModifier (query : Query) (kv : string * value) : outcome Query :=
  let '(key, val) := kv in
  let k := ToLower U key in
  if String.eqb k "orderby" then
    match TypeOf_Kind val with
    | None => Panic NilDereference
    | Some KString => s ← assertString val; addOrderBy query s
    | Some KSlice => obSlide ← assertStrings val; foldM addOrderBy query obSlide
    | Some _ => Ret query
    end
  else if String.eqb k "limit" then n ← assertInt val; Ret (query ++ [QLimit n])
  else if String.eqb k "offset" then n ← assertInt val; Ret (query ++ [QOffset n])
  else if String.eqb k "startat" then Ret (query ++ [QStartAt val])
  else if String.eqb k "startafter" then Ret (query ++ [QStartAfter val])
  else if String.eqb k "endat" then Ret (query ++ [QEndAt val])
  else if String.eqb k "endbefore" then Ret (query ++ [QEndBefore val])
  else Ret query.

(** One entry of a mapping that is not the final clause. *)
Definition applyEquality (query : Query) (kv : string * value) : outcome Query :=
  let '(key, val) := kv in Ret (query ++ [QWhere key "==" val]).

(** The body of the loop of [MakeQuery], for the clause [where_] at
    position [idx] of a sequence of [len] clauses. *)
Definition compileClause (len : nat) (query : Query) (clause : nat * value)
  : outcome Query :=
  let '(idx, where_) := clause in
  match ValueOf_Kind where_ with
  | KSlice =>
      vSlide ← assertSlice where_;
      p ← index vSlide 0; path ← assertString p;
      o ← index vSlide 1; op ← assertString o;
      val ← index vSlide 2;
      Ret (query ++ [QWhere path op val])
  | KMap =>
      vMap ← assertMap where_;
      if negb (Z.of_nat idx =? Z.of_nat len - 1)%Z
      then foldM applyEquality query (rangeOver ord vMap)
      else foldM applyModifier query (rangeOver ord vMap)
  | _ => Panic (Explicit "unhandled default case")
  end.

Definition MakeQuery (condition : list value) : outcome Query :=
  foldM (compileClause (length condition)) [] (imap pair condition).

Definition ListDocs (condition : list value) : outcome (list Doc * error) :=
  query ← MakeQuery condition;
  let '(docs, err) := Documents_GetAll db query in
  match err with
  | Some e => Ret ([], Some e)
  | None => Ret (docSnapsDataToMap docs, None)
  end.

(** [FindDoc] writes into the caller's final mapping.  It is given the
    maps of the caller and the sequence as the caller holds it, and
    returns both as they are after the call, with the result. *)
Definition FindDoc (ms : maps) (condition : list clause)
  : outcome (maps * list clause * (option Doc * error)) :=
  let '(lastCond, err) := lo_Last (Held VNil) condition in
  match err with
  | Some e => Ret (ms, condition, (None, Some e))
  | None =>
      '(ms, condition', seen) ←
        match clauseKind lastCond with
        | None => Panic NilDereference
        | Some KSlice =>
            Ret (ms, condition ++ [Held (VMap {[ "limit" := VInt 1 ]})], condition)
        | Some KMap =>
            (* lastCondMap["limit"] = 1, then
               condition[len(condition)-1] = lastCondMap *)
            '(ms, c) ← assignInClause ms condition lastCond "limit" (VInt 1);
            Ret (ms, c, c)
        | Some _ => Ret (ms, condition, condition)
        end;
      values ← readClauses ms condition';
      '(docs, err) ← ListDocs values;
      match err with
      | Some e => Ret (ms, seen, (None, Some e))
      | None =>
          match docs with
          | [] => Ret (ms, seen, (None, None))
          | doc :: _ => Ret (ms, seen, (Some doc, None))
          end
      end
  end.

Definition GetDoc (id : string) : outcome (option Doc * error) :=
  match Doc_Get db id with
  | inr e =>
      if Code_eqb (status_Code e) CodeNotFound
      then Ret (None, Some (ErrNew ("doc not found: " +:+ id)))
      else Ret (None, Some e)
  | inl doc => Ret (Some (makeDocResponse doc), None)
  end.

(** The second half of [CountDocs]: the aggregation query and the
    reading of its result. *)
Definition aggregateCount (query : Query) : Z * error :=
  let '(results, err) := Aggregation_Get db query in
  match err with
  | Some e => (0%Z, Some e)
  | None =>
      match results !! "all" with
      | None =>
          (0%Z, Some (ErrNew
             "firestore: couldn't get alias for COUNT from results"))
      | Some count => (count, None)
      end
  end.

Definition CountDocs (condition : list value) : outcome (Z * error) :=
  let '(lastCond, err) := lo_Last VNil condition in
  match err with
  | Some e => Ret (0%Z, Some e)
  | None =>
      condition ←
        match TypeOf_Kind lastCond with
        | None => Panic NilDereference
        | Some KMap => Ret (take (length condition - 1) condition)
        | Some _ => Ret condition
        end;
      query ← MakeQuery condition;
      Ret (aggregateCount query)
  end.

(** The options [Paginate] adds. *)
Definition pageOptions (page perPage : Z) : gmap string value :=
  {[ "limit" := VInt perPage;
     "offset" := VInt (int_mul (int_sub page 1) perPage) ]}.

(** [Paginate] overwrites the final element of the caller's sequence
    when that is a mapping; the first component of the result is the
    sequence as the caller holds it after the call. *)
Definition Paginate (condition : list value) (page perPage : Z)
  : outcome (list value * (option (gmap string (rvalue Doc)) * error)) :=
  let page := if (page =? 0)%Z then 1%Z else page in
  let perPage := if (perPage =? 0)%Z then DefaultPaginatePerPage else perPage in
  lastCond ←
    match last condition with
    | Some c => Ret c
    | None => Panic (IndexOutOfRange (-1) 0)
    end;
  '(condition', seen) ←
    match TypeOf_Kind lastCond with
    | None => Panic NilDereference
    | Some KSlice =>
        Ret (condition ++ [VMap (pageOptions page perPage)], condition)
    | Some KMap =>
        lastCondMap ← assertMap lastCond;
        let c := <[ length condition - 1 :=
                    VMap (lo_Assign lastCondMap (pageOptions page perPage)) ]>
                   condition in
        Ret (c, c)
    | Some _ => Ret (condition, condition)
    end;
  '(docs, err) ← ListDocs condition';
  match err with
  | Some e => Ret (seen, (None, Some e))
  | None =>
      Ret (seen,
           (Some {[ "docs" := RDocs docs; "page" := RInt page;
                    "perPage" := RInt perPage ]}, None))
  end.

(** [totalPage] as [PaginateWithCount] computes it; [perPage] is not
    zero there. *)
Definition totalPage (count perPage : Z) : Z :=
  if (int_rem count perPage =? 0)%Z then int_quo count perPage
  else int_add (int_quo count perPage) 1.

Definition PaginateWithCount (condition : list value) (page perPage : Z)
  : outcome (option (gmap string (rvalue Doc)) * error) :=
  let perPage := if (perPage =? 0)%Z then DefaultPaginatePerPage else perPage in
  let page := if (page =? 0)%Z then 1%Z else page in
  '(condition, (val, err)) ← Paginate condition page perPage;
  match err with
  | Some e => Ret (None, Some e)
  | None =>
      '(count, err) ← CountDocs condition;
      match err with
      | Some e => Ret (None, Some e)
      | None =>
          Ret (Some (lo_Assign (default ∅ val)
                       {[ "count" := RInt count;
                          "totalPage" := RInt (totalPage count perPage) ]}),
               None)
      end
  end.

Definition CheckExists (condition : list value) : outcome (bool * error) :=
  '(docs, err) ← ListDocs condition;
  match err with
  | Some e => Ret (false, Some e)
  | None => Ret (Nat.ltb 0 (length docs), None)
  end.

End Collection.

(** ** The store: maps, backing arrays and structs as shared objects *)

(** Documents are mutable and shared by reference.  A map value is the
    address of a map object; a slice value is a window (offset, length,
    capacity) on a backing array; a pointer is the address of a
    struct. *)
Abbreviation loc := nat.

(** Values that hold no reference.  A [float64] is a floating-point
    number of the IEEE 754 standard.  [SOther ty id] is a value of some
    other comparable type number [ty] (a timestamp, a byte); two of
    them are [==] when both numbers agree, and [id = 0] is the zero
    value of the type. *)
Inductive scalar : Type :=
  | SBool (b : bool)
  | SInt (n : Z)
  | SInt64 (n : Z)
  | SFloat64 (f : spec_float)
  | SString (s : string)
  | SOther (ty id : nat).

(** The element type of a slice: [any], or a type of scalars. *)
Inductive elemty : Type := EAny | EOther (ty : nat).

(** What a variable of type [any], a map entry or an array cell holds. *)
Inductive cell : Type :=
  | CNil
  | CScalar (s : scalar)
  | CMap (l : loc)                                (* map[string]any *)
  | CSlice (e : elemty) (a : loc) (off len cap : nat)
  | CPtr (ty : nat) (p : loc).
      (* a pointer to a struct of type number [ty], not nil: the
         [*latlng.LatLng] and the [*firestore.DocumentRef] that the
         client puts into the documents it decodes *)

(** The fields of a struct hold no map and no slice (a latitude and a
    longitude; the path and the ID of a reference). *)
Inductive object : Type :=
  | OMap (m : gmap string cell)
  | OArray (cells : list cell)
  | OStruct (fields : gmap string scalar).

(** Objects are never freed: the store grows at its end. *)
Abbreviation store := (list object).

Definition alloc (st : store) (o : object) : loc * store := (length st, st ++ [o]).

Definition readMap (st : store) (l : loc) : outcome (gmap string cell) :=
  match st !! l with
  | Some (OMap m) => Ret m
  | _ => Stuck
  end.

Definition readArray (st : store) (a : loc) : outcome (list cell) :=
  match st !! a with
  | Some (OArray cells) => Ret cells
  | _ => Stuck
  end.

Definition readStruct (st : store) (p : loc) : outcome (gmap string scalar) :=
  match st !! p with
  | Some (OStruct fields) => Ret fields
  | _ => Stuck
  end.

(** [p.f] for the pointer [p]; a struct has the fields of its type. *)
Definition fieldOf (st : store) (p : loc) (f : string) : outcome cell :=
  fields ← readStruct st p;
  match fields !! f with
  | Some s => Ret (CScalar s)
  | None => Stuck
  end.

(** [p.f = v] *)
Definition fieldAssign (st : store) (p : loc) (f : string) (v : scalar)
  : outcome store :=
  fields ← readStruct st p; Ret (<[ p := OStruct (<[ f := v ]> fields) ]> st).

(** [m[key]] on a map that may be nil: the zero value when the key is
    absent. *)
Definition mapIndex (st : store) (m : option loc) (key : string) : outcome cell :=
  match m with
  | None => Ret CNil
  | Some l => entries ← readMap st l; Ret (default CNil (entries !! key))
  end.

(** [m[key] = v] *)
Definition mapAssign (st : store) (l : loc) (key : string) (v : cell) : outcome store :=
  entries ← readMap st l; Ret (<[ l := OMap (<[ key := v ]> entries) ]> st).

(** [delete(m, key)] *)
Definition mapDelete (st : store) (l : loc) (key : string) : outcome store :=
  entries ← readMap st l; Ret (<[ l := OMap (delete key entries) ]> st).

(** [s[i]] for the slice with backing array [a], offset [off] and
    length [len]. *)
Definition sliceIndex (st : store) (a : loc) (off len i : nat) : outcome cell :=
  cells ← readArray st a;
  if Nat.ltb i len
  then match cells !! (off + i) with Some c => Ret c | None => Stuck end
  else Panic (IndexOutOfRange (Z.of_nat i) len).

(** [s[i] = v] *)
Definition sliceAssign (st : store) (a : loc) (off len i : nat) (v : cell)
  : outcome store :=
  cells ← readArray st a;
  if Nat.ltb i len
  then Ret (<[ a := OArray (<[ off + i := v ]> cells) ]> st)
  else Panic (IndexOutOfRange (Z.of_nat i) len).

Definition zeroOf (e : elemty) : cell :=
  match e with
  | EAny => CNil
  | EOther ty => CScalar (SOther ty 0)
  end.

(** The dynamic type of a non-nil interface value. *)
Inductive gotype : Type :=
  | TBool | TInt | TInt64 | TFloat64 | TString | TOther (ty : nat)
  | TMap | TSlice (e : elemty) | TPtr (ty : nat).

Definition typeOf (c : cell) : option gotype :=
  match c with
  | CNil => None
  | CScalar (SBool _) => Some TBool
  | CScalar (SInt _) => Some TInt
  | CScalar (SInt64 _) => Some TInt64
  | CScalar (SFloat64 _) => Some TFloat64
  | CScalar (SString _) => Some TString
  | CScalar (SOther ty _) => Some (TOther ty)
  | CMap _ => Some TMap
  | CSlice e _ _ _ _ => Some (TSlice e)
  | CPtr ty _ => Some (TPtr ty)
  end.

Definition comparable (t : gotype) : bool :=
  match t with
  | TMap | TSlice _ => false
  | _ => true
  end.

#[global] Instance spec_float_eq_dec : EqDecision spec_float.
Proof. solve_decision. Defined.
#[global] Instance scalar_eq_dec : EqDecision scalar.
Proof. solve_decision. Defined.
#[global] Instance elemty_eq_dec : EqDecision elemty.
Proof. solve_decision. Defined.
#[global] Instance gotype_eq_dec : EqDecision gotype.
Proof. solve_decision. Defined.
#[global] Instance cell_eq_dec : EqDecision cell.
Proof. solve_decision. Defined.

(** [a == b] on two values of one comparable type: floating-point
    numbers are compared as the standard has it (a NaN equals nothing,
    itself included; the two zeros are equal), pointers by address,
    any other value by what it is. *)
Definition equalValues (a b : cell) : bool :=
  match a, b with
  | CScalar (SFloat64 x), CScalar (SFloat64 y) => SFeqb x y
  | _, _ => bool_decide (a = b)
  end.

(** [a != b] on two interface values: values of different dynamic types
    differ; values of one comparable type are compared; values of one
    type that is not comparable make the comparison panic. *)
Definition ifaceNeq (a b : cell) : outcome bool :=
  match typeOf a, typeOf b with
  | None, None => Ret false
  | Some ta, Some tb =>
      if bool_decide (ta = tb)
      then if comparable ta then Ret (negb (equalValues a b))
           else Panic Uncomparable
      else Ret true
  | _, _ => Ret true
  end.

(** [firestore.Update] *)
Record Update : Type := { Path : string; Value : cell }.

(** The package variables naming the managed fields, at their initial
    values. *)
Definition IdFieldName : string := "id".
Definition UpdatedAtFieldName : string := "updatedAt".

(** The bulk writer of the client: [Update] enqueues a write for the
    document with the given id and yields a job or an error;
    [Results] yields the outcome of a job. *)
Record BulkWriter (Job WriteResult : Type) : Type := {
  Bulk_Update : string → list Update → Job + err;
  Job_Results : Job → WriteResult + err;
}.
Arguments Bulk_Update {Job WriteResult} _ _ _.
Arguments Job_Results {Job WriteResult} _ _.

(** What a transform may do to its argument: a program of assignments
    through access paths that start at the argument.  A path goes
    through keys of maps and indices of slices, and may end in a field
    of the struct a pointer refers to. *)
Inductive step : Type := AtKey (k : string) | AtIndex (i : nat) | AtField (f : string).

Inductive rhs : Type :=
  | Const (s : scalar)
  | ConstNil
  | NewMap                       (* map[string]any{} *)
  | NewSlice (n : nat)           (* make([]any, n) *)
  | ReadAt (p : list step).      (* the value found at a path *)

Inductive mutation : Type :=
  | SetKey (p : list step) (k : string) (r : rhs)    (* x.p[k] = r *)
  | DeleteKey (p : list step) (k : string)           (* delete(x.p, k) *)
  | SetIndex (p : list step) (i : nat) (r : rhs)     (* x.p[i] = r *)
  | Append (p : list step) (k : string) (r : rhs) (grow : nat)
      (* x.p[k] = append(x.p[k].([]any), r); [grow] is the capacity the
         runtime picks when the array is full *)
  | SetField (p : list step) (f : string) (r : rhs).
      (* x.p.f = r, a write through the pointer found at x.p *)

(** A transform [func(map[string]any) map[string]any]: it is handed a
    map and the store, and yields a map (or the nil map) and the store
    it leaves behind. *)
Definition transform : Type := loc → store → outcome (option loc * store).

Section Updater.

Variable U : Unicode.
Variable ord : MapOrder.
Context {Job WriteResult : Type}.
(** The documents a query yields are maps in the store. *)
Variable db : Firestore loc.
Variable bw : BulkWriter Job WriteResult.
(** The reading of the clock, [time.Now()]. *)
Variable now : cell.

(** [deepCopyMap] (helpers.go).  The recursion of the source follows
    the references of the store, hence the fuel. *)
Fixpoint deepCopyMap (fuel : nat) (src : cell) (st : store)
  : outcome (cell * store) :=
  match fuel with
  | 0 => Timeout
  | S fuel =>
      match src with
      | CMap l =>
          entries ← readMap st l;
          let '(dstMap, st) := alloc st (OMap ∅) in
          st ← foldM
                 (λ st key,
                    v ← mapIndex st (Some l) key;
                    '(c, st) ← deepCopyMap fuel v st;
                    (* SetMapIndex with the zero Value deletes the key *)
                    match c with
                    | CNil => mapDelete st dstMap key
                    | _ => mapAssign st dstMap key c
                    end)
                 st (rangeOver ord entries).*1;
          Ret (CMap dstMap, st)
      | CSlice e a off len cap =>
          cells ← readArray st a;
          (* MakeSlice, then Copy *)
          let '(dstSlice, st) :=
            alloc st (OArray (take len (drop off cells)
                                ++ replicate (cap - len) (zeroOf e))) in
          st ← foldM
                 (λ st i,
                    v ← sliceIndex st a off len i;
                    '(c, st) ← deepCopyMap fuel v st;
                    (* Set with the zero Value panics *)
                    match c with
                    | CNil => Panic SetZeroValue
                    | _ => sliceAssign st dstSlice 0 len i c
                    end)
                 st (seq 0 len);
          Ret (CSlice e dstSlice 0 len cap, st)
      | _ => Ret (src, st)
      end
  end.

(** The loop of [makeUpdateData] over the entries of [oldDoc]. *)
Definition diffEntry (st : store) (afterDoc : option loc)
    (updateData : list Update) (entry : string * cell) : outcome (list Update) :=
  let '(key, oldVal) := entry in
  if String.eqb key IdFieldName then Ret updateData
  else
    newVal ← mapIndex st afterDoc key;
    changed ← ifaceNeq newVal oldVal;
    if changed : bool
    then Ret (updateData ++ [{| Path := key; Value := newVal |}])
    else Ret updateData.

Definition makeUpdateData (fuel : nat) (oldDoc : loc) (batchFn : option transform)
    (st : store) : outcome (list Update * store) :=
  '(copy, st) ← deepCopyMap fuel (CMap oldDoc) st;
  afterDoc ← match copy with CMap l => Ret l | _ => Panic TypeAssertion end;
  '(afterDoc, st) ←
    match batchFn with
    | Some f => f afterDoc st
    | None => Ret (Some afterDoc, st)
    end;
  entries ← readMap st oldDoc;
  updateData ← foldM (diffEntry st afterDoc) [] (rangeOver ord entries);
  Ret (updateData, st).

(** The first loop of [batchEach500Docs]: one document. *)
Definition enqueueDoc (fuel : nat) (batchFn : option transform)
    (acc : list error * list Job * store) (doc : loc)
  : outcome (list error * list Job * store) :=
  let '(errs, jobs, st) := acc in
  idv ← mapIndex st (Some doc) IdFieldName;
  id ← match idv with CScalar (SString s) => Ret s | _ => Panic TypeAssertion end;
  '(updateData, st) ← makeUpdateData fuel doc batchFn st;
  if Nat.eqb (length updateData) 0 then Ret (errs, jobs, st)
  else
    let updateData :=
      updateData ++ [{| Path := UpdatedAtFieldName; Value := now |}] in
    match Bulk_Update bw id updateData with
    | inr e => Ret (errs ++ [Some e], jobs, st)
    | inl job => Ret (errs, jobs ++ [job], st)
    end.

(** The second loop of [batchEach500Docs]: one job. *)
Definition collectJob (acc : list error * list WriteResult) (job : Job)
  : list error * list WriteResult :=
  let '(errs, results) := acc in
  match Job_Results bw job with
  | inr e => (errs ++ [Some e], results)
  | inl r => (errs, results ++ [r])
  end.

Definition batchEach500Docs (fuel : nat) (docs : list loc)
    (batchFn : option transform) (st : store)
  : outcome (list WriteResult * error * store) :=
  if Nat.eqb (length docs) 0
  then Ret ([], Some (ErrNew "no docs to batch"), st)
  else
    chunks ← lo_Chunk docs 500;
    docs ← index chunks 0;
    '(errs, jobs, st) ← foldM (enqueueDoc fuel batchFn) ([], [], st) docs;
    let '(errs, results) := foldl collectJob (errs, []) jobs in
    Ret (results, errors_Join errs, st).

(** The loop of [BatchDocs]: one group. *)
Definition batchGroup (fuel : nat) (batchFn : option transform)
    (acc : list error * list WriteResult * store) (docs : list loc)
  : outcome (list error * list WriteResult * store) :=
  let '(errs, batchResults, st) := acc in
  '(results, err, st) ← batchEach500Docs fuel docs batchFn st;
  match err with
  | Some e => Ret (errs ++ [Some e], batchResults, st)
  | None => Ret (errs, batchResults ++ results, st)
  end.

(** [BatchDocs], on the store that holds the documents of the
    collection. *)
Definition BatchDocs (fuel : nat) (condition : list value)
    (batchFn : option transform) (st : store)
  : outcome (list WriteResult * error * store) :=
  '(docs, err) ← ListDocs U ord db id condition;
  match err with
  | Some e => Ret ([], Some e, st)
  | None =>
      if Nat.eqb (length docs) 0
      then Ret ([], Some (ErrNew "no docs to batch"), st)
      else
        _500Docs ← lo_Chunk docs 500;
        '(errs, batchResults, st) ←
          foldM (batchGroup fuel batchFn) ([], [], st) _500Docs;
        Ret (batchResults, errors_Join errs, st)
  end.

End Updater.

(** ** Transforms that mutate their argument in place *)

Fixpoint walk (st : store) (x : cell) (p : list step) : outcome cell :=
  match p with
  | [] => Ret x
  | AtKey k :: p' =>
      match x with
      | CMap l => v ← mapIndex st (Some l) k; walk st v p'
      | _ => Panic TypeAssertion
      end
  | AtIndex i :: p' =>
      match x with
      | CSlice _ a off len _ => v ← sliceIndex st a off len i; walk st v p'
      | _ => Panic TypeAssertion
      end
  | AtField f :: p' =>
      match x with
      | CPtr _ l => v ← fieldOf st l f; walk st v p'
      | _ => Panic TypeAssertion
      end
  end.

Definition evalRhs (st : store) (x : cell) (r : rhs) : outcome (cell * store) :=
  match r with
  | Const s => Ret (CScalar s, st)
  | ConstNil => Ret (CNil, st)
  | NewMap => let '(l, st) := alloc st (OMap ∅) in Ret (CMap l, st)
  | NewSlice n =>
      let '(a, st) := alloc st (OArray (replicate n CNil)) in
      Ret (CSlice EAny a 0 n n, st)
  | ReadAt p => v ← walk st x p; Ret (v, st)
  end.

(** One assignment, on the value [x] the program was handed. *)
Definition mutate (x : cell) (st : store) (m : mutation) : outcome store :=
  match m with
  | SetKey p k r =>
      t ← walk st x p;
      match t with
      | CMap l => '(v, st) ← evalRhs st x r; mapAssign st l k v
      | _ => Panic TypeAssertion
      end
  | DeleteKey p k =>
      t ← walk st x p;
      match t with
      | CMap l => mapDelete st l k
      | _ => Panic TypeAssertion
      end
  | SetIndex p i r =>
      t ← walk st x p;
      match t with
      | CSlice _ a off len _ => '(v, st) ← evalRhs st x r; sliceAssign st a off len i v
      | _ => Panic TypeAssertion
      end
  | Append p k r grow =>
      t ← walk st x p;
      match t with
      | CMap l =>
          s ← mapIndex st (Some l) k;
          match s with
          | CSlice EAny a off len cap =>
              '(v, st) ← evalRhs st x r;
              cells ← readArray st a;
              if Nat.ltb len cap
              then
                (* room left: the cell after the last one is written *)
                let st := <[ a := OArray (<[ off + len := v ]> cells) ]> st in
                mapAssign st l k (CSlice EAny a off (S len) cap)
              else
                (* full: the elements move to a new array *)
                let newcap := Nat.max grow (S len) in
                let '(a', st) :=
                  alloc st (OArray (take len (drop off cells) ++ [v]
                                      ++ replicate (newcap - S len) CNil)) in
                mapAssign st l k (CSlice EAny a' 0 (S len) newcap)
          | _ => Panic TypeAssertion
          end
      | _ => Panic TypeAssertion
      end
  | SetField p f r =>
      t ← walk st x p;
      match t with
      | CPtr _ l =>
          '(v, st) ← evalRhs st x r;
          match v with
          | CScalar s => fieldAssign st l f s
          | _ => Panic TypeAssertion
          end
      | _ => Panic TypeAssertion
      end
  end.

Definition runProgram (x : cell) (st : store) (prog : list mutation) : outcome store :=
  foldM (mutate x) st prog.

(** The transform that runs [prog] on its argument and returns the map
    found at [ret], or the nil map when [ret] is [None]. *)
Definition programTransform (prog : list mutation) (ret : option (list step))
  : transform :=
  λ arg st,
    st ← runProgram (CMap arg) st prog;
    match ret with
    | None => Ret (None, st)
    | Some p =>
        r ← walk st (CMap arg) p;
        match r with
        | CMap l => Ret (Some l, st)
        | _ => Panic TypeAssertion
        end
    end.

(** ** Documents as the client returns them *)

(** A [firestore.DocumentSnapshot] of an existing document: the ID and
    the path of its reference ([doc.Ref.ID], [doc.Ref.Path]) and its
    decoded fields ([doc.Data()]).  Nested maps and arrays are
    references into the store. *)
Record DocumentSnapshot : Type := {
  Ref_ID : string;
  Ref_Path : string;
  Data : gmap string cell;
}.

(** [makeDocResponse] (helpers.go), on such snapshots. *)
Definition makeDocResponse (doc : DocumentSnapshot) : gmap string cell :=
  lo_Assign (Data doc)
    {[ "_id" := CScalar (SString (Ref_ID doc));
       "_ref" := CScalar (SString (Ref_Path doc)) ]}.

(** [FilterDocs] and [TransformsDocs] (helpers.go).  The callback is a
    Go function: it may panic and it may write to whatever it reaches,
    so it is handed a state and returns one. *)
Section Callbacks.

Context {Doc S : Type}.

Definition FilterDocs (docs : list Doc) (filter : Doc → S → outcome (bool * S))
    (s : S) : outcome (list Doc * S) :=
  foldM (λ '(filtered, s) doc,
           '(keep, s) ← filter doc s;
           if keep : bool then Ret (filtered ++ [doc], s) else Ret (filtered, s))
        ([], s) docs.

Definition TransformsDocs (docs : list Doc) (transform : Doc → S → outcome (Doc * S))
    (s : S) : outcome (list Doc * S) :=
  foldM (λ '(transformed, s) doc,
           '(d, s) ← transform doc s;
           Ret (transformed ++ [d], s))
        ([], s) docs.

End Callbacks.

(** ** Writing documents *)

Definition UidFieldName : string := "uid".
Definition CreatedAtFieldName : string := "createdAt".
Definition DeletedAtFieldName : string := "deletedAt".

(** The package variable [DefaultOrderByString] (helpers.go):
    [fmt.Sprintf("%s:%s", CreatedAtFieldName, "desc")]. *)
Definition DefaultOrderByString : string := CreatedAtFieldName +:+ ":" +:+ "desc".

(** The write side of the client, for one collection. *)
Record Writes (WriteResult : Type) : Type := {
  (* coll.ref.NewDoc().ID: the ID of the n-th reference the client
     makes up *)
  NewDoc_ID : nat → string;
  (* coll.ref.Doc(id).Set(ctx, data, opts...): the ID, the data (a map
     in the store), whether firestore.MergeAll is among the options *)
  Doc_Set : string → store → option loc → bool → WriteResult + err;
  (* coll.ref.Doc(id).Delete(ctx) *)
  Doc_Delete : string → WriteResult + err;
}.
Arguments NewDoc_ID {WriteResult} _ _.
Arguments Doc_Set {WriteResult} _ _ _ _ _.
Arguments Doc_Delete {WriteResult} _ _.

(** What the write path reads and leaves behind: the store, the number
    of readings of the clock taken so far and the number of references
    made up so far. *)
Record world : Type := {
  heap : store;
  ticks : nat;
  minted : nat;
}.

(** [m[key] = v] on a map that may be nil: on the nil map the runtime
    panics, with the text given here. *)
Definition assignEntry (st : store) (m : option loc) (key : string) (v : cell)
  : outcome store :=
  match m with
  | None => Panic (Explicit "assignment to entry in nil map")
  | Some l => mapAssign st l key v
  end.

Section Writer.

Context {WriteResult : Type}.
Variable client : Writes WriteResult.
(** [time.Now()]: the n-th reading of the clock. *)
Variable clock : nat → cell.

(** The first component of the result is the ID of the reference that
    is returned, [None] for the nil reference. *)
Definition AddDocWithId (id uid : option string) (v : option loc) (w : world)
  : outcome (option string * option WriteResult * error * world) :=
  st ← match uid with
       | Some u => assignEntry (heap w) v UidFieldName (CScalar (SString u))
       | None => Ret (heap w)
       end;
  st ← assignEntry st v CreatedAtFieldName (clock (ticks w));
  st ← assignEntry st v UpdatedAtFieldName (clock (S (ticks w)));
  st ← assignEntry st v DeletedAtFieldName CNil;
  let ref := NewDoc_ID client (minted w) in
  let ref := match id with Some i => i | None => ref end in
  st ← assignEntry st v IdFieldName (CScalar (SString ref));
  let w := {| heap := st; ticks := S (S (ticks w)); minted := S (minted w) |} in
  match Doc_Set client ref st v false with
  | inr e => Ret (None, None, Some e, w)
  | inl result => Ret (Some ref, Some result, None, w)
  end.

Definition AddDoc (uid : option string) (v : option loc) (docIdPrefix : list string)
    (w : world) : outcome (option string * option WriteResult * error * world) :=
  let ref := NewDoc_ID client (minted w) in
  let w := {| heap := heap w; ticks := ticks w; minted := S (minted w) |} in
  let idPrefix :=
    if Nat.ltb 0 (length docIdPrefix) then default "" (docIdPrefix !! 0) else "" in
  let id := idPrefix +:+ ref in
  AddDocWithId (Some id) uid v w.

Definition AddDocData (v : option loc) (docIdPrefix : list string) (w : world)
  : outcome (option string * option WriteResult * error * world) :=
  AddDoc None v docIdPrefix w.

Definition UpdateDoc (id : string) (data : option loc) (w : world)
  : outcome ((WriteResult + err) * world) :=
  st ← assignEntry (heap w) data UpdatedAtFieldName (clock (ticks w));
  Ret (Doc_Set client id st data true,
       {| heap := st; ticks := S (ticks w); minted := minted w |}).

Definition DeleteDoc (id : string) (isSoftDelete : list bool) (w : world)
  : outcome ((WriteResult + err) * world) :=
  if Nat.ltb 0 (length isSoftDelete) && default false (isSoftDelete !! 0)
  then
    let '(data, st) :=
      alloc (heap w) (OMap {[ DeletedAtFieldName := clock (ticks w) ]}) in
    UpdateDoc id (Some data)
      {| heap := st; ticks := S (ticks w); minted := minted w |}
  else Ret (Doc_Delete client id, w).

End Writer.

Section Deleter.

Variable U : Unicode.
Variable ord : MapOrder.
Context {Job WriteResult : Type}.
Variable db : Firestore DocumentSnapshot.
Variable bw : BulkWriter Job WriteResult.
(** [batch.Delete(ref)] of the bulk writer, for the document with the
    given ID. *)
Variable Bulk_Delete : string → Job + err.
Variable clock : nat → cell.

(** The first loop of [DeleteDocs]: one document.  The last component
    of the accumulator counts the readings of the clock. *)
Definition deleteJob (softDelete : bool) (acc : list error * list Job * nat)
    (doc : gmap string cell) : outcome (list error * list Job * nat) :=
  let '(errs, jobs, t) := acc in
  docId ← match default CNil (doc !! IdFieldName) with
          | CScalar (SString s) => Ret s
          | _ => Panic TypeAssertion
          end;
  let '(r, t) :=
    if negb softDelete then (Bulk_Delete docId, t)
    else (Bulk_Update bw docId
            [ {| Path := DeletedAtFieldName; Value := clock t |};
              {| Path := UpdatedAtFieldName; Value := clock (S t) |} ],
          S (S t)) in
  match r with
  | inr e => Ret (errs ++ [Some e], jobs, t)
  | inl job => Ret (errs, jobs ++ [job], t)
  end.

Definition DeleteDocs (condition : list value) (isSoftDelete : list bool) (t : nat)
  : outcome (list WriteResult * error * nat) :=
  '(docs, err) ← ListDocs U ord db makeDocResponse condition;
  match err with
  | Some e => Ret ([], Some e, t)
  | None =>
      if Nat.eqb (length docs) 0 then Ret ([], Some (ErrNew "not found"), t)
      else
        let softDelete :=
          Nat.ltb 0 (length isSoftDelete) && default false (isSoftDelete !! 0) in
        '(errs, jobs, t) ← foldM (deleteJob softDelete) ([], [], t) docs;
        let '(errs, results) := foldl (collectJob bw) (errs, []) jobs in
        Ret (results, errors_Join errs, t)
  end.

End Deleter.

(** ** Vocabulary of the statements *)

(** The keys of an options mapping, lower case. *)
Definition recognizedKeys : list string :=
  ["orderby"; "limit"; "offset"; "startat"; "startafter"; "endat"; "endbefore"].

Definition isModifier (c : qcall) : bool :=
  match c with
  | QWhere _ _ _ => false
  | _ => true
  end.

(** The loop of [MakeQuery] resumed at position [idx] of a sequence of
    [len] clauses, with [query] built so far. *)
Definition compileFrom (U : Unicode) (ord : MapOrder) (len idx : nat)
    (query : Query) (clauses : list value) : outcome Query :=
  foldM (compileClause U ord len) query (imap (λ i w, (idx + i, w)) clauses).

(** The filters a mapping stands for when it is not the final clause. *)
Definition equalityFilters (ord : MapOrder) (m : gmap string value) : Query :=
  (λ kv, QWhere kv.1 "==" kv.2) <$> rangeOver ord m.



(** A condition sequence with the options of a page put on it. *)
Definition withPage (condition : list value) (page perPage : Z) : list value :=
  match last condition with
  | Some (VMap m) =>
      removelast condition ++ [VMap (lo_Assign m (pageOptions page perPage))]
  | _ => condition ++ [VMap (pageOptions page perPage)]
  end.

(** Every group of a batch run in turn, whatever the outcome of the
    others: the results and the error of each. *)
Fixpoint runGroups {Job WriteResult : Type} (ord : MapOrder)
    (bw : BulkWriter Job WriteResult) (now : cell) (fuel : nat)
    (batchFn : option transform) (groups : list (list loc)) (st : store)
  : outcome (list (list WriteResult * error) * store) :=
  match groups with
  | [] => Ret ([], st)
  | docs :: groups' =>
      '(results, err, st) ← batchEach500Docs ord bw now fuel docs batchFn st;
      '(runs, st) ← runGroups ord bw now fuel batchFn groups' st;
      Ret ((results, err) :: runs, st)
  end.

(** The results of the groups that returned no error. *)
Definition successes {WriteResult : Type} (runs : list (list WriteResult * error))
  : list WriteResult :=
  concat ((λ run, match run.2 with None => run.1 | Some _ => [] end) <$> runs).

(** The errors of the groups that returned one. *)
Definition failures {WriteResult : Type} (runs : list (list WriteResult * error))
  : list error :=
  filter is_Some (runs.*2).

(** The update a field of the original document gives rise to, if any:
    the field is not the identifier, the transformed document can be
    read, and its value there differs from the original one. *)
Definition changedField (st : store) (afterDoc : option loc) (entry : string * cell)
  : option Update :=
  if String.eqb entry.1 IdFieldName then None
  else
    match mapIndex st afterDoc entry.1 with
    | Ret newVal =>
        match ifaceNeq newVal entry.2 with
        | Ret true => Some {| Path := entry.1; Value := newVal |}
        | _ => None
        end
    | _ => None
    end.

(** A cell that refers to no map and no array allocated before the
    store had [n] objects.  (A pointer may point anywhere.) *)
Definition cellFresh (n : nat) (c : cell) : Prop :=
  match c with
  | CMap l => n ≤ l
  | CSlice _ a _ _ _ => n ≤ a
  | _ => True
  end.

Definition objectFresh (n : nat) (o : object) : Prop :=
  match o with
  | OMap m => map_Forall (λ _ c, cellFresh n c) m
  | OArray cells => Forall (cellFresh n) cells
  | OStruct _ => True
  end.

(** [st'] has grown from [st]: the objects of [st] are all there and
    unchanged, and the objects added since refer only to objects at or
    after address [n] (but for the one at [exc], which is under
    construction). *)
Record grown (exc : option loc) (n : nat) (st st' : store) : Prop := {
  grown_length : length st ≤ length st';
  grown_frame : ∀ l, l < length st → st' !! l = st !! l;
  grown_fresh : ∀ l o, length st ≤ l → exc ≠ Some l → st' !! l = Some o →
                       objectFresh n o;
}.

(** What one call of [deepCopyMap] guarantees when it returns. *)
Definition copyPost (src : cell) (st : store) (r : cell * store) : Prop :=
  grown None (length st) st r.2 ∧ cellFresh (length st) r.1.

(** Stores on which the recursion of [deepCopyMap] ends.  [rank] bounds
    the depth of what an object refers to: a cell is within [bound]
    when the map or the array it refers to exists and has a rank below
    [bound]; a slice must lie within its array and hold no nil in its
    window (on a nil element the copy panics). *)
Definition cellWithin (rank : loc → nat) (st : store) (bound : nat) (c : cell) : Prop :=
  match c with
  | CMap l => rank l < bound ∧ ∃ m, st !! l = Some (OMap m)
  | CSlice _ a off len _ =>
      rank a < bound
      ∧ ∃ cells, st !! a = Some (OArray cells)
                 ∧ off + len ≤ length cells
                 ∧ Forall (λ c, c ≠ CNil) (take len (drop off cells))
  | _ => True
  end.

Definition objectWithin (rank : loc → nat) (st : store) (bound : nat) (o : object)
  : Prop :=
  match o with
  | OMap m => map_Forall (λ _ c, cellWithin rank st bound c) m
  | OArray cells => Forall (cellWithin rank st bound) cells
  | OStruct _ => True
  end.

(** Every object refers to objects of lower rank only: no cycles. *)
Definition ranked (rank : loc → nat) (st : store) : Prop :=
  ∀ l o, st !! l = Some o → objectWithin rank st (rank l) o.

(** [s] holds the objects of [st], unchanged, and maybe more. *)
Definition extends (st s : store) : Prop :=
  length st ≤ length s ∧ ∀ l, l < length st → s !! l = st !! l.

(** An object with what its fields hold left out, when it is a struct. *)
Definition shape (o : object) : object :=
  match o with
  | OStruct _ => OStruct ∅
  | _ => o
  end.

Definition isStruct (o : object) : bool :=
  match o with
  | OStruct _ => true
  | _ => false
  end.

(** [st'] has grown from [st] but for what the structs hold: the maps
    and the arrays of [st] are all there and unchanged, and the objects
    added since refer to no map and no array of [st]. *)
Definition kept (st st' : store) : Prop :=
  grown None (length st) (shape <$> st) (shape <$> st').

(** Every map and every array of [st] is in [st'], as it was. *)
Definition intact (st st' : store) : Prop :=
  ∀ l o, st !! l = Some o → isStruct o = false → st' !! l = Some o.

(** The rank of the objects of [nestedStore]. *)
Definition nestedRank (l : loc) : nat :=
  match l with
  | 0 => 2
  | 2 => 1
  | _ => 0
  end.

(** A clause [[]any{path, op, val}] and the filter it stands for. *)
Definition tupleClause (f : string * string * value) : value :=
  VSlice [VString f.1.1; VString f.1.2; f.2].

Definition filterOf (f : string * string * value) : qcall :=
  QWhere f.1.1 f.1.2 f.2.

(** The clauses on which the loop of [MakeQuery] can get through: a
    [[]any] of three elements or more that starts with two strings, or
    a [map[string]any]. *)
Definition wellFormed (c : value) : Prop :=
  match c with
  | VSlice (VString _ :: VString _ :: _ :: _) => True
  | VMap _ => True
  | _ => False
  end.

(** Whether the byte [c] occurs in [s]. *)
Fixpoint hasByte (c : ascii) (s : string) : bool :=
  match s with
  | EmptyString => false
  | String a r => Ascii.eqb a c || hasByte c r
  end.

(** The order-by call one order spec gives rise to, if any. *)
Definition orderByOf (U : Unicode) (ob : string) : option qcall :=
  match parseOrderBy U ob with
  | Ret (Some o) =>
      if Nat.ltb 0 (String.length (Field o))
      then Some (QOrderBy (Field o) (Direction o))
      else None
  | _ => None
  end.

(** A document that holds a string under [id]. *)
Definition hasId (doc : gmap string cell) : Prop :=
  ∃ s, doc !! IdFieldName = Some (CScalar (SString s)).

(** A value that [deepCopyMap] returns as it is: nil, a scalar or a
    pointer. *)
Definition flat (c : cell) : Prop :=
  match c with
  | CMap _ | CSlice _ _ _ _ _ => False
  | _ => True
  end.

(** Whether a value is a NaN, the one value that differs from itself. *)
Definition isNaN (c : cell) : bool :=
  match c with
  | CScalar (SFloat64 S754_nan) => true
  | _ => false
  end.

(** The update that a field of a document gives rise to although
    nothing has changed it: none, unless it holds a NaN under a name
    other than the identifier. *)
Definition nanUpdate (entry : string * cell) : option Update :=
  if String.eqb entry.1 IdFieldName then None
  else if isNaN entry.2 then Some {| Path := entry.1; Value := entry.2 |}
  else None.

(** A transform that returns its argument and leaves the store as it
    is; the nil transform counts as one. *)
Definition changesNothing (batchFn : option transform) : Prop :=
  match batchFn with
  | None => True
  | Some f => ∀ d st, f d st = Ret (Some d, st)
  end.

(** A document of the store whose fields hold no map, no slice and no
    NaN, with a string under [id]. *)
Definition flatDocument (st : store) (doc : loc) : Prop :=
  ∃ entries, st !! doc = Some (OMap entries)
             ∧ map_Forall (λ _ c, flat c) entries
             ∧ map_Forall (λ _ c, isNaN c = false) entries
             ∧ hasId entries.

(** What the copy of a map holds under a key, given what the source
    holds there: nothing for nil, the scalar itself, the pointer
    itself, and for a map or a slice a map or a slice (of the same
    element type, length and capacity) allocated after the [n] objects
    the store had. *)
Definition copiedEntry (n : nat) (src copy : option cell) : Prop :=
  match src with
  | None | Some CNil => copy = None
  | Some (CScalar s) => copy = Some (CScalar s)
  | Some (CPtr ty p) => copy = Some (CPtr ty p)
  | Some (CMap _) => ∃ d, copy = Some (CMap d) ∧ n < d
  | Some (CSlice e _ _ len cap) => ∃ a, copy = Some (CSlice e a 0 len cap) ∧ n < a
  end.

(** What the copy of a slice holds at an index within its length, given
    what the source holds there: the scalar itself, the pointer itself,
    or a map or a slice allocated after the [n] objects the store had.
    (On a nil element the copy does not return.) *)
Definition copiedElement (n : nat) (src copy : option cell) : Prop :=
  match src with
  | Some (CScalar s) => copy = Some (CScalar s)
  | Some (CPtr ty p) => copy = Some (CPtr ty p)
  | Some (CMap _) => ∃ d, copy = Some (CMap d) ∧ n < d
  | Some (CSlice e _ _ len cap) => ∃ a, copy = Some (CSlice e a 0 len cap) ∧ n < a
  | _ => False
  end.

(** ** Instances for the examples *)

(** A stand-in for the Unicode tables; the examples use ASCII only. *)
Definition asciiOnly : Unicode :=
  {| unicode_ToLower := λ s, s; unicode_TrimSpace := λ s, s |}.

(** The limit and the offset a query asks for: the last call counts. *)
Definition limitOf (q : Query) : option Z :=
  last (omap (λ c, match c with QLimit n => Some n | _ => None end) q).
Definition offsetOf (q : Query) : Z :=
  default 0%Z (last (omap (λ c, match c with QOffset n => Some n | _ => None end) q)).

(** A collection of sixty documents, numbered from 0, that honours
    limit and offset and nothing else; no document can be fetched by
    id. *)
Definition sixtyDocs (q : Query) : list nat :=
  let docs := drop (Z.to_nat (offsetOf q)) (seq 0 60) in
  match limitOf q with
  | Some n => take (Z.to_nat n) docs
  | None => docs
  end.

Definition exampleDb : Firestore nat :=
  {| Documents_GetAll := λ q, (sixtyDocs q, None);
     Aggregation_Get := λ q, ({[ "all" := Z.of_nat (length (sixtyDocs q)) ]}, None);
     Doc_Get := λ id, inr (ErrStatus CodeNotFound "not found") |}.

(** A collection of sixty documents of which the first ten have the uid
    abc: it honours the filter on that uid, limit and offset. *)
Definition filtersUid (q : Query) : bool :=
  existsb (λ c, match c with
                | QWhere path op (VString v) =>
                    String.eqb path "uid" && String.eqb op "==" && String.eqb v "abc"
                | _ => false
                end) q.

Definition uidDocs (q : Query) : list nat :=
  let docs := drop (Z.to_nat (offsetOf q))
                   (if filtersUid q then seq 0 10 else seq 0 60) in
  match limitOf q with
  | Some n => take (Z.to_nat n) docs
  | None => docs
  end.

Definition uidDb : Firestore nat :=
  {| Documents_GetAll := λ q, (uidDocs q, None);
     Aggregation_Get := λ q, ({[ "all" := Z.of_nat (length (uidDocs q)) ]}, None);
     Doc_Get := λ id, inr (ErrStatus CodeNotFound "not found") |}.

(** The first clauses of the example of the README. *)
Definition exampleFilters : list value :=
  [VSlice [VString "deletedAt"; VString "=="; VNil];
   VSlice [VString "uid"; VString "=="; VString "abc"]].




(** A sequence in which one map of the caller's stands twice, over the
    maps [uidMaps]. *)
Definition uidMaps : maps := [ {[ "uid" := VString "abc" ]} ].

Definition sharedExample : list clause := [MapAt (Some 0); MapAt (Some 0)].


(** A collection whose reads fail with a status other than NotFound. *)
Definition brokenDb : Firestore nat :=
  {| Documents_GetAll := λ q, ([], Some (ErrStatus (CodeOther 14) "unavailable"));
     Aggregation_Get := λ q, (∅, Some (ErrStatus (CodeOther 14) "unavailable"));
     Doc_Get := λ id, inr (ErrStatus (CodeOther 14) "unavailable") |}.


(** A store with one document (at address 0) that holds a nested map
    (at 1) and a slice (its array at 2) with a map in it (at 3). *)
Definition nestedStore : store :=
  [ OMap {[ "id" := CScalar (SString "a");
            "profile" := CMap 1;
            "tags" := CSlice EAny 2 0 2 2 ]};
    OMap {[ "city" := CScalar (SString "Hanoi") ]};
    OArray [CScalar (SString "x"); CMap 3];
    OMap {[ "k" := CScalar (SInt64 1) ]} ].

(** A transform body that writes at every depth of its argument. *)
Definition nestedProgram : list mutation :=
  [ SetKey [AtKey "profile"] "city" (Const (SString "Hue"));
    SetIndex [AtKey "tags"] 0 (Const (SString "y"));
    SetKey [AtKey "tags"; AtIndex 1] "k" (Const (SInt64 2));
    DeleteKey [] "id";
    Append [] "tags" (ReadAt [AtKey "profile"]) 4 ].

(** The same run, step by step: copy, transform, further writes to
    what the transform returned. *)
Definition nestedRun : outcome (cell * store * store * store) :=
  '(copy, st1) ← deepCopyMap storedOrder 4 (CMap 0) nestedStore;
  st2 ← runProgram copy st1 nestedProgram;
  r ← walk st2 copy [AtKey "profile"];
  st3 ← runProgram r st2 [SetKey [] "zip" NewMap];
  Ret (copy, st1, st2, st3).

(** A store with one flat document, at address 0. *)
Definition flatStore : store :=
  [ OMap {[ "id" := CScalar (SString "a"); "n" := CScalar (SInt64 1) ]} ].

(** A store with one document that holds a NaN. *)
Definition nanStore : store :=
  [ OMap {[ "id" := CScalar (SString "a");
            "score" := CScalar (SFloat64 S754_nan) ]} ].

(** The numbers 0 and 1 as [float64]. *)
Definition float_zero : spec_float := S754_zero false.
Definition float_one : spec_float := S754_finite false 4503599627370496 (-52).

(** A store with one document (at address 0) that holds a geographical
    point: a pointer to the struct at address 1. *)
Definition geoStore : store :=
  [ OMap {[ "id" := CScalar (SString "a"); "location" := CPtr 0 1 ]};
    OStruct {[ "Latitude" := SFloat64 float_one;
               "Longitude" := SFloat64 float_zero ]} ].

(** The transform that sets the latitude of the location to 0, through
    the pointer, and returns its argument; first its body. *)
Definition moveSouth : list mutation :=
  [ SetField [AtKey "location"] "Latitude" (Const (SFloat64 float_zero)) ].

Definition southward : transform := programTransform moveSouth (Some []).

(** The copy of that document, and the body of the transform run on
    the copy. *)
Definition geoRun : outcome (cell * store * store) :=
  '(copy, st1) ← deepCopyMap storedOrder 2 (CMap 0) geoStore;
  st2 ← runProgram copy st1 moveSouth;
  Ret (copy, st1, st2).

(** The transform that adds the field [m], and the one that returns
    its argument as it is. *)
Definition addField : transform :=
  programTransform [SetKey [] "m" (Const (SInt 2))] (Some []).
Definition identityTransform : transform := programTransform [] (Some []).

(** A collection that lists the documents at the first [k] addresses of
    the store, whatever the query. *)
Definition listFirst (k : nat) : Firestore loc :=
  {| Documents_GetAll := λ q, (seq 0 k, None);
     Aggregation_Get := λ q, ({[ "all" := Z.of_nat k ]}, None);
     Doc_Get := λ id, inr (ErrStatus CodeNotFound "not found") |}.

(** A bulk writer whose jobs and results are the ids of the documents,
    and that fails to write the document "600". *)
Definition stubWriter : BulkWriter string string :=
  {| Bulk_Update := λ id updateData, inl id;
     Job_Results := λ job,
       if String.eqb job "600" then inr (ErrNew "write failed") else inl job |}.

(** A reading of the clock. *)
Definition noon : cell := CScalar (SOther 0 1).

(** A store of 1001 flat documents, the one at address [i] with id [i];
    the field [n] is 1 in four of them and 0 in the others. *)
Definition manyDocs : store :=
  (λ i, OMap {[ "id" := CScalar (SString (pretty i));
                "n" := CScalar (SInt64 (if bool_decide (i ∈ [3; 600; 601; 1000])
                                        then 1 else 0)) ]}) <$> seq 0 1001.

(** The transform that sets the field [n] to 0. *)
Definition resetN : transform :=
  programTransform [SetKey [] "n" (Const (SInt64 0))] (Some []).

(** Two snapshots of documents written by [AddDoc], and one of a
    document that stores no [id] and a field [_id] of its own. *)
Definition snapA : DocumentSnapshot :=
  {| Ref_ID := "a"; Ref_Path := "users/a";
     Data := {[ "id" := CScalar (SString "a"); "n" := CScalar (SInt64 1) ]} |}.

Definition snapC : DocumentSnapshot :=
  {| Ref_ID := "c"; Ref_Path := "users/c";
     Data := {[ "id" := CScalar (SString "c"); "n" := CScalar (SInt64 3) ]} |}.

Definition snapB : DocumentSnapshot :=
  {| Ref_ID := "b"; Ref_Path := "users/b";
     Data := {[ "_id" := CScalar (SString "x"); "n" := CScalar (SInt64 2) ]} |}.

(** A collection whose queries all yield the given snapshots. *)
Definition snapDb (snaps : list DocumentSnapshot) : Firestore DocumentSnapshot :=
  {| Documents_GetAll := λ q, (snaps, None);
     Aggregation_Get := λ q, ({[ "all" := Z.of_nat (length snaps) ]}, None);
     Doc_Get := λ id, inr (ErrStatus CodeNotFound "not found") |}.

(** A client that makes up the IDs doc0, doc1, ..., whose write results
    are the IDs of the documents, and that refuses the empty ID. *)
Definition stubClient : Writes string :=
  {| NewDoc_ID := λ n, "doc" +:+ pretty n;
     Doc_Set := λ id st data merge,
       if String.eqb id "" then inr (ErrNew "empty id") else inl id;
     Doc_Delete := λ id, inl id |}.

(** A clock whose readings all differ. *)
Definition stubClock (n : nat) : cell := CScalar (SOther 0 (S n)).

(** A bulk delete that fails on the document c. *)
Definition stubDelete (id : string) : string + err :=
  if String.eqb id "c" then inr (ErrNew "delete failed") else inl id.

(** A world with one map, which holds a name and a creation time of
    the caller's. *)
Definition johnWorld : world :=
  {| heap := [ OMap {[ "name" := CScalar (SString "John Doe");
                       "createdAt" := CScalar (SString "never") ]} ];
     ticks := 0; minted := 0 |}.

(** A store with one document that holds no [id]. *)
Definition noIdStore : store :=
  [ OMap {[ "n" := CScalar (SInt64 1) ]} ].

(** A store with a slice of two elements, the first of them nil. *)
Definition nilSliceStore : store :=
  [ OMap {[ "id" := CScalar (SString "a"); "tags" := CSlice EAny 1 0 2 2 ]};
    OArray [CNil; CScalar (SString "x")] ].

(** ** General facts *)

Lemma bind_Ret {A B} (a : A) (f : A → outcome B) : (x ← Ret a; f x) = f a.
Proof. reflexivity. Qed.

Lemma bind_inv {A B} (x : outcome A) (f : A → outcome B) (b : B) :
  (a ← x; f a) = Ret b → ∃ a, x = Ret a ∧ f a = Ret b.
Proof. destruct x as [a| | |]; try discriminate. intros H. by exists a. Qed.

Lemma foldM_app {A B} (f : A → B → outcome A) (a : A) (l1 l2 : list B) :
  foldM f a (l1 ++ l2) = (a' ← foldM f a l1; foldM f a' l2).
Proof.
  revert a. induction l1 as [|b l1 IH]; intros a; [done|].
  simpl. destruct (f a b) as [a'| | |]; simpl; [apply IH|done..].
Qed.

Lemma foldM_const {A B} (f : A → B → outcome A) (l : list B) (a : A) :
  (∀ b, b ∈ l → f a b = Ret a) → foldM f a l = Ret a.
Proof.
  induction l as [|b l IH]; intros Hf; simpl; [done|].
  rewrite Hf by left. simpl. apply IH. intros b' Hb'. apply Hf. by right.
Qed.

Lemma foldM_cons {A B} (f : A → B → outcome A) (a : A) (b : B) (l : list B) :
  foldM f a (b :: l) = (a' ← f a b; foldM f a' l).
Proof. done. Qed.

(** A property of the accumulator that every step keeps holds at the
    end of the loop. *)
Lemma foldM_inv {A B} (I : A → Prop) (f : A → B → outcome A) (l : list B) (a a' : A) :
  (∀ x b y, b ∈ l → I x → f x b = Ret y → I y) →
  I a → foldM f a l = Ret a' → I a'.
Proof.
  revert a. induction l as [|b l IH]; intros a Hstep Ha Hrun; simpl in Hrun.
  - by inversion Hrun; subst.
  - apply bind_inv in Hrun as (y & Hy & Hrun).
    eapply IH; [|eapply (Hstep a b y); [left|done..]|done].
    intros ????. apply Hstep. by right.
Qed.

(** A property of panics that every step guarantees holds of the loop. *)
Lemma foldM_panic {A B} (P : panic → Prop) (f : A → B → outcome A) (l : list B)
    (a : A) (p : panic) :
  (∀ x b q, f x b = Panic q → P q) → foldM f a l = Panic p → P p.
Proof.
  intros Hstep. revert a. induction l as [|b l IH]; intros a Hrun; simpl in Hrun.
  - discriminate.
  - destruct (f a b) as [y|q| |] eqn:Hf; simpl in Hrun; try discriminate.
    + by eapply IH.
    + inversion Hrun; subst. by eapply Hstep.
Qed.

(** A loop whose steps only append, only appends. *)
Lemma foldM_extends {A B} (P : A → Prop) (f : list A → B → outcome (list A))
    (l : list B) (q q' : list A) :
  (∀ x b y, f x b = Ret y → ∃ ys, y = x ++ ys ∧ Forall P ys) →
  foldM f q l = Ret q' → ∃ ys, q' = q ++ ys ∧ Forall P ys.
Proof.
  intros Hstep Hrun.
  apply (foldM_inv (λ x, ∃ ys, x = q ++ ys ∧ Forall P ys) f l q q'); [|by exists []; rewrite app_nil_r|done].
  intros x b y _ (ys & -> & Hys) Hf.
  destruct (Hstep _ _ _ Hf) as (zs & -> & Hzs).
  exists (ys ++ zs). rewrite app_assoc. split; [done|]. by apply Forall_app.
Qed.

Lemma docSnapsDataToMap_map {Snap Doc} (mk : Snap → Doc) (docSnaps : list Snap) :
  docSnapsDataToMap mk docSnaps = mk <$> docSnaps.
Proof.
  unfold docSnapsDataToMap.
  cut (∀ acc, foldl (λ data doc, data ++ [mk doc]) acc docSnaps = acc ++ (mk <$> docSnaps)).
  { intros H. by rewrite H. }
  induction docSnaps as [|d ds IH]; intros acc; simpl.
  - by rewrite app_nil_r.
  - rewrite IH. by rewrite <- app_assoc.
Qed.

Lemma last_snoc_Some {A} (l : list A) (x : A) : last (l ++ [x]) = Some x.
Proof. apply last_snoc. Qed.

Lemma last_Some_snoc {A} (l : list A) (x : A) :
  last l = Some x → l = removelast l ++ [x].
Proof.
  intros H. destruct (decide (l = [])) as [->|Hne]; [done|].
  destruct (exists_last Hne) as (l' & y & ->).
  rewrite last_snoc in H. inversion H; subst.
  by rewrite removelast_last.
Qed.

(** ** The condition compiler *)

Section CompilerFacts.

Variable U : Unicode.
Variable ord : MapOrder.

Lemma MakeQuery_compileFrom (condition : list value) :
  MakeQuery U ord condition = compileFrom U ord (length condition) 0 [] condition.
Proof. reflexivity. Qed.

Lemma compileFrom_app (len idx : nat) (q : Query) (l1 l2 : list value) :
  compileFrom U ord len idx q (l1 ++ l2) =
    (q' ← compileFrom U ord len idx q l1;
     compileFrom U ord len (idx + length l1) q' l2).
Proof.
  unfold compileFrom. rewrite imap_app, foldM_app.
  assert (imap (λ n w, (idx + (length l1 + n), w)) l2
          = imap (λ i w, (idx + length l1 + i, w)) l2) as ->; [|done].
  apply imap_ext. intros i w _. f_equal. lia.
Qed.

Lemma compileFrom_cons (len idx : nat) (q : Query) (w : value) (l : list value) :
  compileFrom U ord len idx q (w :: l) =
    (q' ← compileClause U ord len q (idx, w);
     compileFrom U ord len (S idx) q' l).
Proof.
  unfold compileFrom. simpl. rewrite Nat.add_0_r.
  assert (imap ((λ i w, (idx + i, w)) ∘ S) l
          = imap (λ i w, (S idx + i, w)) l) as ->; [|done].
  apply imap_ext. intros i x _. simpl. f_equal. lia.
Qed.

Lemma applyEquality_fold (q : Query) (l : list (string * value)) :
  foldM applyEquality q l = Ret (q ++ ((λ kv, QWhere kv.1 "==" kv.2) <$> l)).
Proof.
  revert q. induction l as [|[k v] l IH]; intros q; simpl.
  - by rewrite app_nil_r.
  - rewrite IH. by rewrite <- app_assoc.
Qed.

(** A mapping that is not the final clause compiles to its equality
    filters. *)
Lemma compileClause_mapping_inner (len idx : nat) (q : Query) (m : gmap string value) :
  S idx ≠ len →
  compileClause U ord len q (idx, VMap m) = Ret (q ++ equalityFilters ord m).
Proof.
  intros Hne. unfold compileClause, equalityFilters. simpl.
  destruct (Z.eqb_spec (Z.of_nat idx) (Z.of_nat len - 1)) as [Heq|_]; [lia|].
  apply applyEquality_fold.
Qed.

(** The mapping that is the final clause is handed to [applyModifier]. *)
Lemma compileClause_mapping_final (len idx : nat) (q : Query) (m : gmap string value) :
  S idx = len →
  compileClause U ord len q (idx, VMap m) = foldM (applyModifier U) q (rangeOver ord m).
Proof.
  intros Heq. unfold compileClause. simpl.
  destruct (Z.eqb_spec (Z.of_nat idx) (Z.of_nat len - 1)) as [_|Hne]; [done|lia].
Qed.

Lemma addOrderBy_extends (q q' : Query) (ob : string) :
  addOrderBy U q ob = Ret q' →
  ∃ mods, q' = q ++ mods ∧ Forall (λ c, isModifier c = true) mods.
Proof.
  unfold addOrderBy. intros H.
  apply bind_inv in H as ([o|] & _ & H).
  - destruct (Nat.ltb 0 _); inversion H; subst.
    + eexists; split; [done|]. by repeat constructor.
    + exists []. by rewrite app_nil_r.
  - inversion H; subst. exists []. by rewrite app_nil_r.
Qed.

(** An entry of the final mapping adds modifier calls only. *)
Lemma applyModifier_extends (q q' : Query) (kv : string * value) :
  applyModifier U q kv = Ret q' →
  ∃ mods, q' = q ++ mods ∧ Forall (λ c, isModifier c = true) mods.
Proof.
  destruct kv as [key val]. unfold applyModifier.
  assert (Hone : ∀ c, isModifier c = true →
             ∃ mods, q ++ [c] = q ++ mods ∧ Forall (λ c, isModifier c = true) mods).
  { intros c Hc. exists [c]. split; [done|]. by repeat constructor. }
  assert (Hnone : ∃ mods, q = q ++ mods ∧ Forall (λ c, isModifier c = true) mods).
  { exists []. by rewrite app_nil_r. }
  intros Hrun.
  repeat match type of Hrun with
    | context [String.eqb ?a ?b] => destruct (String.eqb a b)
    end;
    [ destruct (TypeOf_Kind val) as [[]|]; try discriminate | .. ];
    repeat match type of Hrun with
      | (_ ← _; _) = Ret _ => apply bind_inv in Hrun; destruct Hrun as (? & ? & Hrun)
      end;
    try (by eapply addOrderBy_extends);
    try (by eapply (foldM_extends _ (addOrderBy U)); [intros ???; apply addOrderBy_extends|]);
    inversion Hrun; subst; by auto.
Qed.

(** A key outside the recognized set changes nothing. *)
Lemma applyModifier_ignored (q : Query) (key : string) (val : value) :
  ToLower U key ∉ recognizedKeys → applyModifier U q (key, val) = Ret q.
Proof.
  unfold recognizedKeys, applyModifier. intros Hnot.
  repeat (apply not_elem_of_cons in Hnot as [?%String.eqb_neq Hnot]).
  by repeat match goal with H : String.eqb _ _ = false |- _ => rewrite H; clear H end.
Qed.

Lemma compileClause_extends (len : nat) (q q' : Query) (clause : nat * value) :
  compileClause U ord len q clause = Ret q' → ∃ calls, q' = q ++ calls.
Proof.
  destruct clause as [idx w]. unfold compileClause.
  destruct (ValueOf_Kind w); try discriminate; intros H.
  - repeat match goal with
      | H : (_ ← _; _) = Ret _ |- _ => apply bind_inv in H; destruct H as (? & ? & H)
      end.
    inversion H; subst. by eexists.
  - apply bind_inv in H as (m & _ & H).
    destruct (negb _).
    + rewrite applyEquality_fold in H. inversion H; subst. by eexists.
    + apply (foldM_extends (λ c, isModifier c = true) (applyModifier U)) in H
        as (ys & -> & _); [by eexists|].
      intros x [k v] y Hy. exact (applyModifier_extends x y (k, v) Hy).
Qed.

Lemma compileFrom_extends (len idx : nat) (q q' : Query) (l : list value) :
  compileFrom U ord len idx q l = Ret q' → ∃ calls, q' = q ++ calls.
Proof.
  unfold compileFrom. intros H.
  apply (foldM_extends (λ _, True)) in H as (ys & -> & _); [by eexists|].
  intros x b y Hy. apply compileClause_extends in Hy as (ys & ->).
  exists ys. split; [done|]. by apply Forall_forall.
Qed.

(** No panic of the compiler is the out-of-range read of index -1. *)
Lemma MakeQuery_no_negative_index (condition : list value) (i : Z) (n : nat) :
  MakeQuery U ord condition = Panic (IndexOutOfRange i n) → (0 ≤ i)%Z.
Proof.
  unfold MakeQuery.
  set (P := λ p, match p with IndexOutOfRange j _ => (0 ≤ j)%Z | _ => True end).
  intros H. apply (foldM_panic P) in H; [done|]. clear.
  assert (Hidx : ∀ A (s : list A) k q, index s k = Panic q → P q).
  { intros A s k q. unfold index. destruct (s !! k); [done|].
    intros [= <-]. simpl. lia. }
  assert (Hstr : ∀ v q, assertString v = Panic q → P q).
  { intros [] q; simpl; try done; by intros [= <-]. }
  assert (Hparse : ∀ s q, parseOrderBy U s = Panic q → P q).
  { intros s q. unfold parseOrderBy. destruct (String.eqb s ""); [done|].
    destruct (index _ 0) eqn:E0; simpl; try done; [|intros [= <-]; by eapply Hidx].
    destruct (index _ 1) eqn:E1; simpl; try done; [|intros [= <-]; by eapply Hidx].
    by repeat case_match. }
  assert (Hadd : ∀ x s q, addOrderBy U x s = Panic q → P q).
  { intros x s q. unfold addOrderBy.
    destruct (parseOrderBy U s) eqn:E; simpl; try done.
    - by repeat case_match.
    - intros [= <-]. by eapply Hparse. }
  assert (Hmod : ∀ x kv q, applyModifier U x kv = Panic q → P q).
  { intros x [key val] q. unfold applyModifier.
    repeat case_match; try done; subst;
      try (destruct val; simpl; try done; by intros [= <-]).
    - destruct val; simpl; try done; try (by intros [= <-]). apply Hadd.
    - destruct val; simpl; try done; try (by intros [= <-]).
      intros Hq. by eapply (foldM_panic P _ _ _ _ Hadd Hq). }
  intros x [idx w] q. unfold compileClause.
  destruct w as [| | | | |l|m|k ty id]; simpl; try (by intros [= <-]).
  - destruct (index l 0) eqn:E0; simpl; try done; [|intros [= <-]; by eapply Hidx].
    destruct (assertString a) eqn:Ea; simpl; try done; [|intros [= <-]; by eapply Hstr].
    destruct (index l 1) eqn:E1; simpl; try done; [|intros [= <-]; by eapply Hidx].
    destruct (assertString a1) eqn:Eb; simpl; try done; [|intros [= <-]; by eapply Hstr].
    destruct (index l 2) eqn:E2; simpl; try done. intros [= <-]. by eapply Hidx.
  - destruct (negb _).
    + by rewrite applyEquality_fold.
    + intros Hq. by eapply (foldM_panic P _ _ _ _ Hmod Hq).
  - destruct k; simpl; by intros [= <-].
Qed.




End CompilerFacts.

Lemma equalityFilters_elem (ord : MapOrder) (m : gmap string value) (key : string)
    (val : value) :
  m !! key = Some val → QWhere key "==" val ∈ equalityFilters ord m.
Proof.
  intros Hm. unfold equalityFilters.
  apply (list_elem_of_fmap_2 (λ kv, QWhere kv.1 "==" kv.2) _ (key, val)).
  rewrite (rangeOver_perm ord). by apply elem_of_map_to_list.
Qed.

Lemma equalityFilters_filters (ord : MapOrder) (m : gmap string value) :
  Forall (λ c, isModifier c = false) (equalityFilters ord m).
Proof. unfold equalityFilters. apply Forall_fmap. by apply Forall_forall. Qed.

(** A sequence that ends in a mapping: the clauses before it are
    compiled as inner clauses, then the mapping is folded through the
    modifier switch. *)
Lemma MakeQuery_snoc_mapping (U : Unicode) (ord : MapOrder)
    (cond : list value) (m : gmap string value) :
  MakeQuery U ord (cond ++ [VMap m]) =
    (q ← compileFrom U ord (S (length cond)) 0 [] cond;
     foldM (applyModifier U) q (rangeOver ord m)).
Proof.
  rewrite MakeQuery_compileFrom, length_app, compileFrom_app. simpl.
  rewrite Nat.add_1_r.
  destruct (compileFrom U ord (S (length cond)) 0 [] cond) as [q| | |]; simpl; try done.
  rewrite compileFrom_cons, compileClause_mapping_final by done.
  unfold compileFrom. simpl. by destruct (foldM _ _ _).
Qed.

(** C4. A mapping that is followed by at least one more clause is
    compiled into one equality filter [key == value] per entry, added to
    the query built so far, and compilation goes on after it: every
    entry of the mapping (one with key "limit" included) is a filter of
    the compiled query, and the calls the mapping contributes hold no
    modifier. *)
Theorem MakeQuery_inner_mapping_filters (U : Unicode) (ord : MapOrder)
    (pre : list value) (m : gmap string value) (next : value) (post : list value) :
  let cond := pre ++ VMap m :: next :: post in
  MakeQuery U ord cond =
    (q ← compileFrom U ord (length cond) 0 [] pre;
     compileFrom U ord (length cond) (S (length pre))
       (q ++ equalityFilters ord m) (next :: post))
  ∧ Forall (λ c, isModifier c = false) (equalityFilters ord m)
  ∧ (∀ q key val, MakeQuery U ord cond = Ret q → m !! key = Some val →
       QWhere key "==" val ∈ q)
  ∧ (∀ q val, MakeQuery U ord cond = Ret q → m !! "limit" = Some val →
       QWhere "limit" "==" val ∈ q).
Proof.
  intros cond.
  assert (Heq : MakeQuery U ord cond =
    (q ← compileFrom U ord (length cond) 0 [] pre;
     compileFrom U ord (length cond) (S (length pre))
       (q ++ equalityFilters ord m) (next :: post))).
  { rewrite MakeQuery_compileFrom. unfold cond at 2. rewrite compileFrom_app.
    destruct (compileFrom U ord (length cond) 0 [] pre) as [q| | |]; simpl; try done.
    rewrite compileFrom_cons, compileClause_mapping_inner; [done|].
    unfold cond. rewrite length_app. simpl. lia. }
  assert (Hin : ∀ q key val, MakeQuery U ord cond = Ret q → m !! key = Some val →
                  QWhere key "==" val ∈ q).
  { intros q key val Hq Hm. rewrite Heq in Hq.
    apply bind_inv in Hq as (q0 & _ & Hq).
    apply compileFrom_extends in Hq as (calls & ->).
    apply elem_of_app. left. apply elem_of_app. right.
    by apply equalityFilters_elem. }
  split_and!; [done|apply equalityFilters_filters|done|].
  intros q val. apply Hin.
Qed.

(** ** Listing, finding, counting, paginating *)

Lemma insert_last_snoc {A} (l : list A) (x y : A) :
  last l = Some x → <[ length l - 1 := y ]> l = removelast l ++ [y].
Proof.
  intros H. rewrite (last_Some_snoc l x H) at 1 2.
  rewrite length_app. simpl.
  replace (length (removelast l) + 1 - 1) with (length (removelast l) + 0) by lia.
  by rewrite insert_app_r.
Qed.

Lemma take_last_snoc {A} (l : list A) (x : A) :
  last l = Some x → take (length l - 1) l = removelast l.
Proof.
  intros H. rewrite (last_Some_snoc l x H) at 1 2.
  rewrite length_app. simpl.
  replace (length (removelast l) + 1 - 1) with (length (removelast l)) by lia.
  by rewrite take_app_length.
Qed.

Lemma int_page_offset : int_mul (int_sub 2 1) 25 = 25%Z.
Proof. reflexivity. Qed.

Section CollectionFacts.

Context {Snap Doc : Type}.
Variable U : Unicode.
Variable ord : MapOrder.
Variable db : Firestore Snap.
Variable mk : Snap → Doc.

(** What an entry of the final mapping adds stays in the query. *)
Lemma applyModifier_fold_elem (l : list (string * value)) (kv : string * value)
    (c : qcall) (q q' : Query) :
  (∀ x, applyModifier U x kv = Ret (x ++ [c])) →
  kv ∈ l → foldM (applyModifier U) q l = Ret q' → c ∈ q'.
Proof.
  intros Hkv Hin Hrun.
  apply list_elem_of_split in Hin as (l1 & l2 & ->).
  rewrite foldM_app in Hrun. apply bind_inv in Hrun as (q1 & _ & Hrun).
  simpl in Hrun. rewrite Hkv in Hrun. simpl in Hrun.
  apply (foldM_extends (λ _, True)) in Hrun as (ys & -> & _).
  - apply elem_of_app. left. apply elem_of_app. right. by left.
  - intros x b y Hy. apply applyModifier_extends in Hy as (ys & -> & _).
    exists ys. split; [done|]. by apply Forall_forall.
Qed.

(** The query of a sequence that ends in a mapping holds the limit
    and the offset that the mapping gives under those very keys. *)
Lemma MakeQuery_final_limit_offset (cond : list value) (m : gmap string value)
    (q : Query) :
  MakeQuery U ord (cond ++ [VMap m]) = Ret q →
  (∀ n, m !! "limit" = Some (VInt n) → QLimit n ∈ q)
  ∧ (∀ n, m !! "offset" = Some (VInt n) → QOffset n ∈ q).
Proof.
  intros Hq.
  rewrite MakeQuery_snoc_mapping in Hq. apply bind_inv in Hq as (q0 & _ & Hq).
  split; intros n Hn.
  - apply (applyModifier_fold_elem _ ("limit", VInt n) _ _ _ (λ x, eq_refl) ) in Hq; [done|].
    rewrite (rangeOver_perm ord). by apply elem_of_map_to_list.
  - apply (applyModifier_fold_elem _ ("offset", VInt n) _ _ _ (λ x, eq_refl) ) in Hq; [done|].
    rewrite (rangeOver_perm ord). by apply elem_of_map_to_list.
Qed.

Lemma withPage_snoc (cond : list value) (page perPage : Z) :
  ∃ pre m, withPage cond page perPage = pre ++ [VMap m]
           ∧ m !! "limit" = Some (VInt perPage)
           ∧ m !! "offset" = Some (VInt (int_mul (int_sub page 1) perPage)).
Proof.
  unfold withPage.
  assert (Hopts : ∀ m, lo_Assign m (pageOptions page perPage) !! "limit"
                       = Some (VInt perPage)
                     ∧ lo_Assign m (pageOptions page perPage) !! "offset"
                       = Some (VInt (int_mul (int_sub page 1) perPage))).
  { intros m. unfold lo_Assign, pageOptions.
    split; apply lookup_union_Some_l; by simplify_map_eq. }
  assert (Hplain : pageOptions page perPage !! "limit" = Some (VInt perPage)
                   ∧ pageOptions page perPage !! "offset"
                     = Some (VInt (int_mul (int_sub page 1) perPage))).
  { unfold pageOptions. split; by simplify_map_eq. }
  destruct (last cond) as [[]|]; eexists _, _; (split; [done|]);
    first [apply Hplain | apply Hopts].
Qed.

(** The condition sequence [Paginate] lists, and the one it leaves to
    its caller, when the final clause is a tuple or a mapping. *)
Lemma Paginate_unfold (cond : list value) (c : value) (page perPage : Z) :
  last cond = Some c →
  TypeOf_Kind c = Some KSlice ∨ (∃ m, c = VMap m) →
  let page' := if (page =? 0)%Z then 1%Z else page in
  let perPage' := if (perPage =? 0)%Z then DefaultPaginatePerPage else perPage in
  let seen := match c with VMap _ => withPage cond page' perPage' | _ => cond end in
  Paginate U ord db mk cond page perPage =
    ('(docs, err) ← ListDocs U ord db mk (withPage cond page' perPage');
     match err with
     | Some e => Ret (seen, (None, Some e))
     | None =>
         Ret (seen, (Some {[ "docs" := RDocs docs; "page" := RInt page';
                             "perPage" := RInt perPage' ]}, None))
     end).
Proof.
  intros Hlast Hkind page' perPage' seen.
  unfold Paginate, withPage in *. rewrite Hlast in *. simpl.
  destruct Hkind as [Hk|[m ->]].
  - rewrite Hk. simpl. subst seen. destruct c; try done.
  - simpl. subst seen. unfold withPage.
    by rewrite (insert_last_snoc _ _ _ Hlast), Hlast.
Qed.

End CollectionFacts.

Lemma wrap_small (z : Z) : (- 2 ^ 63 ≤ z < 2 ^ 63)%Z → wrap z = z.
Proof.
  intros Hz. unfold wrap.
  rewrite Z.mod_small by lia. lia.
Qed.

(** For a count that is not negative and a positive page size,
    [totalPage] is the quotient rounded up. *)
Lemma totalPage_ceiling (count perPage : Z) :
  (0 ≤ count < 2 ^ 63)%Z → (0 < perPage)%Z →
  totalPage count perPage = ((count + perPage - 1) `div` perPage)%Z.
Proof.
  intros Hc Hp. unfold totalPage, int_rem, int_quo, int_add.
  rewrite Z.rem_mod_nonneg, Z.quot_div_nonneg by lia.
  assert (Hdiv : (0 ≤ count `div` perPage ≤ count)%Z).
  { split; [apply Z.div_pos; lia|]. apply Z.div_le_upper_bound; nia. }
  rewrite (wrap_small (count `div` perPage)) by lia.
  pose proof (Z.div_mod count perPage ltac:(lia)) as Hdm.
  pose proof (Z.mod_pos_bound count perPage Hp) as Hmod.
  destruct (Z.eqb_spec (count `mod` perPage) 0) as [H0|Hn0].
  - apply Z.div_unique with (perPage - 1)%Z; lia.
  - assert (count `div` perPage < 2 ^ 63 - 1 ∨ perPage = 1)%Z as [Hlt| ->].
    { destruct (decide (perPage = 1%Z)) as [|Hne]; [by right|left].
      apply Z.div_lt_upper_bound; [lia|]. nia. }
    + rewrite wrap_small by lia.
      apply Z.div_unique with (count `mod` perPage - 1)%Z; lia.
    + rewrite Z.mod_1_r in Hn0. done.
Qed.

Section Claims.

Context {Snap Doc : Type}.
Variable U : Unicode.
Variable ord : MapOrder.
Variable db : Firestore Snap.
Variable mk : Snap → Doc.

(** The sequence [Paginate] leaves to its caller has the count of the
    sequence it was given. *)
Lemma Paginate_keeps_count (full : list value) (page perPage : Z)
    (seen : list value) (r : option (gmap string (rvalue Doc)) * error) :
  Paginate U ord db mk full page perPage = Ret (seen, r) →
  CountDocs U ord db seen = CountDocs U ord db full.
Proof.
  unfold Paginate.
  destruct (last full) as [c|] eqn:Hlast; simpl; [|done].
  destruct (TypeOf_Kind c) as [k|] eqn:Hk; simpl; [|done].
  assert (Hsame : ∀ x : outcome (list value * (option (gmap string (rvalue Doc)) * error)),
            x = Ret (seen, r) → ∀ f, (x = ('(docs, err) ← ListDocs U ord db mk f;
                 match err with
                 | Some e => Ret (full, (None, Some e))
                 | None => Ret (full, (Some {[ "docs" := RDocs docs;
                      "page" := RInt (if (page =? 0)%Z then 1%Z else page);
                      "perPage" := RInt (if (perPage =? 0)%Z
                                         then DefaultPaginatePerPage else perPage) ]},
                                       None))
                 end)) → seen = full).
  { intros x -> f Hx. symmetry in Hx.
    apply bind_inv in Hx as ([docs [e|]] & _ & Hx); by inversion Hx. }
  destruct k; simpl; intros Hrun;
    try (by rewrite (Hsame _ Hrun _ eq_refl)).
  destruct c; simpl in Hrun; try done. simpl in Hk.
  apply bind_inv in Hrun as ([docs [e|]] & _ & Hrun); inversion Hrun; subst;
    unfold CountDocs, lo_Last;
    rewrite (insert_last_snoc _ _ _ Hlast), last_snoc, Hlast; simpl;
    rewrite length_app; simpl;
    replace (length (removelast full) + 1 - 1) with (length (removelast full)) by lia;
    by rewrite take_app_length, (take_last_snoc _ _ Hlast).
Qed.

(** What [PaginateWithCount] returns, in terms of the listing of the
    page and of the count of the caller's sequence, when the final
    clause is a tuple or a mapping. *)
Lemma PaginateWithCount_unfold (cond : list value) (c : value) (page perPage : Z) :
  last cond = Some c →
  TypeOf_Kind c = Some KSlice ∨ (∃ m, c = VMap m) →
  let page' := if (page =? 0)%Z then 1%Z else page in
  let perPage' := if (perPage =? 0)%Z then DefaultPaginatePerPage else perPage in
  PaginateWithCount U ord db mk cond page perPage =
    ('(docs, err) ← ListDocs U ord db mk (withPage cond page' perPage');
     match err with
     | Some e => Ret (None, Some e)
     | None =>
         '(count, err) ← CountDocs U ord db cond;
         match err with
         | Some e => Ret (None, Some e)
         | None =>
             Ret (Some {[ "count" := RInt count;
                          "totalPage" := RInt (totalPage count perPage');
                          "docs" := RDocs docs;
                          "page" := RInt page';
                          "perPage" := RInt perPage' ]}, None)
         end
     end).
Proof.
  intros Hlast Hkind page' perPage'. unfold PaginateWithCount.
  fold page' perPage'.
  assert (Hp : (if (page' =? 0)%Z then 1%Z else page') = page').
  { subst page'. destruct (Z.eqb_spec page 0) as [->|Hp]; [reflexivity|].
    destruct (Z.eqb_spec page 0); [contradiction|reflexivity]. }
  assert (Hn : (if (perPage' =? 0)%Z then DefaultPaginatePerPage else perPage')
               = perPage').
  { subst perPage'. destruct (Z.eqb_spec perPage 0) as [->|Hn]; [reflexivity|].
    destruct (Z.eqb_spec perPage 0); [contradiction|reflexivity]. }
  pose proof (Paginate_unfold U ord db mk cond c page' perPage' Hlast Hkind) as Hpage.
  cbv zeta in Hpage. rewrite Hp, Hn in Hpage.
  destruct (ListDocs U ord db mk (withPage cond page' perPage'))
    as [[docs [e|]]| | |] eqn:Hlist;
    rewrite Hpage; rewrite ?bind_Ret; cbv beta iota; try reflexivity.
  rewrite (Paginate_keeps_count cond page' perPage' _ _ Hpage).
  destruct (CountDocs U ord db cond) as [[count [e|]]| | |];
    rewrite ?bind_Ret; cbv beta iota; reflexivity.
Qed.

(** C6.  Called with page 2 and a page size of 25 on a condition
    sequence whose final clause is a tuple or a mapping, [Paginate]
    lists the sequence with the options limit = 25 and offset = 25
    put on it (appended, or merged into the final mapping), so the
    compiled query carries [Limit(25)] and [Offset(25)]; and
    [PaginateWithCount] lists that page, counts the documents of the
    caller's sequence and returns the page together with the count
    and with [totalPage], the count divided by 25 and rounded up:
    when the count is 60, the result holds 60 under [count] and 3
    under [totalPage]. *)
Theorem Paginate_page_two (cond : list value) (c : value) :
  last cond = Some c →
  TypeOf_Kind c = Some KSlice ∨ (∃ m, c = VMap m) →
  let paged := withPage cond 2 25 in
  let seen := match c with VMap _ => paged | _ => cond end in
  (∃ pre m, paged = pre ++ [VMap m]
            ∧ m !! "limit" = Some (VInt 25) ∧ m !! "offset" = Some (VInt 25))
  ∧ Paginate U ord db mk cond 2 25 =
      ('(docs, err) ← ListDocs U ord db mk paged;
       match err with
       | Some e => Ret (seen, (None, Some e))
       | None =>
           Ret (seen, (Some {[ "docs" := RDocs docs; "page" := RInt 2;
                               "perPage" := RInt 25 ]}, None))
       end)
  ∧ (∀ q, MakeQuery U ord paged = Ret q → QLimit 25 ∈ q ∧ QOffset 25 ∈ q)
  ∧ (∀ r, PaginateWithCount U ord db mk cond 2 25 = Ret (Some r, None) →
       ∃ count, r !! "count" = Some (RInt count)
                ∧ r !! "totalPage" = Some (RInt (totalPage count 25)))
  ∧ (∀ count, (0 ≤ count < 2 ^ 63)%Z →
       totalPage count 25 = ((count + 24) `div` 25)%Z)
  ∧ totalPage 60 25 = 3%Z
  ∧ PaginateWithCount U ord db mk cond 2 25 =
      ('(docs, err) ← ListDocs U ord db mk paged;
       match err with
       | Some e => Ret (None, Some e)
       | None =>
           '(count, err) ← CountDocs U ord db cond;
           match err with
           | Some e => Ret (None, Some e)
           | None =>
               Ret (Some {[ "count" := RInt count;
                            "totalPage" := RInt (totalPage count 25);
                            "docs" := RDocs docs;
                            "page" := RInt 2;
                            "perPage" := RInt 25 ]}, None)
           end
       end)
  ∧ (∀ q snaps, MakeQuery U ord paged = Ret q →
       Documents_GetAll db q = (snaps, None) →
       CountDocs U ord db cond = Ret (60%Z, None) →
       PaginateWithCount U ord db mk cond 2 25 =
         Ret (Some {[ "count" := RInt 60;
                      "totalPage" := RInt 3;
                      "docs" := RDocs (mk <$> snaps);
                      "page" := RInt 2;
                      "perPage" := RInt 25 ]}, None)).
Proof.
  intros Hlast Hkind paged seen.
  destruct (withPage_snoc cond 2 25) as (pre & m & Hpaged & Hlim & Hoff).
  rewrite int_page_offset in Hoff.
  pose proof (PaginateWithCount_unfold cond c 2 25 Hlast Hkind) as Hcounted.
  cbv zeta in Hcounted.
  change (if (2 =? 0)%Z then 1%Z else 2%Z) with 2%Z in Hcounted.
  change (if (25 =? 0)%Z then DefaultPaginatePerPage else 25%Z) with 25%Z in Hcounted.
  fold paged in Hcounted.
  split_and!.
  - by exists pre, m.
  - exact (Paginate_unfold U ord db mk cond c 2 25 Hlast Hkind).
  - intros q Hq. subst paged. rewrite Hpaged in Hq.
    destruct (MakeQuery_final_limit_offset U ord pre m q Hq) as [H1 H2]. auto.
  - intros r Hr. unfold PaginateWithCount in Hr. simpl in Hr.
    apply bind_inv in Hr as ([seen' [val [e|]]] & _ & Hr); [done|].
    apply bind_inv in Hr as ([count [e|]] & _ & Hr); [done|].
    inversion Hr; subst. exists count. unfold lo_Assign.
    split; apply lookup_union_Some_l; by simplify_map_eq.
  - intros count Hc. rewrite totalPage_ceiling by lia. f_equal. lia.
  - reflexivity.
  - exact Hcounted.
  - intros q snaps Hq Hget Hcount. rewrite Hcounted. unfold ListDocs.
    rewrite Hq, bind_Ret, Hget. cbv beta iota.
    rewrite docSnapsDataToMap_map, bind_Ret. cbv beta iota.
    rewrite Hcount, bind_Ret. reflexivity.
Qed.



(** C8, as amended.  When the client fails to fetch the document,
    [GetDoc] answers an error with status NotFound by a new error
    whose text is "doc not found: " followed by the requested id, and
    hands any other error on as it is; no document comes with
    either. *)
Theorem GetDoc_errors (id : string) (e : err) :
  Doc_Get db id = inr e →
  (status_Code e = CodeNotFound →
     GetDoc db mk id = Ret (None, Some (ErrNew ("doc not found: " +:+ id))))
  ∧ (status_Code e ≠ CodeNotFound → GetDoc db mk id = Ret (None, Some e)).
Proof.
  intros Hget. unfold GetDoc. rewrite Hget. split; intros Hcode.
  - by rewrite Hcode.
  - by destruct (status_Code e).
Qed.

(** On the empty sequence [FindDoc] and [CountDocs] return the error of
    [lo.Last]; no query is made. *)
Lemma FindDoc_CountDocs_empty (ms : maps) :
  FindDoc U ord db mk ms [] =
    Ret (ms, [], (None, Some (ErrNew
      "last: cannot extract the last element of an empty slice")))
  ∧ CountDocs U ord db [] =
      Ret (0%Z, Some (ErrNew
        "last: cannot extract the last element of an empty slice")).
Proof. done. Qed.

(** On a sequence whose final clause is the nil map, [FindDoc] panics
    on the write of the limit; no query is made. *)
Lemma FindDoc_nil_mapping (ms : maps) (cond : list clause) :
  last cond = Some (MapAt None) →
  FindDoc U ord db mk ms cond = Panic (Explicit "assignment to entry in nil map").
Proof. intros Hlast. unfold FindDoc, lo_Last. by rewrite Hlast. Qed.





(** C10.  [Paginate] reads the final clause before anything else:
    on the empty sequence it panics with the out-of-range read of
    index -1, whatever the page, and that panic has no other cause;
    [MakeQuery] takes the empty sequence and returns the base query
    with no call on it, which [ListDocs] sends as it is. *)
Theorem Paginate_empty_condition (page perPage : Z) :
  Paginate U ord db mk [] page perPage = Panic (IndexOutOfRange (-1) 0)
  ∧ (∀ cond, Paginate U ord db mk cond page perPage = Panic (IndexOutOfRange (-1) 0) →
       cond = [])
  ∧ MakeQuery U ord [] = Ret []
  ∧ ListDocs U ord db mk [] =
      Ret (match Documents_GetAll db [] with
           | (_, Some e) => ([], Some e)
           | (docs, None) => (mk <$> docs, None)
           end).
Proof.
  split_and!; try done.
  - intros cond. unfold Paginate.
    destruct (last cond) as [c|] eqn:Hlast; simpl.
    + destruct (TypeOf_Kind c) as [k|]; simpl; [|done].
      assert (Hlist : ∀ (f : list value)
                (g : list Doc * error → outcome (list value * (option (gmap string (rvalue Doc)) * error))),
                (∀ x, g x ≠ Panic (IndexOutOfRange (-1) 0)) →
                (x ← ListDocs U ord db mk f; g x) ≠ Panic (IndexOutOfRange (-1) 0)).
      { intros f g Hg. unfold ListDocs.
        destruct (MakeQuery U ord f) as [q|p| |] eqn:Hq; simpl; try done.
        - destruct (Documents_GetAll db q) as [docs [e|]]; simpl; apply Hg.
        - intros [= ->]. apply MakeQuery_no_negative_index in Hq. lia. }
      assert (Hg : ∀ (s : list value) (pg pp : Z) (x : list Doc * error),
                (let '(docs, err) := x in
                 match err with
                 | Some e => Ret (s, (None, Some e))
                 | None => Ret (s, (Some ({[ "docs" := RDocs docs; "page" := RInt pg;
                                            "perPage" := RInt pp ]} : gmap string (rvalue Doc)), None))
                 end) ≠ Panic (IndexOutOfRange (-1) 0)).
      { intros s pg pp [docs [e|]]; done. }
      destruct k; simpl; intros Hrun; try (by eapply Hlist in Hrun; [|apply Hg]).
      destruct c; simpl in Hrun; try done.
      by eapply Hlist in Hrun; [|apply Hg].
    + intros _. by apply last_None.
  - unfold ListDocs. simpl. destruct (Documents_GetAll db []) as [docs [e|]]; [done|].
    by rewrite docSnapsDataToMap_map.
Qed.

End Claims.

(** ** The deep copy shares nothing with its source *)

Lemma cellFresh_mono (n m : nat) (c : cell) : n ≤ m → cellFresh m c → cellFresh n c.
Proof. destruct c; simpl; lia. Qed.

Lemma objectFresh_mono (n m : nat) (o : object) :
  n ≤ m → objectFresh m o → objectFresh n o.
Proof.
  intros Hnm. destruct o as [m0|cells|fields]; simpl.
  - intros H. eapply map_Forall_impl; [exact H|]. intros k c. by apply cellFresh_mono.
  - intros H. eapply Forall_impl; [exact H|]. intros c. by apply cellFresh_mono.
  - done.
Qed.

Lemma grown_refl (exc : option loc) (n : nat) (st : store) : grown exc n st st.
Proof.
  split; [done|done|]. intros l o Hl _ Hlook.
  apply lookup_lt_Some in Hlook. lia.
Qed.

Lemma grown_weaken (exc : option loc) (n : nat) (st st' : store) :
  grown None n st st' → grown exc n st st'.
Proof. intros [H1 H2 H3]. split; [done|done|]. intros l o Hl _. by apply H3. Qed.

Lemma grown_seal (dst : loc) (n : nat) (st st' : store) :
  grown (Some dst) n st st' →
  (∀ o, st' !! dst = Some o → objectFresh n o) →
  grown None n st st'.
Proof.
  intros [H1 H2 H3] Hdst. split; [done|done|]. intros l o Hl _ Hlook.
  destruct (decide (l = dst)) as [->|Hne]; [by apply Hdst|].
  apply (H3 l o Hl); [congruence|done].
Qed.

Lemma grown_compose (exc : option loc) (n : nat) (st s s' : store) :
  n ≤ length s → grown exc n st s → grown None (length s) s s' → grown exc n st s'.
Proof.
  intros Hn [H1 H2 H3] [G1 G2 G3]. split.
  - lia.
  - intros l Hl. rewrite G2 by lia. by apply H2.
  - intros l o Hl Hexc Hlook. destruct (decide (l < length s)) as [Hlt|Hge].
    + rewrite G2 in Hlook by done. by apply (H3 l).
    + apply (objectFresh_mono n (length s)); [done|].
      apply (G3 l); [lia|done|done].
Qed.

Lemma grown_alloc (exc : option loc) (n : nat) (st s : store) (o : object) :
  grown exc n st s → (exc ≠ Some (length s) → objectFresh n o) →
  grown exc n st (s ++ [o]).
Proof.
  intros [H1 H2 H3] Ho. split.
  - rewrite length_app. lia.
  - intros l Hl. rewrite lookup_app_l by lia. by apply H2.
  - intros l o' Hl Hexc Hlook. destruct (decide (l < length s)) as [Hlt|Hge].
    + rewrite lookup_app_l in Hlook by done. by apply (H3 l).
    + rewrite lookup_app_r in Hlook by lia.
      destruct (l - length s) as [|k] eqn:Hk; simpl in Hlook; [|done].
      inversion Hlook; subst. apply Ho. replace (length s) with l by lia. done.
Qed.

Lemma grown_update (exc : option loc) (n : nat) (st s : store) (l : loc) (o : object) :
  grown exc n st s → length st ≤ l → (exc ≠ Some l → objectFresh n o) →
  grown exc n st (<[ l := o ]> s).
Proof.
  intros [H1 H2 H3] Hl Ho. split.
  - by rewrite length_insert.
  - intros l' Hl'. rewrite list_lookup_insert_ne by lia. by apply H2.
  - intros l' o' Hl' Hexc Hlook. destruct (decide (l = l')) as [->|Hne].
    + apply list_lookup_insert_Some in Hlook as [(_ & <- & _)|(? & _)]; [|done].
      by apply Ho.
    + rewrite list_lookup_insert_ne in Hlook by done. by apply (H3 l').
Qed.

(** What a grown store holds at a new address, when read as a map or as
    an array. *)
Lemma grown_readMap (n : nat) (st s : store) (l : loc) (m : gmap string cell) :
  grown None n st s → length st ≤ l → readMap s l = Ret m →
  map_Forall (λ _ c, cellFresh n c) m.
Proof.
  intros [_ _ H3] Hl. unfold readMap.
  destruct (s !! l) as [[m'| |]|] eqn:Hlook; try done. intros [= <-].
  by apply (H3 l (OMap m')).
Qed.

Lemma grown_readArray (n : nat) (st s : store) (a : loc) (cells : list cell) :
  grown None n st s → length st ≤ a → readArray s a = Ret cells →
  Forall (cellFresh n) cells.
Proof.
  intros [_ _ H3] Hl. unfold readArray.
  destruct (s !! a) as [[|cells'|]|] eqn:Hlook; try done. intros [= <-].
  by apply (H3 a (OArray cells')).
Qed.

Lemma zeroOf_fresh (n : nat) (e : elemty) : cellFresh n (zeroOf e).
Proof. by destruct e. Qed.

Section DeepCopy.

Variable ord : MapOrder.

Lemma deepCopyMap_unfold (fuel : nat) (src : cell) (st : store) :
  deepCopyMap ord (S fuel) src st =
    match src with
    | CMap l =>
        entries ← readMap st l;
        let '(dstMap, st) := alloc st (OMap ∅) in
        st ← foldM
               (λ st key,
                  v ← mapIndex st (Some l) key;
                  '(c, st) ← deepCopyMap ord fuel v st;
                  match c with
                  | CNil => mapDelete st dstMap key
                  | _ => mapAssign st dstMap key c
                  end)
               st (rangeOver ord entries).*1;
        Ret (CMap dstMap, st)
    | CSlice e a off len cap =>
        cells ← readArray st a;
        let '(dstSlice, st) :=
          alloc st (OArray (take len (drop off cells)
                              ++ replicate (cap - len) (zeroOf e))) in
        st ← foldM
               (λ st i,
                  v ← sliceIndex st a off len i;
                  '(c, st) ← deepCopyMap ord fuel v st;
                  match c with
                  | CNil => Panic SetZeroValue
                  | _ => sliceAssign st dstSlice 0 len i c
                  end)
               st (seq 0 len);
        Ret (CSlice e dstSlice 0 len cap, st)
    | _ => Ret (src, st)
    end.
Proof. reflexivity. Qed.

(** The loop over the keys of a map, given the guarantee for the
    nested calls. *)
Lemma copyMap_loop (fuel : nat) (src dst : loc) (st : store) :
  (∀ v s r, deepCopyMap ord fuel v s = Ret r → copyPost v s r) →
  length st ≤ dst →
  ∀ keys s s',
    dst < length s → grown None (length st) st s →
    foldM (λ st key,
             v ← mapIndex st (Some src) key;
             '(c, st) ← deepCopyMap ord fuel v st;
             match c with
             | CNil => mapDelete st dst key
             | _ => mapAssign st dst key c
             end) s keys = Ret s' →
    grown None (length st) st s'.
Proof.
  intros IH Hdst keys s s' Hlt Hgrown Hrun.
  apply (foldM_inv (λ x, dst < length x ∧ grown None (length st) st x)) in Hrun;
    [by destruct Hrun|clear Hrun|done].
  intros x key y _ [Hx Gx] Hstep.
  apply bind_inv in Hstep as (v & _ & Hstep).
  apply bind_inv in Hstep as ([c x2] & Hcopy & Hstep).
  apply IH in Hcopy as [G2 Hc]. simpl in G2, Hc.
  assert (Gx2 : grown None (length st) st x2).
  { eapply grown_compose; [|exact Gx|exact G2]. apply Gx. }
  assert (Hc' : cellFresh (length st) c).
  { eapply cellFresh_mono; [|exact Hc]. apply Gx. }
  assert (Hlen : dst < length x2) by (pose proof (grown_length _ _ _ _ G2); lia).
  assert (Hupd : ∀ f : gmap string cell → gmap string cell,
            (∀ m, map_Forall (λ _ c, cellFresh (length st) c) m →
                  map_Forall (λ _ c, cellFresh (length st) c) (f m)) →
            (entries ← readMap x2 dst; Ret (<[ dst := OMap (f entries) ]> x2)) = Ret y →
            dst < length y ∧ grown None (length st) st y).
  { intros f Hf Hy. apply bind_inv in Hy as (entries & Hread & Hy).
    inversion Hy; subst. rewrite length_insert. split; [done|].
    apply grown_update; [done|done|]. intros _. simpl. apply Hf.
    by eapply grown_readMap. }
  destruct c; unfold mapDelete, mapAssign in Hstep;
    (apply (Hupd _) in Hstep; [done|]); intros m Hm;
    first [by apply map_Forall_delete | by apply map_Forall_insert_2].
Qed.

(** The loop over the indices of a slice.  The new array starts as a
    flat copy; whatever cell the loop has not yet written is the one
    it started with. *)
Lemma copySlice_loop (fuel : nat) (a off len dst : nat) (st : store) :
  (∀ v s r, deepCopyMap ord fuel v s = Ret r → copyPost v s r) →
  length st ≤ dst →
  ∀ idxs s s' cells,
    dst < length s → grown (Some dst) (length st) st s →
    s !! dst = Some (OArray cells) →
    foldM (λ st i,
             v ← sliceIndex st a off len i;
             '(c, st) ← deepCopyMap ord fuel v st;
             match c with
             | CNil => Panic SetZeroValue
             | _ => sliceAssign st dst 0 len i c
             end) s idxs = Ret s' →
    grown (Some dst) (length st) st s'
    ∧ (∃ cells', s' !! dst = Some (OArray cells')
         ∧ (∀ j c, cells' !! j = Some c →
              cellFresh (length st) c ∨ ((j ∉ idxs) ∧ cells !! j = Some c))).
Proof.
  intros IH Hdst idxs.
  induction idxs as [|i idxs IHl]; intros s s' cells Hlt Hgrown Hcells Hrun.
  { simpl in Hrun. inversion Hrun; subst. split; [done|].
    exists cells. split; [done|]. intros j c Hj. right. split; [|done].
    apply not_elem_of_nil. }
  simpl in Hrun. apply bind_inv in Hrun as (s1 & Hstep & Hrun).
  apply bind_inv in Hstep as (v & _ & Hstep).
  apply bind_inv in Hstep as ([c s2] & Hcopy & Hstep).
  apply IH in Hcopy as [G2 Hc]. simpl in G2, Hc.
  assert (Gs2 : grown (Some dst) (length st) st s2).
  { eapply grown_compose; [|exact Hgrown|exact G2]. apply Hgrown. }
  assert (Hc' : cellFresh (length st) c).
  { eapply cellFresh_mono; [|exact Hc]. apply Hgrown. }
  assert (Hcells2 : s2 !! dst = Some (OArray cells)).
  { by rewrite (grown_frame _ _ _ _ G2). }
  assert (Hs1 : s1 = <[ dst := OArray (<[ i := c ]> cells) ]> s2).
  { destruct c; try done; unfold sliceAssign, readArray in Hstep;
      rewrite Hcells2 in Hstep; simpl in Hstep;
      destruct (Nat.ltb i len); by inversion Hstep. }
  subst s1.
  apply (IHl _ _ (<[ i := c ]> cells)) in Hrun as (Gs' & cells' & Hcells' & Hall).
  - split; [done|]. exists cells'. split; [done|].
    intros j c' Hj. destruct (Hall j c' Hj) as [Hfresh|[Hnotin Hold]]; [by left|].
    destruct (decide (i = j)) as [->|Hne].
    + left. apply list_lookup_insert_Some in Hold as [(_ & <- & _)|(? & _)]; done.
    + right. rewrite list_lookup_insert_ne in Hold by done. split; [|done].
      apply not_elem_of_cons. by split.
  - rewrite length_insert. pose proof (grown_length _ _ _ _ G2). lia.
  - apply grown_update; [done|done|]. by intros [].
  - apply list_lookup_insert_eq. pose proof (grown_length _ _ _ _ G2). lia.
Qed.

(** [deepCopyMap] leaves every object of the store as it was, and
    what it returns refers only to objects it has allocated, which in
    turn refer only to one another. *)
Lemma deepCopyMap_post (fuel : nat) (src : cell) (st : store) (r : cell * store) :
  deepCopyMap ord fuel src st = Ret r → copyPost src st r.
Proof.
  revert src st r. induction fuel as [|fuel IH]; intros src st r; [done|].
  rewrite deepCopyMap_unfold.
  destruct src as [|s|l|e a off len cap|ty p];
    try (intros [= <-]; split; [apply grown_refl|done]).
  - intros Hrun. apply bind_inv in Hrun as (entries & _ & Hrun).
    unfold alloc in Hrun. apply bind_inv in Hrun as (s' & Hloop & Hrun).
    inversion Hrun; subst. split; [|simpl; lia]. simpl.
    eapply (copyMap_loop fuel l (length st) st IH); [done| |
      |exact Hloop].
    + rewrite length_app. simpl. lia.
    + apply grown_alloc; [apply grown_refl|]. intros _. apply map_Forall_empty.
  - intros Hrun. apply bind_inv in Hrun as (cells & _ & Hrun).
    unfold alloc in Hrun. apply bind_inv in Hrun as (s' & Hloop & Hrun).
    inversion Hrun; subst. split; [|simpl; lia]. simpl.
    eapply (copySlice_loop fuel a off len (length st) st IH) in Hloop
      as (G & cells' & Hcells' & Hall); [|done| | |].
    + apply (grown_seal (length st)); [done|]. intros o Ho. rewrite Hcells' in Ho.
      inversion Ho; subst. simpl. apply Forall_lookup. intros j c Hj.
      destruct (Hall j c Hj) as [Hfresh|[Hnotin Hold]]; [done|].
      assert (Hge : len ≤ j).
      { destruct (decide (j < len)) as [Hlt|]; [|lia].
        exfalso. apply Hnotin. apply elem_of_seq. lia. }
      apply lookup_app_Some in Hold as [Hold|[_ Hold]].
      * apply lookup_lt_Some in Hold.
        rewrite (length_take (drop off cells) len) in Hold. lia.
      * apply lookup_replicate in Hold as [-> _]. apply zeroOf_fresh.
    + rewrite length_app. simpl. lia.
    + apply grown_alloc; [apply grown_refl|]. by intros [].
    + by apply list_lookup_middle.
Qed.

End DeepCopy.

(** ** The deep copy returns *)

Lemma deepCopyMap_typeOf (ord : MapOrder) (fuel : nat) (src c : cell) (st st' : store) :
  deepCopyMap ord fuel src st = Ret (c, st') → typeOf c = typeOf src.
Proof.
  destruct fuel as [|fuel]; [done|]. rewrite deepCopyMap_unfold.
  destruct src as [|s|l|e a off len cap|ty p]; intros Hrun; try (by inversion Hrun).
  - apply bind_inv in Hrun as (entries & _ & Hrun). unfold alloc in Hrun.
    apply bind_inv in Hrun as (s' & _ & Hrun). by inversion Hrun.
  - apply bind_inv in Hrun as (cells & _ & Hrun). unfold alloc in Hrun.
    apply bind_inv in Hrun as (s' & _ & Hrun). by inversion Hrun.
Qed.

Lemma cellWithin_mono (rank : loc → nat) (st : store) (b b' : nat) (c : cell) :
  b ≤ b' → cellWithin rank st b c → cellWithin rank st b' c.
Proof.
  intros Hb. destruct c as [| |l|e a off len cap|ty p]; simpl; try done.
  - intros [Hr Hm]. split; [lia|done].
  - intros [Hr Hc]. split; [lia|done].
Qed.

Lemma extends_grown (st s s' : store) :
  extends st s → grown None (length s) s s' → extends st s'.
Proof.
  intros [H1 H2] [G1 G2 _]. split; [lia|].
  intros l Hl. rewrite G2 by lia. by apply H2.
Qed.

Lemma extends_update (st s : store) (l : loc) (o : object) :
  extends st s → length st ≤ l → extends st (<[ l := o ]> s).
Proof.
  intros [H1 H2] Hl. split; [by rewrite length_insert|].
  intros l' Hl'. rewrite list_lookup_insert_ne by lia. by apply H2.
Qed.

Section Returns.

#[local] Opaque deepCopyMap.

Variable ord : MapOrder.
Variable rank : loc → nat.
Variable st : store.
Hypothesis Hranked : ranked rank st.

(** The loop over the keys of a map returns, when the nested calls do. *)
Lemma copyMap_loop_returns (fuel : nat) (l dst : loc) (entries : gmap string cell) :
  (∀ v s, extends st s → cellWithin rank st fuel v →
          ∃ r, deepCopyMap ord (S fuel) v s = Ret r) →
  st !! l = Some (OMap entries) → rank l ≤ fuel → length st ≤ dst →
  ∀ keys s,
    extends st s → (∃ m, s !! dst = Some (OMap m)) →
    ∃ s', foldM (λ st key,
                   v ← mapIndex st (Some l) key;
                   '(c, st) ← deepCopyMap ord (S fuel) v st;
                   match c with
                   | CNil => mapDelete st dst key
                   | _ => mapAssign st dst key c
                   end) s keys = Ret s'.
Proof.
  intros IH Hl Hrank Hdst keys.
  induction keys as [|key keys IHk]; intros s Hs [m Hm]; [by eexists|].
  simpl. unfold readMap.
  assert (Hlt : l < length st) by (by apply lookup_lt_Some in Hl).
  rewrite (proj2 Hs l Hlt), Hl. simpl.
  assert (Hv : cellWithin rank st fuel (default CNil (entries !! key))).
  { destruct (entries !! key) as [v|] eqn:Hk; simpl; [|done].
    apply (cellWithin_mono rank st (rank l)); [done|].
    exact (map_Forall_lookup_1 _ _ _ _ (Hranked l _ Hl) Hk). }
  destruct (IH _ s Hs Hv) as ([c s2] & Hcopy). rewrite Hcopy. simpl.
  pose proof (deepCopyMap_post ord _ _ _ _ Hcopy) as [G _]. simpl in G.
  assert (Hs2 : extends st s2) by (by apply (extends_grown st s s2)).
  assert (Hm2 : s2 !! dst = Some (OMap m)).
  { rewrite (grown_frame _ _ _ _ G); [done|]. by apply lookup_lt_Some in Hm. }
  assert (Hlen2 : dst < length s2) by (by apply lookup_lt_Some in Hm2).
  assert (Hnext : ∀ m', ∃ s', foldM (λ st key,
                   v ← mapIndex st (Some l) key;
                   '(c, st) ← deepCopyMap ord (S fuel) v st;
                   match c with
                   | CNil => mapDelete st dst key
                   | _ => mapAssign st dst key c
                   end) (<[ dst := OMap m' ]> s2) keys = Ret s').
  { intros m'. apply IHk; [by apply extends_update|].
    exists m'. by apply list_lookup_insert_eq. }
  destruct c; unfold mapDelete, mapAssign, readMap; rewrite Hm2; simpl; apply Hnext.
Qed.

(** The loop over the indices of a slice returns, when the nested
    calls do. *)
Lemma copySlice_loop_returns (fuel : nat) (a off len dst : nat) (cells : list cell) :
  (∀ v s, extends st s → cellWithin rank st fuel v →
          ∃ r, deepCopyMap ord (S fuel) v s = Ret r) →
  st !! a = Some (OArray cells) → rank a ≤ fuel → length st ≤ dst →
  off + len ≤ length cells → Forall (λ c, c ≠ CNil) (take len (drop off cells)) →
  ∀ idxs s,
    Forall (λ i, i < len) idxs →
    extends st s → (∃ cs, s !! dst = Some (OArray cs)) →
    ∃ s', foldM (λ st i,
                   v ← sliceIndex st a off len i;
                   '(c, st) ← deepCopyMap ord (S fuel) v st;
                   match c with
                   | CNil => Panic SetZeroValue
                   | _ => sliceAssign st dst 0 len i c
                   end) s idxs = Ret s'.
Proof.
  intros IH Ha Hrank Hdst Hbound Hnonnil idxs.
  induction idxs as [|i idxs IHi]; intros s Hidx Hs [cs Hcs]; [by eexists|].
  apply Forall_cons in Hidx as [Hi Hidx].
  simpl. unfold sliceIndex, readArray.
  assert (Hlt : a < length st) by (by apply lookup_lt_Some in Ha).
  rewrite (proj2 Hs a Hlt), Ha. simpl.
  apply Nat.ltb_lt in Hi as Hib. rewrite Hib.
  destruct (cells !! (off + i)) as [v|] eqn:Hcell;
    [|apply lookup_ge_None in Hcell; lia].
  simpl.
  assert (Hv : cellWithin rank st fuel v).
  { apply (cellWithin_mono rank st (rank a)); [done|].
    exact (Forall_lookup_1 _ _ _ _ (Hranked a _ Ha) Hcell). }
  assert (Hvnil : v ≠ CNil).
  { apply (Forall_lookup_1 _ _ i _ Hnonnil).
    rewrite lookup_take_lt by done. by rewrite lookup_drop. }
  destruct (IH _ s Hs Hv) as ([c s2] & Hcopy). rewrite Hcopy. simpl.
  pose proof (deepCopyMap_post ord _ _ _ _ Hcopy) as [G _]. simpl in G.
  pose proof (deepCopyMap_typeOf ord _ _ _ _ _ Hcopy) as Hty.
  assert (Hs2 : extends st s2) by (by apply (extends_grown st s s2)).
  assert (Hcs2 : s2 !! dst = Some (OArray cs)).
  { rewrite (grown_frame _ _ _ _ G); [done|]. by apply lookup_lt_Some in Hcs. }
  assert (Hlen2 : dst < length s2) by (by apply lookup_lt_Some in Hcs2).
  assert (Hnext : ∃ s', foldM (λ st i,
                   v ← sliceIndex st a off len i;
                   '(c, st) ← deepCopyMap ord (S fuel) v st;
                   match c with
                   | CNil => Panic SetZeroValue
                   | _ => sliceAssign st dst 0 len i c
                   end) (<[ dst := OArray (<[ 0 + i := c ]> cs) ]> s2) idxs = Ret s').
  { apply IHi; [done|by apply extends_update|].
    eexists. by apply list_lookup_insert_eq. }
  destruct c; [by destruct v|..];
    unfold sliceAssign, readArray; rewrite Hcs2; simpl; rewrite Hib; apply Hnext.
Qed.

(** With fuel above the rank of what the source refers to, the deep
    copy returns, on the store itself and on every store that extends
    it. *)
Lemma deepCopyMap_returns_on (fuel : nat) (src : cell) (s : store) :
  extends st s → cellWithin rank st fuel src →
  ∃ r, deepCopyMap ord (S fuel) src s = Ret r.
Proof.
  revert src s. induction fuel as [|fuel IH]; intros src s Hs Hsrc.
  { rewrite deepCopyMap_unfold.
    destruct src; simpl in Hsrc; try (by eexists); destruct Hsrc; lia. }
  rewrite deepCopyMap_unfold.
  destruct src as [|sc|l|e a off len cap|ty p]; try (by eexists).
  - destruct Hsrc as [Hrank [m Hm]].
    assert (Hlt : l < length st) by (by apply lookup_lt_Some in Hm).
    unfold readMap at 1. rewrite (proj2 Hs l Hlt), Hm, bind_Ret.
    unfold alloc. cbv beta iota.
    destruct (copyMap_loop_returns fuel l (length s) m IH Hm ltac:(lia) (proj1 Hs)
                (rangeOver ord m).*1 (s ++ [OMap ∅])) as (s' & Hloop).
    + pose proof (proj1 Hs). split; [rewrite length_app; lia|]. intros l' Hl'.
      rewrite lookup_app_l by lia. by apply (proj2 Hs).
    + exists ∅. by apply list_lookup_middle.
    + rewrite Hloop. by eexists.
  - destruct Hsrc as [Hrank (cells & Hcells & Hbound & Hnonnil)].
    assert (Hlt : a < length st) by (by apply lookup_lt_Some in Hcells).
    unfold readArray at 1. rewrite (proj2 Hs a Hlt), Hcells, bind_Ret.
    unfold alloc. cbv beta iota.
    destruct (copySlice_loop_returns fuel a off len (length s) cells IH Hcells
                ltac:(lia) (proj1 Hs) Hbound Hnonnil (seq 0 len)
                (s ++ [OArray (take len (drop off cells)
                                 ++ replicate (cap - len) (zeroOf e))]))
      as (s' & Hloop).
    + apply Forall_forall. intros i Hi%elem_of_seq. lia.
    + pose proof (proj1 Hs). split; [rewrite length_app; lia|]. intros l' Hl'.
      rewrite lookup_app_l by lia. by apply (proj2 Hs).
    + eexists. by apply list_lookup_middle.
    + rewrite Hloop. by eexists.
Qed.

#[local] Transparent deepCopyMap.

End Returns.

(** On a store without cycles, whose slices lie within their arrays and
    hold no nil, [deepCopyMap] returns, given fuel above the rank of
    the source. *)
Lemma deepCopyMap_returns (ord : MapOrder) (rank : loc → nat) (st : store)
    (fuel : nat) (src : cell) :
  ranked rank st → cellWithin rank st fuel src →
  ∃ copy st', deepCopyMap ord (S fuel) src st = Ret (copy, st').
Proof.
  intros Hranked Hsrc.
  destruct (deepCopyMap_returns_on ord rank st Hranked fuel src st) as ([c s'] & H);
    [by split|done|by exists c, s'].
Qed.

(** ** Programs run on the copy stay within the copy *)

Lemma objectFresh_shape (n : nat) (o : object) : objectFresh n (shape o) ↔ objectFresh n o.
Proof. by destruct o. Qed.

Lemma kept_of_grown (st s : store) : grown None (length st) st s → kept st s.
Proof.
  intros [H1 H2 H3]. split.
  - by rewrite !length_fmap.
  - intros l Hl. rewrite length_fmap in Hl. by rewrite !list_lookup_fmap, H2.
  - intros l o Hl _ Hlook. rewrite length_fmap in Hl.
    rewrite list_lookup_fmap in Hlook.
    destruct (s !! l) as [o'|] eqn:Ho'; [|done]. inversion Hlook; subst.
    apply objectFresh_shape. by apply (H3 l o').
Qed.

Lemma kept_length (st s : store) : kept st s → length st ≤ length s.
Proof. intros [H1 _ _]. by rewrite !length_fmap in H1. Qed.

Lemma kept_fresh (st s : store) (l : loc) (o : object) :
  kept st s → length st ≤ l → s !! l = Some o → objectFresh (length st) o.
Proof.
  intros [_ _ H3] Hl Hlook. apply objectFresh_shape.
  apply (H3 l); [by rewrite length_fmap|done|]. by rewrite list_lookup_fmap, Hlook.
Qed.

Lemma kept_intact (st s : store) : kept st s → intact st s.
Proof.
  intros [_ H2 _] l o Hlook Ho.
  pose proof (lookup_lt_Some _ _ _ Hlook) as Hlt.
  specialize (H2 l). rewrite length_fmap, !list_lookup_fmap, Hlook in H2.
  specialize (H2 Hlt). destruct (s !! l) as [o'|]; [|done].
  simpl in H2. inversion H2 as [Hshape].
  destruct o, o'; simpl in *; congruence.
Qed.

Lemma kept_readMap (st s : store) (l : loc) (m : gmap string cell) :
  kept st s → length st ≤ l → readMap s l = Ret m →
  map_Forall (λ _ c, cellFresh (length st) c) m.
Proof.
  intros K Hl. unfold readMap.
  destruct (s !! l) as [[m'| |]|] eqn:Hlook; try done. intros [= <-].
  exact (kept_fresh st s l (OMap m') K Hl Hlook).
Qed.

Lemma kept_readArray (st s : store) (a : loc) (cells : list cell) :
  kept st s → length st ≤ a → readArray s a = Ret cells →
  Forall (cellFresh (length st)) cells.
Proof.
  intros K Hl. unfold readArray.
  destruct (s !! a) as [[|cells'|]|] eqn:Hlook; try done. intros [= <-].
  exact (kept_fresh st s a (OArray cells') K Hl Hlook).
Qed.

Lemma kept_update (st s : store) (l : loc) (o : object) :
  kept st s → length st ≤ l → objectFresh (length st) o → kept st (<[ l := o ]> s).
Proof.
  intros K Hl Ho. unfold kept. rewrite list_fmap_insert.
  apply grown_update; [done|by rewrite length_fmap|].
  intros _. by apply objectFresh_shape.
Qed.

Lemma kept_alloc (st s : store) (o : object) :
  kept st s → objectFresh (length st) o → kept st (s ++ [o]).
Proof.
  intros K Ho. unfold kept. rewrite fmap_app.
  apply grown_alloc; [done|]. intros _. by apply objectFresh_shape.
Qed.

(** A write to a field of a struct changes no map and no array. *)
Lemma kept_field (st s : store) (p : loc) (fields fields' : gmap string scalar) :
  kept st s → s !! p = Some (OStruct fields) → kept st (<[ p := OStruct fields' ]> s).
Proof.
  intros K Hp. unfold kept. rewrite list_fmap_insert. simpl.
  rewrite list_insert_id; [done|]. by rewrite list_lookup_fmap, Hp.
Qed.

Section Programs.

(** The store as it was before the copy was taken. *)
Variable st0 : store.

Lemma mapIndex_fresh (st : store) (l : loc) (k : string) (v : cell) :
  kept st0 st → (length st0) ≤ l → mapIndex st (Some l) k = Ret v →
  cellFresh (length st0) v.
Proof.
  intros G Hl Hv. simpl in Hv. apply bind_inv in Hv as (entries & Hread & Hv).
  inversion Hv; subst. apply (kept_readMap st0 st l) in Hread; [|done..].
  destruct (entries !! k) as [c|] eqn:Hk; simpl; [|done].
  by apply (map_Forall_lookup_1 _ _ _ _ Hread Hk).
Qed.

Lemma sliceIndex_fresh (st : store) (a off len i : nat) (v : cell) :
  kept st0 st → (length st0) ≤ a → sliceIndex st a off len i = Ret v →
  cellFresh (length st0) v.
Proof.
  intros G Ha Hv. unfold sliceIndex in Hv.
  apply bind_inv in Hv as (cells & Hread & Hv).
  apply (kept_readArray st0 st a) in Hread; [|done..].
  destruct (Nat.ltb i len); [|done].
  destruct (cells !! (off + i)) as [c|] eqn:Hc; [|done].
  inversion Hv; subst. by apply (Forall_lookup_1 _ _ _ _ Hread Hc).
Qed.

Lemma fieldOf_scalar (st : store) (p : loc) (f : string) (v : cell) :
  fieldOf st p f = Ret v → ∃ s, v = CScalar s.
Proof.
  unfold fieldOf. intros Hv. apply bind_inv in Hv as (fields & _ & Hv).
  destruct (fields !! f) as [s|]; [|done]. inversion Hv; subst. by exists s.
Qed.

(** A path that starts in the copy ends in the copy, or in a field of a
    struct, which holds no reference. *)
Lemma walk_fresh (st : store) (p : list step) (x v : cell) :
  kept st0 st → cellFresh (length st0) x → walk st x p = Ret v →
  cellFresh (length st0) v.
Proof.
  intros G. revert x. induction p as [|[k|i|f] p IH]; intros x Hx Hv; simpl in Hv.
  - by inversion Hv; subst.
  - destruct x as [| |l| |]; try done.
    apply bind_inv in Hv as (w & Hw & Hv).
    apply (IH w); [|done]. by apply (mapIndex_fresh st l k).
  - destruct x as [| | |e a off len cap|]; try done.
    apply bind_inv in Hv as (w & Hw & Hv).
    apply (IH w); [|done]. by apply (sliceIndex_fresh st a off len i).
  - destruct x as [| | | |ty l]; try done.
    apply bind_inv in Hv as (w & Hw & Hv).
    apply (IH w); [|done]. by apply fieldOf_scalar in Hw as (s & ->).
Qed.

Lemma evalRhs_post (st st' : store) (x v : cell) (r : rhs) :
  kept st0 st → cellFresh (length st0) x → evalRhs st x r = Ret (v, st') →
  kept st0 st' ∧ cellFresh (length st0) v.
Proof.
  intros G Hx Hr. pose proof (kept_length _ _ G) as Hlen.
  destruct r as [s| | |k|p]; simpl in Hr.
  - by inversion Hr; subst.
  - by inversion Hr; subst.
  - inversion Hr; subst. split; [|simpl; lia].
    apply kept_alloc; [done|]. apply map_Forall_empty.
  - inversion Hr; subst. split; [|simpl; lia].
    apply kept_alloc; [done|]. simpl.
    apply Forall_forall. by intros c ->%elem_of_replicate_inv.
  - apply bind_inv in Hr as (w & Hw & Hr). inversion Hr; subst.
    split; [done|]. by apply (walk_fresh st' p x).
Qed.

Lemma mapAssign_post (st st' : store) (l : loc) (k : string) (v : cell) :
  kept st0 st → (length st0) ≤ l → cellFresh (length st0) v →
  mapAssign st l k v = Ret st' → kept st0 st'.
Proof.
  intros G Hl Hv Hrun. unfold mapAssign in Hrun.
  apply bind_inv in Hrun as (entries & Hread & Hrun). inversion Hrun; subst.
  apply kept_update; [done|done|]. simpl.
  apply map_Forall_insert_2; [done|]. by apply (kept_readMap st0 st l).
Qed.

Lemma mapDelete_post (st st' : store) (l : loc) (k : string) :
  kept st0 st → (length st0) ≤ l → mapDelete st l k = Ret st' → kept st0 st'.
Proof.
  intros G Hl Hrun. unfold mapDelete in Hrun.
  apply bind_inv in Hrun as (entries & Hread & Hrun). inversion Hrun; subst.
  apply kept_update; [done|done|]. simpl.
  apply map_Forall_delete. by apply (kept_readMap st0 st l).
Qed.

Lemma sliceAssign_post (st st' : store) (a off len i : nat) (v : cell) :
  kept st0 st → (length st0) ≤ a → cellFresh (length st0) v →
  sliceAssign st a off len i v = Ret st' → kept st0 st'.
Proof.
  intros G Ha Hv Hrun. unfold sliceAssign in Hrun.
  apply bind_inv in Hrun as (cells & Hread & Hrun).
  destruct (Nat.ltb i len); [|done]. inversion Hrun; subst.
  apply kept_update; [done|done|]. simpl.
  apply Forall_insert; [|done]. by apply (kept_readArray st0 st a).
Qed.

Lemma fieldAssign_post (st st' : store) (p : loc) (f : string) (v : scalar) :
  kept st0 st → fieldAssign st p f v = Ret st' → kept st0 st'.
Proof.
  intros G Hrun. unfold fieldAssign, readStruct in Hrun.
  destruct (st !! p) as [[| |fields]|] eqn:Hp; try done.
  inversion Hrun; subst. by apply (kept_field st0 st p fields).
Qed.

(** One assignment through the copy writes into the copy, or into a
    struct. *)
Lemma mutate_post (st st' : store) (x : cell) (m : mutation) :
  kept st0 st → cellFresh (length st0) x → mutate x st m = Ret st' → kept st0 st'.
Proof.
  intros G Hx Hrun. destruct m as [p k r|p k|p i r|p k r grow|p f r]; simpl in Hrun;
    apply bind_inv in Hrun as (t & Ht & Hrun);
    apply (walk_fresh st p x t G Hx) in Ht.
  - destruct t as [| |l| |]; try done.
    apply bind_inv in Hrun as ([v st1] & Hv & Hrun).
    apply (evalRhs_post st st1 x v r G Hx) in Hv as [G1 Hv].
    by apply (mapAssign_post st1 st' l k v).
  - destruct t as [| |l| |]; try done. by apply (mapDelete_post st st' l k).
  - destruct t as [| | |e a off len cap|]; try done.
    apply bind_inv in Hrun as ([v st1] & Hv & Hrun).
    apply (evalRhs_post st st1 x v r G Hx) in Hv as [G1 Hv].
    by apply (sliceAssign_post st1 st' a off len i v).
  - destruct t as [| |l| |]; try done.
    apply bind_inv in Hrun as (s & Hs & Hrun).
    apply (mapIndex_fresh st l k s G Ht) in Hs.
    destruct s as [| | |[|] a off len cap|]; try done.
    apply bind_inv in Hrun as ([v st1] & Hv & Hrun).
    apply (evalRhs_post st st1 x v r G Hx) in Hv as [G1 Hv].
    apply bind_inv in Hrun as (cells & Hcells & Hrun).
    pose proof (kept_readArray st0 st1 a cells G1 Hs Hcells) as Hfresh.
    destruct (Nat.ltb len cap).
    + apply (mapAssign_post _ st' l k (CSlice EAny a off (S len) cap)) in Hrun;
        [done| |done|done].
      apply kept_update; [done|done|]. simpl. by apply Forall_insert.
    + unfold alloc in Hrun.
      apply (mapAssign_post _ st' l k
               (CSlice EAny (length st1) 0 (S len) (Nat.max grow (S len)))) in Hrun;
        [done| |done|].
      * apply kept_alloc; [done|]. simpl.
        apply Forall_app. split; [by apply Forall_take, Forall_drop|].
        apply Forall_cons. split; [done|].
        apply Forall_forall. by intros c ->%elem_of_replicate_inv.
      * simpl. pose proof (kept_length _ _ G1). lia.
  - destruct t as [| | | |ty l]; try done.
    apply bind_inv in Hrun as ([v st1] & Hv & Hrun).
    apply (evalRhs_post st st1 x v r G Hx) in Hv as [G1 Hv].
    destruct v as [|s| | |]; try done. by apply (fieldAssign_post st1 st' l f s).
Qed.

Lemma runProgram_post (st st' : store) (x : cell) (prog : list mutation) :
  kept st0 st → cellFresh (length st0) x → runProgram x st prog = Ret st' →
  kept st0 st'.
Proof.
  intros G Hx Hrun. unfold runProgram in Hrun.
  apply (foldM_inv (kept st0) (mutate x) prog st st'); [|done|done].
  intros s m s' _ Gs Hm. by apply (mutate_post s s' x m).
Qed.

End Programs.

(** From the deep copy to the end of a transform given by a program,
    no map and no array that was in the store is written. *)
Lemma programTransform_post (ord : MapOrder) (fuel : nat) (oldDoc : loc)
    (prog : list mutation) (ret : option (list step)) (st st1 st2 : store)
    (copy : cell) (d : loc) (afterDoc : option loc) :
  deepCopyMap ord fuel (CMap oldDoc) st = Ret (copy, st1) →
  copy = CMap d →
  programTransform prog ret d st1 = Ret (afterDoc, st2) →
  kept st st2.
Proof.
  intros Hcopy -> Hrun.
  apply deepCopyMap_post in Hcopy as [G1 Hfresh]. simpl in G1, Hfresh.
  apply kept_of_grown in G1.
  unfold programTransform in Hrun.
  apply bind_inv in Hrun as (s & Hprog & Hrun).
  pose proof (runProgram_post st st1 s (CMap d) prog G1 Hfresh Hprog) as G2.
  destruct ret as [p|]; [|by inversion Hrun; subst].
  apply bind_inv in Hrun as (r & _ & Hrun).
  destruct r; try done. by inversion Hrun; subst.
Qed.

(** The loop of [makeUpdateData], entry by entry. *)
Lemma diffEntry_fold (st : store) (afterDoc : option loc)
    (entries : list (string * cell)) (acc ups : list Update) :
  foldM (diffEntry st afterDoc) acc entries = Ret ups →
  ups = acc ++ omap (changedField st afterDoc) entries.
Proof.
  revert acc. induction entries as [|[key oldVal] entries IH]; intros acc Hrun;
    simpl in Hrun.
  - inversion Hrun; subst. by rewrite app_nil_r.
  - apply bind_inv in Hrun as (acc' & Hstep & Hrun). apply IH in Hrun. subst ups.
    assert (Hcons : omap (changedField st afterDoc) ((key, oldVal) :: entries)
              = match changedField st afterDoc (key, oldVal) with
                | Some u => u :: omap (changedField st afterDoc) entries
                | None => omap (changedField st afterDoc) entries
                end) by done.
    rewrite Hcons. clear Hcons.
    unfold diffEntry in Hstep.
    destruct (changedField st afterDoc (key, oldVal)) as [u|] eqn:Hch;
      unfold changedField in Hch; cbn [fst snd] in Hch;
      destruct (String.eqb key IdFieldName); try done.
    + apply bind_inv in Hstep as (newVal & Hnew & Hstep). rewrite Hnew in Hch.
      apply bind_inv in Hstep as (b & Hneq & Hstep). rewrite Hneq in Hch.
      destruct b; [|done]. inversion Hch; subst. inversion Hstep; subst.
      by rewrite <- app_assoc.
    + by inversion Hstep; subst.
    + apply bind_inv in Hstep as (newVal & Hnew & Hstep). rewrite Hnew in Hch.
      apply bind_inv in Hstep as (b & Hneq & Hstep). rewrite Hneq in Hch.
      destruct b; [done|]. by inversion Hstep; subst.
Qed.

(** What [makeUpdateData] returns under a transform given by a program
    (when it returns): the maps and the arrays of the store it started
    from are intact, and the delta holds the fields of the original
    document, other than the identifier, whose value in the transformed
    document differs from the original one, each with its new value.  A
    field that only the transformed document has is not part of it. *)
Lemma makeUpdateData_delta (ord : MapOrder) (fuel : nat) (oldDoc : loc)
    (prog : list mutation) (ret : option (list step)) (st st' : store)
    (entries : gmap string cell) (ups : list Update) :
  readMap st oldDoc = Ret entries →
  makeUpdateData ord fuel oldDoc (Some (programTransform prog ret)) st = Ret (ups, st') →
  intact st st'
  ∧ readMap st' oldDoc = Ret entries
  ∧ ∃ afterDoc,
      ups = omap (changedField st' afterDoc) (rangeOver ord entries)
      ∧ (∀ u, u ∈ ups ↔
           ∃ oldVal, entries !! Path u = Some oldVal
                     ∧ Path u ≠ IdFieldName
                     ∧ mapIndex st' afterDoc (Path u) = Ret (Value u)
                     ∧ ifaceNeq (Value u) oldVal = Ret true).
Proof.
  intros Hread Hrun. unfold makeUpdateData in Hrun.
  apply bind_inv in Hrun as ([copy st1] & Hcopy & Hrun).
  apply bind_inv in Hrun as (d & Hd & Hrun).
  assert (copy = CMap d) as Hcopy_d by (destruct copy; by inversion Hd).
  apply bind_inv in Hrun as ([afterDoc st2] & Htrans & Hrun).
  pose proof (programTransform_post ord fuel oldDoc prog ret st st1 st2 copy d afterDoc
                Hcopy Hcopy_d Htrans) as G.
  apply bind_inv in Hrun as (entries2 & Hread2 & Hrun).
  apply bind_inv in Hrun as (ups' & Hloop & Hrun).
  inversion Hrun; subst ups' st2. clear Hrun.
  apply kept_intact in G.
  assert (entries2 = entries) as ->.
  { unfold readMap in Hread, Hread2.
    destruct (st !! oldDoc) as [[m| |]|] eqn:Hold; try done.
    rewrite (G oldDoc (OMap m) Hold eq_refl) in Hread2. congruence. }
  apply diffEntry_fold in Hloop. simpl in Hloop.
  split_and!; [done|done|]. exists afterDoc. split; [done|].
  intros [key v]. rewrite Hloop, list_elem_of_omap. simpl. split.
  - intros ([k oldVal] & Hin & Hch).
    rewrite (rangeOver_perm ord) in Hin. apply elem_of_map_to_list in Hin.
    unfold changedField in Hch. simpl in Hch.
    destruct (String.eqb_spec k IdFieldName) as [|Hne]; [done|].
    destruct (mapIndex st' afterDoc k) as [newVal| | |] eqn:Hnew; try done.
    destruct (ifaceNeq newVal oldVal) as [[|]| | |] eqn:Hneq; try done.
    inversion Hch; subst. by exists oldVal.
  - intros (oldVal & Hin & Hne & Hnew & Hneq).
    exists (key, oldVal). split.
    + rewrite (rangeOver_perm ord). by apply elem_of_map_to_list.
    + unfold changedField. simpl.
      destruct (String.eqb_spec key IdFieldName) as [|_]; [done|].
      by rewrite Hnew, Hneq.
Qed.

(** A document with an empty delta is skipped: nothing is enqueued and
    no error is recorded for it. *)
Lemma enqueueDoc_skip {Job WriteResult} (ord : MapOrder)
    (bw : BulkWriter Job WriteResult) (now : cell) (fuel : nat)
    (batchFn : option transform) (errs : list error) (jobs : list Job)
    (st st' : store) (doc : loc) (id : string) :
  mapIndex st (Some doc) IdFieldName = Ret (CScalar (SString id)) →
  makeUpdateData ord fuel doc batchFn st = Ret ([], st') →
  enqueueDoc ord bw now fuel batchFn (errs, jobs, st) doc = Ret (errs, jobs, st').
Proof.
  intros Hid Hdelta. unfold enqueueDoc. rewrite Hid. simpl. by rewrite Hdelta.
Qed.

(** ** Documents with nested data cannot be diffed *)

Lemma foldM_Ret_step {A B} (f : A → B → outcome A) (l : list B) (a a' : A) (b : B) :
  foldM f a l = Ret a' → b ∈ l → ∃ x y, f x b = Ret y.
Proof.
  revert a. induction l as [|b' l IH]; intros a Hrun Hin.
  - by apply elem_of_nil in Hin.
  - simpl in Hrun. apply bind_inv in Hrun as (y & Hy & Hrun).
    apply elem_of_cons in Hin as [->|Hin]; [by exists a, y|].
    by apply (IH y).
Qed.

Section CopyTypes.

Variable ord : MapOrder.

#[local] Opaque deepCopyMap.

(** The loop over the keys of a map leaves under every key it has
    visited a value of the dynamic type of the source value (nothing,
    when the source value is nil). *)
Lemma copyMap_loop_types (fuel : nat) (src dst : loc) (st : store)
    (entries : gmap string cell) :
  st !! src = Some (OMap entries) → length st ≤ dst →
  ∀ keys s s' m,
    extends st s → s !! dst = Some (OMap m) →
    foldM (λ st key,
             v ← mapIndex st (Some src) key;
             '(c, st) ← deepCopyMap ord fuel v st;
             match c with
             | CNil => mapDelete st dst key
             | _ => mapAssign st dst key c
             end) s keys = Ret s' →
    ∃ m', s' !! dst = Some (OMap m')
          ∧ (∀ k, k ∈ keys →
               typeOf (default CNil (m' !! k)) = typeOf (default CNil (entries !! k)))
          ∧ (∀ k, k ∉ keys → m' !! k = m !! k).
Proof.
  intros Hsrc Hdst keys.
  induction keys as [|key keys IH]; intros s s' m Hs Hm Hrun.
  { simpl in Hrun. inversion Hrun; subst. exists m. split; [done|].
    split; [|done]. intros k Hk. by apply elem_of_nil in Hk. }
  simpl in Hrun. apply bind_inv in Hrun as (s1 & Hstep & Hrun).
  assert (Hlt : src < length st) by (by apply lookup_lt_Some in Hsrc).
  unfold readMap in Hstep. rewrite (proj2 Hs src Hlt), Hsrc in Hstep.
  rewrite !bind_Ret in Hstep. cbv beta in Hstep.
  apply bind_inv in Hstep as ([c s2] & Hcopy & Hstep).
  pose proof (deepCopyMap_post ord _ _ _ _ Hcopy) as [G _]. simpl in G.
  pose proof (deepCopyMap_typeOf ord _ _ _ _ _ Hcopy) as Hty.
  assert (Hs2 : extends st s2) by (by apply (extends_grown st s s2)).
  assert (Hm2 : s2 !! dst = Some (OMap m)).
  { rewrite (grown_frame _ _ _ _ G); [done|]. by apply lookup_lt_Some in Hm. }
  assert (Hlen2 : dst < length s2) by (by apply lookup_lt_Some in Hm2).
  set (m1 := match c with CNil => delete key m | _ => <[ key := c ]> m end).
  assert (Hs1 : s1 = <[ dst := OMap m1 ]> s2).
  { subst m1. destruct c; unfold mapDelete, mapAssign, readMap in Hstep;
      rewrite Hm2 in Hstep; by inversion Hstep. }
  assert (Hkey : typeOf (default CNil (m1 !! key))
                 = typeOf (default CNil (entries !! key))).
  { rewrite <- Hty. subst m1.
    destruct c; [by rewrite lookup_delete_eq|by rewrite lookup_insert_eq..]. }
  assert (Hother : ∀ k, k ≠ key → m1 !! k = m !! k).
  { intros k Hk. subst m1.
    destruct c; [by rewrite lookup_delete_ne|by rewrite lookup_insert_ne..]. }
  subst s1.
  apply (IH _ _ m1) in Hrun as (m' & Hm' & Hin & Hout);
    [|by apply extends_update|by apply list_lookup_insert_eq].
  exists m'. split; [done|]. split.
  - intros k Hk. destruct (decide (k ∈ keys)) as [Hk'|Hk']; [by apply Hin|].
    apply elem_of_cons in Hk as [->|Hk]; [|done]. by rewrite (Hout key Hk').
  - intros k Hk. apply not_elem_of_cons in Hk as [Hne Hk].
    rewrite (Hout k Hk). by apply Hother.
Qed.

(** The copy of a map holds, under every key, a value of the dynamic
    type of the value the source holds there. *)
Lemma deepCopyMap_map_types (fuel : nat) (l : loc) (st st' : store) (copy : cell)
    (entries : gmap string cell) :
  st !! l = Some (OMap entries) →
  deepCopyMap ord fuel (CMap l) st = Ret (copy, st') →
  ∃ d m', copy = CMap d ∧ st' !! d = Some (OMap m')
          ∧ ∀ k, typeOf (default CNil (m' !! k)) = typeOf (default CNil (entries !! k)).
Proof.
  intros Hl Hrun. destruct fuel as [|fuel]; [done|].
  rewrite deepCopyMap_unfold in Hrun. unfold readMap at 1 in Hrun.
  rewrite Hl, bind_Ret in Hrun. unfold alloc in Hrun. cbv beta iota in Hrun.
  apply bind_inv in Hrun as (s' & Hloop & Hrun). inversion Hrun; subst.
  apply (copyMap_loop_types fuel l (length st) st entries Hl (le_n _) _ _ _ ∅)
    in Hloop as (m' & Hm' & Hin & Hout).
  - exists (length st), m'. split; [done|]. split; [done|]. intros k.
    destruct (entries !! k) as [v|] eqn:Hk.
    + rewrite <- Hk. apply Hin. apply list_elem_of_fmap.
      exists (k, v). split; [done|].
      rewrite (rangeOver_perm ord). by apply elem_of_map_to_list.
    + rewrite Hout; [done|]. intros Hin'.
      apply list_elem_of_fmap in Hin' as ([k' v] & -> & Hkv).
      rewrite (rangeOver_perm ord) in Hkv. apply elem_of_map_to_list in Hkv.
      simpl in Hk. congruence.
  - split; [rewrite length_app; lia|]. intros l' Hl'. by rewrite lookup_app_l.
  - by apply list_lookup_middle.
Qed.

#[local] Transparent deepCopyMap.

(** Whatever the iteration order and the fuel: when a field of the
    original document, other than the identifier, holds a map or a
    slice, [makeUpdateData] under the transform that changes nothing
    returns no delta (the comparison of the copy with the original
    panics). *)
Lemma makeUpdateData_nested_fails (fuel : nat) (oldDoc : loc) (st : store)
    (entries : gmap string cell) (key : string) (v : cell) (t : gotype)
    (r : list Update * store) :
  st !! oldDoc = Some (OMap entries) →
  entries !! key = Some v → key ≠ IdFieldName →
  typeOf v = Some t → comparable t = false →
  makeUpdateData ord fuel oldDoc (Some identityTransform) st ≠ Ret r.
Proof.
  intros Hdoc Hkey Hne Hty Hcmp Hrun. unfold makeUpdateData in Hrun.
  apply bind_inv in Hrun as ([copy st1] & Hcopy & Hrun).
  pose proof (deepCopyMap_post ord _ _ _ _ Hcopy) as [G _]. simpl in G.
  destruct (deepCopyMap_map_types fuel oldDoc st st1 copy entries Hdoc Hcopy)
    as (d & m' & -> & Hd & Htypes).
  rewrite bind_Ret in Hrun.
  assert (Hid : identityTransform d st1 = Ret (Some d, st1)) by done.
  rewrite Hid, bind_Ret in Hrun. cbv beta iota in Hrun.
  assert (Hlt : oldDoc < length st) by (by apply lookup_lt_Some in Hdoc).
  unfold readMap at 1 in Hrun.
  rewrite (grown_frame _ _ _ _ G oldDoc Hlt), Hdoc, bind_Ret in Hrun.
  apply bind_inv in Hrun as (ups & Hloop & _).
  apply (foldM_Ret_step _ _ _ _ (key, v)) in Hloop as (x & y & Hstep).
  - unfold diffEntry in Hstep.
    destruct (String.eqb_spec key IdFieldName) as [|_]; [done|].
    unfold mapIndex, readMap in Hstep. rewrite Hd in Hstep. simpl in Hstep.
    specialize (Htypes key). rewrite Hkey in Htypes. simpl in Htypes.
    unfold ifaceNeq in Hstep. rewrite Htypes, Hty in Hstep.
    rewrite bool_decide_eq_true_2 in Hstep by done.
    by rewrite Hcmp in Hstep.
  - rewrite (rangeOver_perm ord). by apply elem_of_map_to_list.
Qed.

End CopyTypes.

(** ** The batch *)

Lemma errors_Join_filter (errs : list error) :
  errors_Join (filter is_Some errs) = errors_Join errs.
Proof.
  assert (Heq : omap id (filter is_Some errs) = omap id errs).
  { induction errs as [|o errs IH]; [done|].
    rewrite filter_cons. destruct (decide (is_Some o)) as [[e ->]|Hnone]; simpl.
    - f_equal. exact IH.
    - destruct o as [e|]; [|exact IH]. exfalso. apply Hnone. by exists e. }
  unfold errors_Join. by rewrite Heq.
Qed.

Lemma errors_Join_Some (errs1 errs2 : list error) (e : err) :
  ∃ es, errors_Join (errs1 ++ Some e :: errs2) = Some (ErrJoin es) ∧ e ∈ es.
Proof.
  unfold errors_Join. rewrite omap_app.
  assert (Hcons : omap id (Some e :: errs2) = e :: omap id errs2) by done.
  rewrite Hcons.
  destruct (omap id errs1 ++ e :: omap id errs2) as [|e' es] eqn:Heq.
  - destruct (omap id errs1); simpl in Heq; discriminate.
  - exists (e' :: es). split; [done|]. rewrite <- Heq.
    apply elem_of_app. right. apply list_elem_of_here.
Qed.

Lemma successes_app {WriteResult} (r1 r2 : list (list WriteResult * error)) :
  successes (r1 ++ r2) = successes r1 ++ successes r2.
Proof. unfold successes. by rewrite fmap_app, concat_app. Qed.

Lemma failures_app {WriteResult} (r1 r2 : list (list WriteResult * error)) :
  failures (r1 ++ r2) = failures r1 ++ failures r2.
Proof. unfold failures. by rewrite fmap_app, filter_app. Qed.

Section BatchFacts.

Context {Job WriteResult : Type}.
Variable U : Unicode.
Variable ord : MapOrder.
Variable db : Firestore loc.
Variable bw : BulkWriter Job WriteResult.
Variable now : cell.

(** The loop of [BatchDocs], with its accumulators, against the groups
    run one after the other. *)
Lemma batchGroup_fold (fuel : nat) (batchFn : option transform)
    (groups : list (list loc)) (errs : list error) (batchResults : list WriteResult)
    (st : store) :
  foldM (batchGroup ord bw now fuel batchFn) (errs, batchResults, st) groups =
    ('(runs, st') ← runGroups ord bw now fuel batchFn groups st;
     Ret (errs ++ failures runs, batchResults ++ successes runs, st')).
Proof.
  revert errs batchResults st.
  induction groups as [|docs groups IH]; intros errs batchResults st; simpl.
  - by rewrite !app_nil_r.
  - destruct (batchEach500Docs ord bw now fuel docs batchFn st)
      as [[[results err] st1]| | |]; simpl; try done.
    destruct err as [e|]; simpl; rewrite IH;
      destruct (runGroups ord bw now fuel batchFn groups st1) as [[runs st2]| | |];
      simpl; try done.
    + unfold failures, successes. rewrite !fmap_cons, filter_cons_True by done.
      simpl. by rewrite <- app_assoc.
    + unfold failures, successes. rewrite !fmap_cons.
      rewrite filter_cons_False by (by intros [? ?]).
      simpl. by rewrite <- app_assoc.
Qed.

#[local] Opaque lo_Chunk.

(** C5.  [BatchDocs] runs every group of the listed documents, one
    after the other, whether or not earlier groups returned an error;
    it returns the results of the groups that returned no error and the
    errors of all the others joined into one.  So when a group fails,
    the error it returned is part of the joined error, which is not
    nil, and the results of the groups before and after it are
    returned as if it had not been there. *)
Theorem BatchDocs_group_failure (fuel : nat) (condition : list value)
    (batchFn : option transform) (st : store) :
  BatchDocs U ord db bw now fuel condition batchFn st =
    ('(docs, err) ← ListDocs U ord db id condition;
     match err with
     | Some e => Ret ([], Some e, st)
     | None =>
         if Nat.eqb (length docs) 0
         then Ret ([], Some (ErrNew "no docs to batch"), st)
         else
           groups ← lo_Chunk docs 500;
           '(runs, st') ← runGroups ord bw now fuel batchFn groups st;
           Ret (successes runs, errors_Join (runs.*2), st')
     end)
  ∧ (∀ (before after : list (list WriteResult * error)) results e,
       let runs := before ++ (results, Some e) :: after in
       successes runs = successes before ++ successes after
       ∧ ∃ es, errors_Join (runs.*2) = Some (ErrJoin es) ∧ e ∈ es).
Proof.
  split.
  - unfold BatchDocs.
    destruct (ListDocs U ord db id condition) as [[docs [e|]]| | |]; simpl; try done.
    destruct (Nat.eqb (length docs) 0); [done|].
    destruct (lo_Chunk docs 500) as [groups| | |]; simpl; try done.
    rewrite batchGroup_fold.
    destruct (runGroups ord bw now fuel batchFn groups st) as [[runs st']| | |];
      simpl; try done.
    unfold failures. by rewrite errors_Join_filter.
  - intros before after results e runs. subst runs. split.
    + rewrite successes_app. unfold successes at 2. simpl. done.
    + rewrite fmap_app. simpl. apply errors_Join_Some.
Qed.

#[local] Transparent lo_Chunk.

End BatchFacts.

(** ** The statements at work *)

Lemma Paginate_page_two_witness :
  last exampleFilters = Some (VSlice [VString "uid"; VString "=="; VString "abc"])
  ∧ MakeQuery asciiOnly storedOrder (withPage exampleFilters 2 25)
    = Ret [QWhere "deletedAt" "==" VNil; QWhere "uid" "==" (VString "abc");
           QOffset 25; QLimit 25]
  ∧ QLimit 25 ∈ [QWhere "deletedAt" "==" VNil; QWhere "uid" "==" (VString "abc");
                 QOffset 25; QLimit 25]
  ∧ PaginateWithCount asciiOnly storedOrder exampleDb (λ d, d) exampleFilters 2 25
    = Ret (Some {[ "count" := RInt 60;
                   "totalPage" := RInt 3;
                   "docs" := RDocs (seq 25 25);
                   "page" := RInt 2;
                   "perPage" := RInt 25 ]}, None).
Proof.
  pose proof (Paginate_page_two asciiOnly storedOrder exampleDb (λ d, d) exampleFilters
                (VSlice [VString "uid"; VString "=="; VString "abc"])
                eq_refl (or_introl eq_refl)) as (_ & _ & Hquery & _ & _ & _ & _ & Hcounted).
  assert (Hq : MakeQuery asciiOnly storedOrder (withPage exampleFilters 2 25)
               = Ret [QWhere "deletedAt" "==" VNil; QWhere "uid" "==" (VString "abc");
                      QOffset 25; QLimit 25]) by (vm_compute; reflexivity).
  split; [reflexivity|]. split; [exact Hq|]. split.
  - exact (proj1 (Hquery _ Hq)).
  - refine (eq_trans (Hcounted _ (seq 25 25) Hq _ _) _).
    + vm_compute; reflexivity.
    + vm_compute; reflexivity.
    + by rewrite list_fmap_id.
Defined.

Lemma GetDoc_errors_witness :
  Doc_Get exampleDb "u1" = inr (ErrStatus CodeNotFound "not found")
  ∧ GetDoc exampleDb (λ d, d) "u1" = Ret (None, Some (ErrNew "doc not found: u1"))
  ∧ GetDoc brokenDb (λ d, d) "u1"
    = Ret (None, Some (ErrStatus (CodeOther 14) "unavailable")).
Proof.
  split; [reflexivity|]. split.
  - exact (proj1 (GetDoc_errors exampleDb (λ d, d) "u1"
                    (ErrStatus CodeNotFound "not found") eq_refl) eq_refl).
  - refine (proj2 (GetDoc_errors brokenDb (λ d, d) "u1"
                     (ErrStatus (CodeOther 14) "unavailable") eq_refl) _).
    discriminate.
Defined.


(** A map of the caller's that stands twice in a sequence: the limit
    [FindDoc] writes into it for the final clause is also read as a
    filter where the map stands first, and stays in the map. *)
Lemma FindDoc_shared_mapping :
  FindDoc asciiOnly storedOrder exampleDb (λ d, d) uidMaps sharedExample
    = Ret ([ {[ "limit" := VInt 1; "uid" := VString "abc" ]} ], sharedExample,
           (Some 0, None))
  ∧ (values ← readClauses [ {[ "limit" := VInt 1; "uid" := VString "abc" ]} ]
                sharedExample;
     MakeQuery asciiOnly storedOrder values)
    = Ret [QWhere "uid" "==" (VString "abc"); QWhere "limit" "==" (VInt 1); QLimit 1].
Proof. split; vm_compute; reflexivity. Qed.



(** The same with a mapping before the trailing one: once the trailing
    mapping is gone the one before it is final, and is dropped in turn. *)
Lemma CountDocs_shortened_differs_inner :
  let f := VSlice [VString "uid"; VString "=="; VString "abc"] in
  CountDocs asciiOnly storedOrder exampleDb ([f; VMap {[ "limit" := VInt 1 ]}] ++ [VMap ∅])
    = Ret (1%Z, None)
  ∧ CountDocs asciiOnly storedOrder exampleDb [f; VMap {[ "limit" := VInt 1 ]}]
    = Ret (60%Z, None).
Proof. split; vm_compute; reflexivity. Qed.

(** Where a mapping stands right before the final mapping, the two
    halves of [PaginateWithCount] read it differently: the listing takes
    its entries for filters, and [CountDocs], having dropped the final
    mapping, takes them for options and ignores the names it does not
    know.  The count is then that of the whole collection, whatever the
    page was filtered by: ten documents match, sixty are counted. *)
Lemma CountDocs_mapping_before_options :
  let cond := [VMap {[ "uid" := VString "abc" ]};
               VMap {[ "orderBy" := VString "createdAt:desc" ]}] in
  MakeQuery asciiOnly storedOrder (withPage cond 1 25)
    = Ret [QWhere "uid" "==" (VString "abc"); QOffset 0;
           QOrderBy "createdAt" Desc; QLimit 25]
  ∧ (∀ db : Firestore nat,
       CountDocs asciiOnly storedOrder db cond = Ret (aggregateCount db []))
  ∧ PaginateWithCount asciiOnly storedOrder uidDb (λ d, d) cond 1 25
    = Ret (Some {[ "count" := RInt 60;
                   "totalPage" := RInt 3;
                   "docs" := RDocs (seq 0 10);
                   "page" := RInt 1;
                   "perPage" := RInt 25 ]}, None).
Proof. split_and!; [vm_compute; reflexivity|done|vm_compute; reflexivity]. Qed.

(** C8, as stated, fails on the text of the error: it reads "doc not
    found: <id>", not "document not found: <id>". *)
Lemma GetDoc_not_found_text :
  GetDoc exampleDb (λ d, d) "u1" = Ret (None, Some (ErrNew "doc not found: u1"))
  ∧ GetDoc exampleDb (λ d, d) "u1" ≠ Ret (None, Some (ErrNew "document not found: u1")).
Proof. split; [reflexivity|vm_compute; discriminate]. Qed.

(** The example store is one of those on which the copy returns. *)
Lemma nestedStore_ranked :
  ranked nestedRank nestedStore ∧ cellWithin nestedRank nestedStore 3 (CMap 0).
Proof.
  split.
  - intros l o Hlook.
    destruct l as [|[|[|[|l]]]]; cbn in Hlook; inversion Hlook; subst;
      unfold objectWithin.
    + apply map_Forall_insert_2; [done|].
      apply map_Forall_insert_2; [split; [cbn; lia|by eexists]|].
      apply map_Forall_singleton. split; [cbn; lia|].
      eexists. split; [done|]. split; [cbn; lia|]. by repeat constructor.
    + by apply map_Forall_singleton.
    + apply Forall_cons; split; [done|]. apply Forall_cons; split; [|done].
      split; [cbn; lia|by eexists].
    + by apply map_Forall_singleton.
  - split; [cbn; lia|by eexists].
Qed.

(** Three groups of 500, 500 and 1 documents.  One write fails in the
    second group: its error is returned, joined; the write that
    succeeded in that group (document 601) is not among the results;
    the results of the first and of the third group are. *)
Lemma BatchDocs_three_groups :
  (r ← BatchDocs asciiOnly storedOrder (listFirst 1001) stubWriter noon 2 []
         (Some resetN) manyDocs;
   Ret r.1)
  = Ret (["3"; "1000"], Some (ErrJoin [ErrJoin [ErrNew "write failed"]])).
Proof. vm_compute. reflexivity. Qed.

(** C1, where the code departs from it.  A field that the transform
    adds differs between the original and the transformed copy (absent
    in the one, 2 in the other), yet the delta is empty, in either
    iteration order, and [BatchDocs] issues no write for the document.
    And on a document that holds a map or a slice the comparison of the
    copy with the original panics, even under the transform that
    changes nothing, so no delta is computed at all. *)
Theorem makeUpdateData_failing_inputs :
  (r ← makeUpdateData storedOrder 2 0 (Some addField) flatStore; Ret r.1) = Ret []
  ∧ (r ← makeUpdateData reversedOrder 2 0 (Some addField) flatStore; Ret r.1) = Ret []
  ∧ (r ← makeUpdateData storedOrder 2 0 (Some addField) flatStore;
     old ← mapIndex r.2 (Some 0) "m"; new ← mapIndex r.2 (Some 1) "m";
     Ret (old, new)) = Ret (CNil, CScalar (SInt 2))
  ∧ (r ← BatchDocs asciiOnly storedOrder (listFirst 1) stubWriter noon 2 []
           (Some addField) flatStore;
     Ret r.1) = Ret ([], None)
  ∧ makeUpdateData storedOrder 4 0 (Some identityTransform) nestedStore
    = Panic Uncomparable
  ∧ makeUpdateData reversedOrder 4 0 (Some identityTransform) nestedStore
    = Panic Uncomparable
  ∧ BatchDocs asciiOnly storedOrder (listFirst 1) stubWriter noon 4 []
      (Some identityTransform) nestedStore
    = Panic Uncomparable.
Proof. split_and!; vm_compute; reflexivity. Qed.

(** ** More on the condition compiler *)

Lemma foldM_shift {A B} (f : list A → B → outcome (list A)) (l : list B) (q : list A) :
  (∀ q b, f q b = (ys ← f [] b; Ret (q ++ ys))) →
  foldM f q l = (ys ← foldM f [] l; Ret (q ++ ys)).
Proof.
  intros Hf. revert q. induction l as [|b l IH]; intros q; simpl.
  - by rewrite app_nil_r.
  - rewrite (Hf q b). destruct (f [] b) as [ys| | |]; simpl; try done.
    rewrite (IH (q ++ ys)), (IH ys).
    destruct (foldM f [] l) as [zs| | |]; simpl; try done.
    by rewrite app_assoc.
Qed.

Lemma foldM_cons_shift {A B} (f : list A → B → outcome (list A)) (l : list B) (b : B) :
  (∀ q b, f q b = (ys ← f [] b; Ret (q ++ ys))) →
  foldM f [] (b :: l) = (ys ← f [] b; zs ← foldM f [] l; Ret (ys ++ zs)).
Proof.
  intros Hf. simpl. destruct (f [] b) as [ys| | |]; simpl; try done.
  by rewrite (foldM_shift f l ys Hf).
Qed.

(** A loop whose steps append what depends on the element only yields,
    on a rearranged list, a rearranged result. *)
Lemma foldM_perm {A B} (f : list A → B → outcome (list A)) (l l' : list B)
    (qa qb q1 : list A) :
  (∀ q b, f q b = (ys ← f [] b; Ret (q ++ ys))) →
  l ≡ₚ l' → qa ≡ₚ qb →
  foldM f qa l = Ret q1 → ∃ q2, foldM f qb l' = Ret q2 ∧ q1 ≡ₚ q2.
Proof.
  intros Hf Hl Hq.
  assert (Hnil : ∀ ys, foldM f [] l = Ret ys →
                       ∃ ys', foldM f [] l' = Ret ys' ∧ ys ≡ₚ ys').
  { clear qa qb q1 Hq. induction Hl as [|x l l' Hl IH|x y l|l l' l'' _ IH1 _ IH2];
      intros ys.
    - intros [= <-]. by exists [].
    - rewrite !foldM_cons_shift by done.
      destruct (f [] x) as [a| | |]; simpl; try done.
      destruct (foldM f [] l) as [zs| | |]; simpl; try done.
      destruct (IH zs eq_refl) as (zs' & -> & Hzs). simpl.
      intros [= <-]. eexists. split; [done|]. by rewrite Hzs.
    - rewrite !foldM_cons_shift by done.
      destruct (f [] y) as [a| | |]; destruct (f [] x) as [b| | |]; simpl; try done.
      destruct (foldM f [] l) as [zs| | |]; simpl; try done.
      intros [= <-]. eexists. split; [done|].
      rewrite !app_assoc. f_equiv. apply Permutation_app_comm.
    - intros H1. destruct (IH1 ys H1) as (ys' & H2 & Hp).
      destruct (IH2 ys' H2) as (ys'' & H3 & Hp'). exists ys''. split; [done|].
      by etrans. }
  rewrite (foldM_shift f l qa Hf), (foldM_shift f l' qb Hf).
  destruct (foldM f [] l) as [ys| | |]; simpl; try done.
  destruct (Hnil ys eq_refl) as (ys' & -> & Hp). simpl.
  intros [= <-]. eexists. split; [done|]. by rewrite Hq, Hp.
Qed.

Lemma rangeOver_singleton {V} (ord : MapOrder) (k : string) (v : V) :
  rangeOver ord ({[ k := v ]} : gmap string V) = [(k, v)].
Proof.
  apply Permutation_singleton_r.
  by rewrite (rangeOver_perm ord), map_to_list_singleton.
Qed.

Section MoreCompilerFacts.

Variable U : Unicode.

Lemma compileFrom_tuples (ord : MapOrder) (len idx : nat) (q : Query)
    (fs : list (string * string * value)) :
  compileFrom U ord len idx q (tupleClause <$> fs) = Ret (q ++ (filterOf <$> fs)).
Proof.
  revert idx q. induction fs as [|[[p o] v] fs IH]; intros idx q.
  - by rewrite app_nil_r.
  - rewrite fmap_cons, compileFrom_cons. simpl. rewrite IH.
    by rewrite <- app_assoc.
Qed.

Lemma parseOrderBy_Ret (s : string) : ∃ r, parseOrderBy U s = Ret r.
Proof.
  unfold parseOrderBy. destruct (String.eqb s ""); [by eexists|].
  assert (Hlen : ∀ t, Split t ":" ≠ []).
  { induction t as [|c t IH]; simpl; [done|].
    destruct (Ascii.eqb c ":"); [done|]. by destruct (Split t ":"). }
  destruct (Split s ":") as [|s0 [|s1 l]] eqn:Hs; [by destruct (Hlen s)|..]; simpl;
    repeat case_match; by eexists.
Qed.

Lemma addOrderBy_shift (q : Query) (ob : string) :
  addOrderBy U q ob = (ys ← addOrderBy U [] ob; Ret (q ++ ys)).
Proof.
  unfold addOrderBy. destruct (parseOrderBy U ob) as [[o|]| | |]; simpl; try done.
  - by destruct (Nat.ltb 0 (String.length (Field o))); simpl; rewrite ?app_nil_r.
  - by rewrite app_nil_r.
Qed.

Lemma addOrderBy_orderByOf (q : Query) (ob : string) :
  addOrderBy U q ob = Ret (q ++ option_list (orderByOf U ob)).
Proof.
  unfold addOrderBy, orderByOf.
  destruct (parseOrderBy_Ret ob) as ([o|] & ->); simpl.
  - by destruct (Nat.ltb 0 (String.length (Field o))); simpl; rewrite ?app_nil_r.
  - by rewrite app_nil_r.
Qed.

Lemma addOrderBy_fold (q : Query) (obs : list string) :
  foldM (addOrderBy U) q obs = Ret (q ++ omap (orderByOf U) obs).
Proof.
  revert q. induction obs as [|ob obs IH]; intros q; simpl.
  - by rewrite app_nil_r.
  - rewrite addOrderBy_orderByOf. simpl. rewrite IH.
    destruct (orderByOf U ob); simpl; by rewrite <- ?app_assoc, ?app_nil_r.
Qed.

Lemma applyModifier_shift (q : Query) (kv : string * value) :
  applyModifier U q kv = (ys ← applyModifier U [] kv; Ret (q ++ ys)).
Proof.
  destruct kv as [key val]. unfold applyModifier.
  repeat (case_match; simpl; try done); rewrite ?app_nil_r; try done.
  - destruct (assertString val) as [s| | |]; simpl; try done.
    apply addOrderBy_shift.
  - destruct (assertStrings val) as [obs| | |]; simpl; try done.
    rewrite !addOrderBy_fold. simpl. done.
  - by destruct (assertInt val).
  - by destruct (assertInt val).
Qed.

End MoreCompilerFacts.

Section CompilerExtras.

Variable U : Unicode.

(** X1.  A condition sequence of tuple clauses compiles to one filter
    per clause, in the order of the clauses, whatever the iteration
    order of maps; so rearranging the clauses rearranges the filters and
    changes nothing else. *)
Theorem MakeQuery_tuples (ord : MapOrder) (fs : list (string * string * value)) :
  MakeQuery U ord (tupleClause <$> fs) = Ret (filterOf <$> fs)
  ∧ ∀ fs', fs ≡ₚ fs' →
      ∃ q', MakeQuery U ord (tupleClause <$> fs') = Ret q' ∧ q' ≡ₚ filterOf <$> fs.
Proof.
  assert (H : ∀ l, MakeQuery U ord (tupleClause <$> l) = Ret (filterOf <$> l)).
  { intros l. rewrite MakeQuery_compileFrom. apply compileFrom_tuples. }
  split; [apply H|]. intros fs' Hp. exists (filterOf <$> fs').
  split; [apply H|]. by rewrite Hp.
Qed.

(** X2.  When [MakeQuery] returns a query, every clause of the sequence
    was a [[]any] of at least three elements whose first two are
    strings, or a [map[string]any]: on any other clause (nil, a string,
    a [[]string], a tuple that is too short, a path that is not a
    string) it panics. *)
Theorem MakeQuery_returns_wellFormed (ord : MapOrder) (condition : list value)
    (q : Query) :
  MakeQuery U ord condition = Ret q → Forall wellFormed condition.
Proof.
  intros Hrun. apply Forall_lookup. intros i c Hc.
  unfold MakeQuery in Hrun.
  assert (Hin : (i, c) ∈ imap pair condition).
  { apply list_elem_of_lookup. exists i. by rewrite list_lookup_imap, Hc. }
  destruct (foldM_Ret_step _ _ _ _ (i, c) Hrun Hin) as (x & y & Hstep).
  unfold compileClause in Hstep.
  destruct c as [|b|n|s|l|l|m|k ty id]; simpl in Hstep; try done.
  - destruct l as [|[] [|[] [|v l]]]; simpl in Hstep; done.
  - destruct k; done.
Qed.

(** Clauses that are well formed and not final compile without a
    panic. *)
Lemma compileFrom_wellFormed (ord : MapOrder) (len idx : nat) (q : Query)
    (pre : list value) :
  Forall wellFormed pre → idx + length pre < len →
  ∃ q', compileFrom U ord len idx q pre = Ret q'.
Proof.
  intros Hwf. revert idx q. induction Hwf as [|c pre Hc _ IH]; intros idx q Hlen.
  - by exists q.
  - rewrite compileFrom_cons. simpl in Hlen.
    assert (∃ q1, compileClause U ord len q (idx, c) = Ret q1) as (q1 & ->).
    { destruct c as [|b|n|s|l|l|m|k ty id]; try done.
      - destruct l as [|[] [|[] [|v l]]]; try done. by eexists.
      - rewrite compileClause_mapping_inner by lia. by eexists. }
    simpl. apply IH. lia.
Qed.

(** X3.  A clause that is neither a slice nor a map (nil included) stops
    [MakeQuery] with the panic "unhandled default case", whatever
    follows it, when the clauses before it are well formed. *)
Theorem MakeQuery_unhandled_clause (ord : MapOrder) (pre post : list value)
    (c : value) :
  Forall wellFormed pre →
  ValueOf_Kind c ≠ KSlice → ValueOf_Kind c ≠ KMap →
  MakeQuery U ord (pre ++ c :: post) = Panic (Explicit "unhandled default case").
Proof.
  intros Hpre Hs Hm. rewrite MakeQuery_compileFrom, compileFrom_app.
  destruct (compileFrom_wellFormed ord (length (pre ++ c :: post)) 0 [] pre Hpre)
    as (q & ->).
  { rewrite length_app. simpl. lia. }
  simpl. rewrite compileFrom_cons. unfold compileClause.
  by destruct (ValueOf_Kind c).
Qed.

Lemma compileClause_perm (ord1 ord2 : MapOrder) (len : nat) (qa qb q1 : Query)
    (clause : nat * value) :
  qa ≡ₚ qb → compileClause U ord1 len qa clause = Ret q1 →
  ∃ q2, compileClause U ord2 len qb clause = Ret q2 ∧ q1 ≡ₚ q2.
Proof.
  intros Hq. destruct clause as [idx c]. unfold compileClause.
  destruct c as [|b|n|s|l|l|m|k ty id]; simpl; try done.
  - destruct l as [|[] [|[] [|v l]]]; simpl; try done.
    intros [= <-]. eexists. split; [done|]. by rewrite Hq.
  - destruct (negb _).
    + rewrite !applyEquality_fold. intros [= <-]. eexists. split; [done|].
      by rewrite Hq, !(rangeOver_perm _).
    + apply foldM_perm; [apply applyModifier_shift| |done].
      by rewrite !(rangeOver_perm _).
  - destruct k; done.
Qed.

Lemma compileFrom_perm (ord1 ord2 : MapOrder) (len idx : nat) (qa qb q1 : Query)
    (l : list value) :
  qa ≡ₚ qb → compileFrom U ord1 len idx qa l = Ret q1 →
  ∃ q2, compileFrom U ord2 len idx qb l = Ret q2 ∧ q1 ≡ₚ q2.
Proof.
  revert idx qa qb. induction l as [|c l IH]; intros idx qa qb Hq.
  - intros [= <-]. by exists qb.
  - rewrite !compileFrom_cons. intros Hrun.
    apply bind_inv in Hrun as (qa' & Hc & Hrun).
    destruct (compileClause_perm ord1 ord2 len qa qb qa' (idx, c) Hq Hc)
      as (qb' & -> & Hq').
    simpl. by apply (IH (S idx) qa' qb').
Qed.

(** X4.  The iteration order of maps decides the order of the calls a
    mapping gives rise to and nothing else: when [MakeQuery] returns a
    query under one order, it returns one under any other, made of the
    same builder calls. *)
Theorem MakeQuery_order_of_maps (ord1 ord2 : MapOrder) (condition : list value)
    (q1 : Query) :
  MakeQuery U ord1 condition = Ret q1 →
  ∃ q2, MakeQuery U ord2 condition = Ret q2 ∧ q1 ≡ₚ q2.
Proof. rewrite !MakeQuery_compileFrom. by apply compileFrom_perm. Qed.

(** X5.  When [MakeQuery] returns a query for a sequence that ends in a
    mapping, the values of the mapping had the types the switch asserts:
    an [int] under [limit] and [offset] (in any casing); under [orderBy]
    a value that is not nil and that is a [string] if its kind is String
    and a [[]string] if its kind is Slice. On anything else ([int64] or
    a float for a limit, [[]any] for the order) it panics. *)
Theorem MakeQuery_final_mapping_types (ord : MapOrder) (cond : list value)
    (m : gmap string value) (q : Query) :
  MakeQuery U ord (cond ++ [VMap m]) = Ret q →
  ∀ key val, m !! key = Some val →
    (ToLower U key = "limit" ∨ ToLower U key = "offset" → ∃ n, val = VInt n)
    ∧ (ToLower U key = "orderby" →
         val ≠ VNil
         ∧ (ValueOf_Kind val = KString → ∃ s, val = VString s)
         ∧ (ValueOf_Kind val = KSlice → ∃ l, val = VStrings l)).
Proof.
  intros Hrun key val Hkey. rewrite MakeQuery_snoc_mapping in Hrun.
  apply bind_inv in Hrun as (q0 & _ & Hrun).
  assert (Hin : (key, val) ∈ rangeOver ord m).
  { rewrite (rangeOver_perm ord). by apply elem_of_map_to_list. }
  destruct (foldM_Ret_step _ _ _ _ (key, val) Hrun Hin) as (x & y & Hstep).
  unfold applyModifier in Hstep. split.
  - intros [Hk|Hk]; rewrite Hk in Hstep; simpl in Hstep;
      destruct val; try done; by eexists.
  - intros Hk. rewrite Hk in Hstep. simpl in Hstep.
    destruct val as [|b|n|s|l|l|m'|k ty id]; simpl in Hstep; try done;
      split_and!; try done; try (by eexists).
    + intros Hkind. simpl in Hkind. unfold ValueOf_Kind in Hkind. simpl in Hkind.
      subst k. done.
    + intros Hkind. unfold ValueOf_Kind in Hkind. simpl in Hkind. subst k. done.
Qed.

(** X6.  The order specs of a final mapping are applied in the order of
    their sequence, each through [parseOrderBy]; a spec that yields no
    field is skipped, none makes the loop panic; and a single spec given
    as a string counts as the sequence of that one spec. *)
Theorem MakeQuery_orderBy_sequence (ord : MapOrder)
    (fs : list (string * string * value)) (key : string) :
  ToLower U key = "orderby" →
  (∀ obs, MakeQuery U ord ((tupleClause <$> fs) ++ [VMap {[ key := VStrings obs ]}])
          = Ret ((filterOf <$> fs) ++ omap (orderByOf U) obs))
  ∧ (∀ ob, MakeQuery U ord ((tupleClause <$> fs) ++ [VMap {[ key := VString ob ]}])
           = Ret ((filterOf <$> fs) ++ omap (orderByOf U) [ob])).
Proof.
  intros Hkey. split.
  - intros obs. rewrite MakeQuery_snoc_mapping, compileFrom_tuples. simpl.
    rewrite rangeOver_singleton. simpl. rewrite Hkey. simpl.
    by rewrite addOrderBy_fold.
  - intros ob. rewrite MakeQuery_snoc_mapping, compileFrom_tuples. simpl.
    rewrite rangeOver_singleton. simpl. rewrite Hkey. simpl.
    rewrite addOrderBy_orderByOf. by destruct (orderByOf U ob).
Qed.

End CompilerExtras.

(** ** Order specs *)

Lemma Split_no_sep (s : string) (sep : ascii) :
  hasByte sep s = false → Split s sep = [s].
Proof.
  induction s as [|c s IH]; simpl; [done|].
  intros [Hc Hs]%orb_false_elim. rewrite Hc, (IH Hs). done.
Qed.

Lemma Split_sep (f d : string) (sep : ascii) :
  hasByte sep f = false → Split (f +:+ String sep d) sep = f :: Split d sep.
Proof.
  induction f as [|c f IH]; simpl.
  - intros _. by rewrite Ascii.eqb_refl.
  - intros [Hc Hf]%orb_false_elim. rewrite Hc, (IH Hf). done.
Qed.

Lemma Split_head (d rest : string) (sep : ascii) :
  hasByte sep d = false → ∃ l, Split (d +:+ String sep rest) sep = d :: l.
Proof. intros Hd. rewrite Split_sep by done. by eexists. Qed.

Lemma append_sep_nonempty (f d : string) (sep : ascii) :
  String.eqb (f +:+ String sep d) "" = false.
Proof. by destruct f. Qed.

(** ** The final mapping *)

Section FinalMapping.

Variable U : Unicode.

(** A spec [field:direction], and a spec that is a field alone. *)
Lemma parseOrderBy_pair (f d : string) :
  hasByte ":" f = false → hasByte ":" d = false →
  parseOrderBy U (f +:+ ":" +:+ d)
  = Ret (Some {| Field := TrimSpace U f;
                 Direction := if String.eqb (TrimSpace U (ToLower U d)) "desc"
                              then Desc else Asc |}).
Proof.
  intros Hf Hd. change (f +:+ ":" +:+ d) with (f +:+ String ":" d).
  unfold parseOrderBy. rewrite append_sep_nonempty, Split_sep by done.
  rewrite (Split_no_sep d) by done. simpl.
  destruct (String.eqb_spec (TrimSpace U (ToLower U d)) "asc") as [->|_]; [done|].
  by destruct (String.eqb (TrimSpace U (ToLower U d)) "desc").
Qed.

Lemma parseOrderBy_single (f : string) :
  f ≠ "" → hasByte ":" f = false →
  parseOrderBy U f = Ret (Some {| Field := TrimSpace U f; Direction := Asc |}).
Proof.
  intros Hne Hf. unfold parseOrderBy.
  destruct (String.eqb_spec f ""); [done|].
  by rewrite Split_no_sep.
Qed.

Lemma length_pos_nonempty (s : string) : s ≠ "" → Nat.ltb 0 (String.length s) = true.
Proof. by destruct s. Qed.

(** C3.  When the final clause of a condition sequence is a mapping,
    [MakeQuery] compiles the clauses before it and then hands every
    entry of the mapping to the modifier switch.  The switch looks at
    the lower-cased key only (so the casing of a key is immaterial, and
    on ASCII keys lower-casing is the bytewise one); a key whose
    lower-cased form is outside the seven recognized names leaves the
    query as it is, without failing; whatever an entry adds is a
    modifier call, never a filter; and each recognized name adds its
    own modifier, in lower case and in the casing of the recognized
    set alike: [Limit] and [Offset] for limit and offset, the cursor
    calls for startAt, startAfter, endAt and endBefore, and for orderBy
    one [OrderBy] call for each order spec that names a field, with
    the field and the direction of the spec, in the order of the
    specs.  So the options of the README example add their order to
    the two filters, and a final mapping with a field name for a key
    adds no filter. *)
Theorem MakeQuery_final_mapping_modifiers (ord : MapOrder)
    (cond : list value) (m : gmap string value) :
  MakeQuery U ord (cond ++ [VMap m]) =
    (q ← compileFrom U ord (S (length cond)) 0 [] cond;
     foldM (applyModifier U) q (rangeOver ord m))
  ∧ (∀ q key key' val, ToLower U key = ToLower U key' →
       applyModifier U q (key, val) = applyModifier U q (key', val))
  ∧ (∀ key, isASCII key = true → ToLower U key = lowerASCII key)
  ∧ (∀ q key val, ToLower U key ∉ recognizedKeys →
       applyModifier U q (key, val) = Ret q)
  ∧ (∀ q key val q', applyModifier U q (key, val) = Ret q' →
       ∃ mods, q' = q ++ mods ∧ Forall (λ c, isModifier c = true) mods)
  ∧ (∀ q n, applyModifier U q ("limit", VInt n) = Ret (q ++ [QLimit n]))
  ∧ (∀ q n, applyModifier U q ("offset", VInt n) = Ret (q ++ [QOffset n]))
  ∧ (∀ q val, applyModifier U q ("startat", val) = Ret (q ++ [QStartAt val]))
  ∧ (∀ q val, applyModifier U q ("startafter", val) = Ret (q ++ [QStartAfter val]))
  ∧ (∀ q val, applyModifier U q ("endat", val) = Ret (q ++ [QEndAt val]))
  ∧ (∀ q val, applyModifier U q ("endbefore", val) = Ret (q ++ [QEndBefore val]))
  ∧ (∀ q s, applyModifier U q ("orderby", VString s) = addOrderBy U q s)
  ∧ (∀ q l, applyModifier U q ("orderby", VStrings l) = foldM (addOrderBy U) q l)
  (* the keys in another casing *)
  ∧ (∀ q n, applyModifier U q ("Limit", VInt n) = Ret (q ++ [QLimit n]))
  ∧ (∀ q n, applyModifier U q ("OFFSET", VInt n) = Ret (q ++ [QOffset n]))
  ∧ (∀ q val, applyModifier U q ("startAt", val) = Ret (q ++ [QStartAt val]))
  ∧ (∀ q val, applyModifier U q ("startAfter", val) = Ret (q ++ [QStartAfter val]))
  ∧ (∀ q val, applyModifier U q ("endAt", val) = Ret (q ++ [QEndAt val]))
  ∧ (∀ q val, applyModifier U q ("endBefore", val) = Ret (q ++ [QEndBefore val]))
  (* the order-by calls *)
  ∧ (∀ q f d, hasByte ":" f = false → hasByte ":" d = false → TrimSpace U f ≠ "" →
       applyModifier U q ("orderBy", VString (f +:+ ":" +:+ d))
       = Ret (q ++ [QOrderBy (TrimSpace U f)
                      (if String.eqb (TrimSpace U (ToLower U d)) "desc"
                       then Desc else Asc)]))
  ∧ (∀ q f, hasByte ":" f = false → TrimSpace U f ≠ "" →
       applyModifier U q ("orderBy", VString f)
       = Ret (q ++ [QOrderBy (TrimSpace U f) Asc]))
  ∧ (∀ q l, applyModifier U q ("orderBy", VStrings l)
            = Ret (q ++ omap (orderByOf U) l))
  ∧ (∀ q, applyModifier U q ("ORDERBY", VStrings ["createdAt:desc"; ""; "name"])
          = Ret (q ++ [QOrderBy "createdAt" Desc; QOrderBy "name" Asc]))
  (* whole sequences *)
  ∧ MakeQuery U ord (exampleFilters ++ [VMap {[ "orderBy" := VString "createdAt:desc" ]}])
    = Ret [QWhere "deletedAt" "==" VNil; QWhere "uid" "==" (VString "abc");
           QOrderBy "createdAt" Desc]
  ∧ MakeQuery U ord (exampleFilters ++ [VMap {[ "Limit" := VInt 5 ]}])
    = Ret [QWhere "deletedAt" "==" VNil; QWhere "uid" "==" (VString "abc"); QLimit 5]
  ∧ MakeQuery U ord (exampleFilters ++ [VMap {[ "name" := VString "John Doe" ]}])
    = Ret [QWhere "deletedAt" "==" VNil; QWhere "uid" "==" (VString "abc")].
Proof.
  assert (Hsingle : ∀ key val,
            MakeQuery U ord (exampleFilters ++ [VMap {[ key := val ]}])
            = applyModifier U [QWhere "deletedAt" "==" VNil;
                               QWhere "uid" "==" (VString "abc")] (key, val)).
  { intros key val. rewrite MakeQuery_snoc_mapping, rangeOver_singleton.
    change (compileFrom U ord (S (length exampleFilters)) 0 [] exampleFilters)
      with (Ret [QWhere "deletedAt" "==" VNil; QWhere "uid" "==" (VString "abc")]
              : outcome Query).
    rewrite bind_Ret, foldM_cons.
    by destruct (applyModifier U [QWhere "deletedAt" "==" VNil;
                                  QWhere "uid" "==" (VString "abc")] (key, val)). }
  assert (Hpair : ∀ q f d, hasByte ":" f = false → hasByte ":" d = false →
            TrimSpace U f ≠ "" →
            applyModifier U q ("orderBy", VString (f +:+ ":" +:+ d))
            = Ret (q ++ [QOrderBy (TrimSpace U f)
                           (if String.eqb (TrimSpace U (ToLower U d)) "desc"
                            then Desc else Asc)])).
  { intros q f d Hf Hd Hne.
    change (applyModifier U q ("orderBy", VString (f +:+ ":" +:+ d)))
      with (addOrderBy U q (f +:+ ":" +:+ d)).
    unfold addOrderBy. rewrite parseOrderBy_pair by done. simpl.
    by rewrite length_pos_nonempty. }
  split_and!; try done.
  - apply MakeQuery_snoc_mapping.
  - intros q key key' val Heq. unfold applyModifier. by rewrite Heq.
  - intros key Hkey. unfold ToLower. by rewrite Hkey.
  - apply applyModifier_ignored.
  - intros q key val q'. apply applyModifier_extends.
  - intros q f Hf Hne.
    change (applyModifier U q ("orderBy", VString f)) with (addOrderBy U q f).
    assert (Hf0 : f ≠ "") by (intros ->; by apply Hne).
    unfold addOrderBy. rewrite parseOrderBy_single by done. simpl.
    by rewrite length_pos_nonempty.
  - intros q l.
    change (applyModifier U q ("orderBy", VStrings l))
      with (foldM (addOrderBy U) q l).
    apply addOrderBy_fold.
  - intros q.
    change (applyModifier U q ("ORDERBY", VStrings ["createdAt:desc"; ""; "name"]))
      with (foldM (addOrderBy U) q ["createdAt:desc"; ""; "name"]).
    by rewrite addOrderBy_fold.
Qed.

End FinalMapping.

Section OrderSpecs.

Variable U : Unicode.

(** X7.  [parseOrderBy] returns on every string (the second segment it
    indexes is always there): nil on the empty string and on that one
    only. *)
Theorem parseOrderBy_returns (orderBy : string) :
  (orderBy = "" ∧ parseOrderBy U orderBy = Ret None)
  ∨ (orderBy ≠ "" ∧ ∃ o, parseOrderBy U orderBy = Ret (Some o)).
Proof.
  destruct (parseOrderBy_Ret U orderBy) as (r & Hr).
  destruct (String.eqb_spec orderBy "") as [->|Hne]; [by left|right].
  split; [done|]. rewrite Hr. unfold parseOrderBy in Hr.
  destruct (String.eqb_spec orderBy ""); [done|].
  destruct r as [o|]; [by exists o|].
  repeat (apply bind_inv in Hr as (? & _ & Hr)). by repeat case_match.
Qed.

(** X8.  An order spec [field:direction]: the field is the first segment
    with its white space trimmed; the direction is descending when the
    second segment, lower-cased and trimmed, is "desc", and ascending in
    every other case, also when there is no second segment; what follows
    a second colon is not looked at. *)
Theorem parseOrderBy_field_direction (f d rest : string) :
  hasByte ":" f = false → hasByte ":" d = false →
  let dir := if String.eqb (TrimSpace U (ToLower U d)) "desc" then Desc else Asc in
  parseOrderBy U (f +:+ ":" +:+ d)
    = Ret (Some {| Field := TrimSpace U f; Direction := dir |})
  ∧ parseOrderBy U (f +:+ ":" +:+ d +:+ ":" +:+ rest)
    = Ret (Some {| Field := TrimSpace U f; Direction := dir |})
  ∧ (f ≠ "" →
     parseOrderBy U f = Ret (Some {| Field := TrimSpace U f; Direction := Asc |})).
Proof.
  intros Hf Hd dir. subst dir. split_and!.
  - change (f +:+ ":" +:+ d) with (f +:+ String ":" d).
    unfold parseOrderBy. rewrite append_sep_nonempty, Split_sep by done.
    rewrite (Split_no_sep d) by done. simpl.
    destruct (String.eqb_spec (TrimSpace U (ToLower U d)) "asc") as [->|_]; [done|].
    by destruct (String.eqb (TrimSpace U (ToLower U d)) "desc").
  - change (f +:+ ":" +:+ d +:+ ":" +:+ rest)
      with (f +:+ String ":" (d +:+ String ":" rest)).
    unfold parseOrderBy. rewrite append_sep_nonempty, Split_sep by done.
    destruct (Split_head d rest ":" Hd) as (l & ->). simpl.
    destruct (String.eqb_spec (TrimSpace U (ToLower U d)) "asc") as [->|_]; [done|].
    by destruct (String.eqb (TrimSpace U (ToLower U d)) "desc").
  - intros Hne. unfold parseOrderBy.
    destruct (String.eqb_spec f ""); [done|].
    rewrite Split_no_sep by done. done.
Qed.

End OrderSpecs.

(** ** Listing and the helpers on lists of documents *)

(** X9.  The documents [ListDocs] returns are the responses made of the
    snapshots the query yields, one for each and in their order: each
    holds the ID and the path of its snapshot under [_id] and [_ref]
    (whatever the document stores under these names) and the stored
    fields under every other name. An error of the query is returned as
    it is, with no documents. *)
Theorem ListDocs_responses (U : Unicode) (ord : MapOrder)
    (db : Firestore DocumentSnapshot) (condition : list value) (q : Query)
    (snaps : list DocumentSnapshot) (e : error) :
  MakeQuery U ord condition = Ret q →
  Documents_GetAll db q = (snaps, e) →
  match e with
  | Some e => ListDocs U ord db makeDocResponse condition = Ret ([], Some e)
  | None =>
      ∃ docs, ListDocs U ord db makeDocResponse condition = Ret (docs, None)
        ∧ length docs = length snaps
        ∧ ∀ i snap, snaps !! i = Some snap →
            ∃ doc, docs !! i = Some doc
              ∧ doc !! "_id" = Some (CScalar (SString (Ref_ID snap)))
              ∧ doc !! "_ref" = Some (CScalar (SString (Ref_Path snap)))
              ∧ ∀ k, k ≠ "_id" → k ≠ "_ref" → doc !! k = Data snap !! k
  end.
Proof.
  intros Hq Hget. unfold ListDocs. rewrite Hq. simpl. rewrite Hget.
  destruct e as [e|]; [done|].
  rewrite docSnapsDataToMap_map. eexists. split; [done|].
  split; [by rewrite length_fmap|]. intros i snap Hi.
  exists (makeDocResponse snap). rewrite list_lookup_fmap, Hi.
  split; [done|]. unfold makeDocResponse, lo_Assign. split_and!.
  - apply lookup_union_Some_l. by simplify_map_eq.
  - apply lookup_union_Some_l. by simplify_map_eq.
  - intros k H1 H2. apply lookup_union_r. by simplify_map_eq.
Qed.

Section CallbackFacts.

Context {Doc S : Type}.

Lemma FilterDocs_loop (filter : Doc → S → outcome (bool * S)) (docs acc r : list Doc)
    (s s' : S) :
  foldM (λ '(filtered, s) doc,
           '(keep, s) ← filter doc s;
           if keep : bool then Ret (filtered ++ [doc], s) else Ret (filtered, s))
        (acc, s) docs = Ret (r, s') →
  ∃ r', r = acc ++ r' ∧ sublist r' docs.
Proof.
  revert acc s. induction docs as [|doc docs IH]; intros acc s Hrun; simpl in Hrun.
  - inversion Hrun; subst. exists []. by rewrite app_nil_r.
  - apply bind_inv in Hrun as ([acc1 s1] & Hstep & Hrun).
    apply bind_inv in Hstep as ([keep s2] & _ & Hstep).
    apply IH in Hrun as (r' & -> & Hsub).
    destruct keep; inversion Hstep; subst.
    + exists (doc :: r'). rewrite <- app_assoc. split; [done|].
      by apply sublist_skip.
    + exists r'. split; [done|]. by apply sublist_cons.
Qed.

(** X10.  What [FilterDocs] returns is a sublist of its argument:
    documents of the argument, in their order, whatever the filter does
    besides answering; with a filter that only answers, it is the
    documents on which the answer is true. *)
Theorem FilterDocs_selects (docs : list Doc) :
  (∀ (filter : Doc → S → outcome (bool * S)) s r s',
     FilterDocs docs filter s = Ret (r, s') → sublist r docs)
  ∧ (∀ (p : Doc → bool) (s : S),
       FilterDocs docs (λ doc s, Ret (p doc, s)) s = Ret (List.filter p docs, s)).
Proof.
  split.
  - intros filter s r s' Hrun. apply FilterDocs_loop in Hrun as (r' & -> & Hsub).
    done.
  - intros p s. unfold FilterDocs.
    cut (∀ acc, foldM (λ '(filtered, s) doc,
                         '(keep, s) ← Ret (p doc, s);
                         if keep : bool then Ret (filtered ++ [doc], s)
                         else Ret (filtered, s)) (acc, s) docs
                = Ret (acc ++ List.filter p docs, s)).
    { intros H. apply (H []). }
    induction docs as [|doc docs IH]; intros acc; simpl.
    + by rewrite app_nil_r.
    + destruct (p doc); simpl; rewrite IH; [|done]. by rewrite <- app_assoc.
Qed.

(** X11.  [TransformsDocs] returns as many documents as it is given;
    with a transform that only computes, they are the images of the
    given ones, in their order. *)
Theorem TransformsDocs_maps (docs : list Doc) :
  (∀ (transform : Doc → S → outcome (Doc * S)) s r s',
     TransformsDocs docs transform s = Ret (r, s') → length r = length docs)
  ∧ (∀ (f : Doc → Doc) (s : S),
       TransformsDocs docs (λ doc s, Ret (f doc, s)) s = Ret (f <$> docs, s)).
Proof.
  split.
  - intros transform s r s'. unfold TransformsDocs.
    cut (∀ acc, foldM (λ '(transformed, s) doc,
                         '(d, s) ← transform doc s;
                         Ret (transformed ++ [d], s)) (acc, s) docs = Ret (r, s') →
                length r = length acc + length docs).
    { intros H Hrun. by apply H in Hrun. }
    revert s. induction docs as [|doc docs IH]; intros s acc Hrun; simpl in Hrun.
    + inversion Hrun; subst. simpl. lia.
    + apply bind_inv in Hrun as ([acc1 s1] & Hstep & Hrun).
      apply bind_inv in Hstep as ([d s2] & _ & Hstep). inversion Hstep; subst.
      apply IH in Hrun. rewrite Hrun, length_app. simpl. lia.
  - intros f s. unfold TransformsDocs.
    cut (∀ acc, foldM (λ '(transformed, s) doc,
                         '(d, s) ← Ret (f doc, s);
                         Ret (transformed ++ [d], s)) (acc, s) docs
                = Ret (acc ++ (f <$> docs), s)).
    { intros H. apply (H []). }
    induction docs as [|doc docs IH]; intros acc; simpl.
    + by rewrite app_nil_r.
    + rewrite IH. by rewrite <- app_assoc.
Qed.

End CallbackFacts.

(** ** Pages *)

(** X12.  For a count that is not negative and a positive page size, the
    number of pages [PaginateWithCount] reports is zero for no documents
    and otherwise the least number of pages that hold the count: the
    last page is not empty. *)
Theorem totalPage_covers (count perPage : Z) :
  (0 ≤ count < 2 ^ 63)%Z → (0 < perPage)%Z →
  (count = 0 → totalPage count perPage = 0)%Z
  ∧ (0 < count →
     (totalPage count perPage - 1) * perPage < count
     ∧ count ≤ totalPage count perPage * perPage)%Z.
Proof.
  intros Hc Hp. rewrite totalPage_ceiling by done.
  pose proof (Z.div_mod (count + perPage - 1) perPage ltac:(lia)) as Hdm.
  pose proof (Z.mod_pos_bound (count + perPage - 1) perPage Hp) as Hmod.
  split.
  - intros ->. apply Z.div_small. lia.
  - intros Hpos. nia.
Qed.

(** ** Writing documents *)

Section WriterFacts.

Context {WriteResult : Type}.
Variable client : Writes WriteResult.
Variable clock : nat → cell.

(** The run of [AddDocWithId] on a map of the store, in one piece. *)
Lemma AddDocWithId_run (id uid : option string) (l : loc) (m : gmap string cell)
    (w : world) :
  heap w !! l = Some (OMap m) →
  let ref := default (NewDoc_ID client (minted w)) id in
  let m' :=
    <[ IdFieldName := CScalar (SString ref) ]>
      (<[ DeletedAtFieldName := CNil ]>
         (<[ UpdatedAtFieldName := clock (S (ticks w)) ]>
            (<[ CreatedAtFieldName := clock (ticks w) ]>
               (match uid with
                | Some u => <[ UidFieldName := CScalar (SString u) ]> m
                | None => m
                end)))) in
  let w' := {| heap := <[ l := OMap m' ]> (heap w);
               ticks := S (S (ticks w)); minted := S (minted w) |} in
  AddDocWithId client clock id uid (Some l) w =
    Ret (match Doc_Set client ref (heap w') (Some l) false with
         | inr e => (None, None, Some e, w')
         | inl result => (Some ref, Some result, None, w')
         end).
Proof.
  intros Hl ref m' w'. subst ref m' w'.
  assert (Hlt : l < length (heap w)) by (by apply lookup_lt_Some in Hl).
  unfold AddDocWithId, assignEntry, mapAssign, readMap.
  destruct uid as [u|]; simpl; rewrite Hl; simpl;
    repeat (rewrite list_lookup_insert_eq by (by rewrite ?length_insert); simpl);
    rewrite !list_insert_insert_eq;
    by destruct (Doc_Set _ _ _ _ _).
Qed.

(** X13.  [AddDocWithId] writes the managed fields into the map it is
    given, over whatever the caller has put there: the ID of the
    document under [id], two successive readings of the clock under
    [createdAt] and [updatedAt], nil under [deletedAt], and the user
    under [uid] when one is given. Every other field and every other
    object stay as they were. The map is then handed to [Set] for the
    document of that ID, without merge; it keeps the managed fields also
    when [Set] fails, in which case no reference is returned. *)
Theorem AddDocWithId_managed_fields (id uid : option string) (l : loc)
    (m : gmap string cell) (w : world) :
  heap w !! l = Some (OMap m) →
  let ref := default (NewDoc_ID client (minted w)) id in
  ∃ m' w',
    AddDocWithId client clock id uid (Some l) w =
      Ret (match Doc_Set client ref (heap w') (Some l) false with
           | inr e => (None, None, Some e, w')
           | inl result => (Some ref, Some result, None, w')
           end)
    ∧ heap w' !! l = Some (OMap m')
    ∧ (∀ l', l' ≠ l → heap w' !! l' = heap w !! l')
    ∧ ticks w' = S (S (ticks w))
    ∧ m' !! IdFieldName = Some (CScalar (SString ref))
    ∧ m' !! CreatedAtFieldName = Some (clock (ticks w))
    ∧ m' !! UpdatedAtFieldName = Some (clock (S (ticks w)))
    ∧ m' !! DeletedAtFieldName = Some CNil
    ∧ m' !! UidFieldName
      = match uid with Some u => Some (CScalar (SString u)) | None => m !! UidFieldName end
    ∧ ∀ k, k ∉ [IdFieldName; UidFieldName; CreatedAtFieldName; UpdatedAtFieldName;
                DeletedAtFieldName] → m' !! k = m !! k.
Proof.
  intros Hl ref. eexists _, _. split; [exact (AddDocWithId_run id uid l m w Hl)|].
  assert (Hlt : l < length (heap w)) by (by apply lookup_lt_Some in Hl).
  simpl. split_and!.
  - by apply list_lookup_insert_eq.
  - intros l' Hne. by apply list_lookup_insert_ne.
  - done.
  - by simplify_map_eq.
  - by simplify_map_eq.
  - by simplify_map_eq.
  - by simplify_map_eq.
  - destruct uid; by simplify_map_eq.
  - intros k Hk. rewrite !not_elem_of_cons in Hk.
    destruct Hk as (? & ? & ? & ? & ? & _).
    destruct uid; by simplify_map_eq.
Qed.

(** X14.  [AddDoc] names the document by the first of the given prefixes
    (the empty string when there is none) followed by an ID the client
    makes up, and stores that name in the field [id] of the map, where
    [DeleteDocs] and [BatchDocs] look for it. [AddDocData] is [AddDoc]
    without a user. *)
Theorem AddDoc_names_document (uid : option string) (l : loc) (m : gmap string cell)
    (docIdPrefix : list string) (w : world) :
  heap w !! l = Some (OMap m) →
  let id := hd "" docIdPrefix +:+ NewDoc_ID client (minted w) in
  ∃ m' w',
    AddDoc client clock uid (Some l) docIdPrefix w =
      Ret (match Doc_Set client id (heap w') (Some l) false with
           | inr e => (None, None, Some e, w')
           | inl result => (Some id, Some result, None, w')
           end)
    ∧ heap w' !! l = Some (OMap m')
    ∧ m' !! IdFieldName = Some (CScalar (SString id))
    ∧ AddDocData client clock (Some l) docIdPrefix w
      = AddDoc client clock None (Some l) docIdPrefix w.
Proof.
  intros Hl id. unfold AddDoc.
  assert (Hid : (if Nat.ltb 0 (length docIdPrefix)
                 then default "" (docIdPrefix !! 0) else "") = hd "" docIdPrefix)
    by (by destruct docIdPrefix).
  rewrite Hid. fold id.
  eexists _, _. split; [|split_and!].
  - exact (AddDocWithId_run (Some id) uid l m
             {| heap := heap w; ticks := ticks w; minted := S (minted w) |} Hl).
  - simpl. apply list_lookup_insert_eq. by apply lookup_lt_Some in Hl.
  - by simplify_map_eq.
  - unfold AddDocData, AddDoc. by rewrite Hid.
Qed.

(** X15.  On the nil map every write panics at its first assignment,
    before anything is sent. *)
Theorem writes_on_nil_map (id uid : option string) (docIdPrefix : list string)
    (doc : string) (w : world) :
  let nilMap := Explicit "assignment to entry in nil map" in
  AddDocWithId client clock id uid None w = Panic nilMap
  ∧ AddDoc client clock uid None docIdPrefix w = Panic nilMap
  ∧ AddDocData client clock None docIdPrefix w = Panic nilMap
  ∧ UpdateDoc client clock doc None w = Panic nilMap.
Proof. by destruct uid. Qed.

(** X16.  [UpdateDoc] puts a reading of the clock under [updatedAt] in
    the map it is given, over whatever the caller has put there, changes
    no other field and no other object, and hands the map to [Set] with
    [MergeAll]. *)
Theorem UpdateDoc_stamps (id : string) (l : loc) (m : gmap string cell) (w : world) :
  heap w !! l = Some (OMap m) →
  ∃ m' w',
    UpdateDoc client clock id (Some l) w
      = Ret (Doc_Set client id (heap w') (Some l) true, w')
    ∧ heap w' !! l = Some (OMap m')
    ∧ (∀ l', l' ≠ l → heap w' !! l' = heap w !! l')
    ∧ ticks w' = S (ticks w)
    ∧ m' !! UpdatedAtFieldName = Some (clock (ticks w))
    ∧ ∀ k, k ≠ UpdatedAtFieldName → m' !! k = m !! k.
Proof.
  intros Hl. unfold UpdateDoc, assignEntry, mapAssign, readMap. rewrite Hl. simpl.
  exists (<[ UpdatedAtFieldName := clock (ticks w) ]> m),
    {| heap := <[ l := OMap (<[ UpdatedAtFieldName := clock (ticks w) ]> m) ]> (heap w);
       ticks := S (ticks w); minted := minted w |}.
  split; [done|]. simpl. split_and!.
  - apply list_lookup_insert_eq. by apply lookup_lt_Some in Hl.
  - intros l' Hne. by apply list_lookup_insert_ne.
  - done.
  - by simplify_map_eq.
  - intros k Hk. by simplify_map_eq.
Qed.

(** X17.  [DeleteDoc] looks at the first flag only. When it is true the
    document is not deleted: a new map that holds two successive
    readings of the clock under [deletedAt] and [updatedAt], and nothing
    else, is merged into it. Otherwise, and when no flag is given, the
    document is deleted and nothing is written. *)
Theorem DeleteDoc_soft_or_hard (id : string) (w : world) :
  (∀ rest,
     let data : gmap string cell :=
       <[ UpdatedAtFieldName := clock (S (ticks w)) ]>
         {[ DeletedAtFieldName := clock (ticks w) ]} in
     let st := heap w ++ [OMap data] in
     DeleteDoc client clock id (true :: rest) w
       = Ret (Doc_Set client id st (Some (length (heap w))) true,
              {| heap := st; ticks := S (S (ticks w)); minted := minted w |}))
  ∧ (∀ rest, DeleteDoc client clock id (false :: rest) w = Ret (Doc_Delete client id, w))
  ∧ DeleteDoc client clock id [] w = Ret (Doc_Delete client id, w).
Proof.
  split_and!; try done.
  intros rest data st. subst data st.
  unfold DeleteDoc, UpdateDoc, alloc, assignEntry, mapAssign, readMap. simpl.
  rewrite list_lookup_middle by done. simpl.
  rewrite insert_app_r_alt by done. rewrite Nat.sub_diag. done.
Qed.

End WriterFacts.

(** ** Deleting the documents of a query *)

Lemma errors_Join_all_Some (errs : list error) :
  Forall is_Some errs →
  ∃ es, length es = length errs
        ∧ errors_Join errs = match es with [] => None | _ => Some (ErrJoin es) end.
Proof.
  intros Hall. exists (omap id errs). split.
  - induction Hall as [|e errs [e' ->] _ IH]; [done|].
    assert (Hcons : omap id (Some e' :: errs) = e' :: omap id errs) by done.
    rewrite Hcons. simpl. by rewrite IH.
  - unfold errors_Join. by destruct (omap id errs).
Qed.

Lemma makeDocResponse_id (snap : DocumentSnapshot) :
  makeDocResponse snap !! IdFieldName = Data snap !! IdFieldName.
Proof. unfold makeDocResponse, lo_Assign. apply lookup_union_r. by simplify_map_eq. Qed.

Section DeleterFacts.

Context {Job WriteResult : Type}.
Variable U : Unicode.
Variable ord : MapOrder.
Variable db : Firestore DocumentSnapshot.
Variable bw : BulkWriter Job WriteResult.
Variable Bulk_Delete : string → Job + err.
Variable clock : nat → cell.

Lemma deleteJob_loop (softDelete : bool) (docs : list (gmap string cell)) :
  Forall hasId docs →
  ∀ errs jobs t,
    ∃ errs' jobs' t',
      foldM (deleteJob bw Bulk_Delete clock softDelete) (errs, jobs, t) docs
        = Ret (errs ++ errs', jobs ++ jobs', t')
      ∧ Forall is_Some errs'
      ∧ length errs' + length jobs' = length docs.
Proof.
  induction 1 as [|doc docs [s Hs] _ IH]; intros errs jobs t.
  - exists [], [], t. by rewrite !app_nil_r.
  - simpl. rewrite Hs. simpl.
    destruct (if negb softDelete then _ else _) as [[job|e] t1]; simpl.
    + destruct (IH errs (jobs ++ [job]) t1) as (errs' & jobs' & t' & -> & Hall & Hlen).
      exists errs', (job :: jobs'), t'. rewrite <- app_assoc. simpl.
      split_and!; [done|done|lia].
    + destruct (IH (errs ++ [Some e]) jobs t1) as (errs' & jobs' & t' & -> & Hall & Hlen).
      exists (Some e :: errs'), jobs', t'. rewrite <- app_assoc. simpl.
      split_and!; [done| |lia]. by constructor.
Qed.

Lemma deleteJob_panics (softDelete : bool) (docs : list (gmap string cell))
    (acc : list error * list Job * nat) :
  Exists (λ doc, ¬ hasId doc) docs →
  foldM (deleteJob bw Bulk_Delete clock softDelete) acc docs = Panic TypeAssertion.
Proof.
  intros Hex. revert acc.
  induction docs as [|doc docs IH]; intros [[errs jobs] t]; [by inversion Hex|].
  simpl.
  destruct (default CNil (doc !! IdFieldName)) as [|[b|n|n|fl|s|ty i]|l|e a off len cap|ty p]
    eqn:Hid; simpl; try done.
  assert (Hdoc : hasId doc).
  { exists s. destruct (doc !! IdFieldName) as [c|]; simpl in Hid; by subst. }
  apply Exists_cons in Hex as [Hno|Hex]; [done|].
  destruct (if negb softDelete then _ else _) as [[job|e] t1]; simpl; by apply IH.
Qed.

Lemma collectJob_loop (jobs : list Job) :
  ∀ errs results,
    ∃ errs' results',
      foldl (collectJob bw) (errs, results) jobs = (errs ++ errs', results ++ results')
      ∧ Forall is_Some errs'
      ∧ length errs' + length results' = length jobs.
Proof.
  induction jobs as [|job jobs IH]; intros errs results.
  - exists [], []. by rewrite !app_nil_r.
  - simpl. destruct (Job_Results bw job) as [r|e].
    + destruct (IH errs (results ++ [r])) as (errs' & results' & -> & Hall & Hlen).
      exists errs', (r :: results'). rewrite <- app_assoc. simpl.
      split_and!; [done|done|lia].
    + destruct (IH (errs ++ [Some e]) results) as (errs' & results' & -> & Hall & Hlen).
      exists (Some e :: errs'), results'. rewrite <- app_assoc. simpl.
      split_and!; [done| |lia]. by constructor.
Qed.

(** X18.  When every document of the query holds a string under [id],
    [DeleteDocs] returns, and it accounts for each document: the number
    of results and the number of errors joined in the error add up to
    the number of documents.  When the query yields no document the
    error is "not found". *)
Theorem DeleteDocs_accounts_for_all (condition : list value)
    (isSoftDelete : list bool) (t : nat) (q : Query) (snaps : list DocumentSnapshot) :
  MakeQuery U ord condition = Ret q →
  Documents_GetAll db q = (snaps, None) →
  Forall (λ snap, hasId (Data snap)) snaps →
  match snaps with
  | [] =>
      DeleteDocs U ord db bw Bulk_Delete clock condition isSoftDelete t
        = Ret ([], Some (ErrNew "not found"), t)
  | _ =>
      ∃ results es t',
        DeleteDocs U ord db bw Bulk_Delete clock condition isSoftDelete t
          = Ret (results, match es with [] => None | _ => Some (ErrJoin es) end, t')
        ∧ length results + length es = length snaps
  end.
Proof.
  intros Hq Hget Hids. unfold DeleteDocs, ListDocs. rewrite Hq. simpl.
  rewrite Hget. simpl. rewrite docSnapsDataToMap_map.
  destruct snaps as [|snap snaps]; [done|].
  set (docs := makeDocResponse <$> snap :: snaps).
  assert (Hlen : length docs = length (snap :: snaps)) by apply length_fmap.
  destruct (Nat.eqb_spec (length docs) 0) as [H0|_]; [by rewrite Hlen in H0|].
  assert (Hdocs : Forall hasId docs).
  { subst docs. apply Forall_fmap. eapply Forall_impl; [exact Hids|].
    intros s [i Hi]. exists i. simpl. by rewrite makeDocResponse_id. }
  destruct (deleteJob_loop
              (Nat.ltb 0 (length isSoftDelete) && default false (isSoftDelete !! 0))
              docs Hdocs [] [] t)
    as (errs1 & jobs & t' & -> & Hall1 & Hlen1).
  simpl.
  destruct (collectJob_loop jobs errs1 []) as (errs2 & results & -> & Hall2 & Hlen2).
  simpl.
  destruct (errors_Join_all_Some (errs1 ++ errs2)) as (es & Hes & ->).
  { by apply Forall_app. }
  exists results, es, t'. split; [done|].
  rewrite Hes, length_app. rewrite Hlen in Hlen1. simpl in Hlen1. simpl. lia.
Qed.

(** X19.  When a document of the query holds no string under [id] (it
    was not written by [AddDoc]), [DeleteDocs] panics on the type
    assertion and returns nothing. *)
Theorem DeleteDocs_needs_id (condition : list value) (isSoftDelete : list bool)
    (t : nat) (q : Query) (snaps : list DocumentSnapshot) (snap : DocumentSnapshot) :
  MakeQuery U ord condition = Ret q →
  Documents_GetAll db q = (snaps, None) →
  snap ∈ snaps → ¬ hasId (Data snap) →
  DeleteDocs U ord db bw Bulk_Delete clock condition isSoftDelete t
    = Panic TypeAssertion.
Proof.
  intros Hq Hget Hin Hno. unfold DeleteDocs, ListDocs. rewrite Hq. simpl.
  rewrite Hget. simpl. rewrite docSnapsDataToMap_map.
  destruct (Nat.eqb_spec (length (makeDocResponse <$> snaps)) 0) as [H0|_].
  { rewrite length_fmap in H0. destruct snaps; [by apply elem_of_nil in Hin|done]. }
  rewrite deleteJob_panics; [done|].
  apply Exists_exists. exists (makeDocResponse snap). split.
  - by apply list_elem_of_fmap_2.
  - intros [s Hs]. apply Hno. exists s. by rewrite <- makeDocResponse_id.
Qed.

End DeleterFacts.

(** ** The groups of a batch *)

Lemma chunks_concat {A} (l : list A) (sz k : nat) :
  concat (map (λ i, take (Nat.min ((i + 1) * sz) (length l) - i * sz)
                         (drop (i * sz) l)) (seq 0 k))
  = take (k * sz) l.
Proof.
  induction k as [|k IH]; [done|].
  rewrite seq_S, map_app, concat_app, IH. simpl. rewrite app_nil_r, take_take_drop.
  destruct (decide ((k + 1) * sz ≤ length l)) as [Hle|Hgt].
  - f_equal. lia.
  - rewrite !take_ge; [done|lia|lia].
Qed.

Lemma lo_Chunk_cover {A} (l : list A) (size : Z) :
  (0 < size)%Z →
  ∃ chunks, lo_Chunk l size = Ret chunks
            ∧ concat chunks = l
            ∧ Forall (λ c, 1 ≤ length c ≤ Z.to_nat size) chunks.
Proof.
  intros Hsize. unfold lo_Chunk.
  destruct (Z.leb_spec size 0) as [|_]; [lia|].
  set (sz := Z.to_nat size). assert (Hsz : 0 < sz) by (subst sz; lia).
  set (n := length l).
  set (k := if Nat.eqb (n `mod` sz) 0 then n `div` sz else S (n `div` sz)).
  pose proof (Nat.div_mod_eq n sz) as Hdm.
  pose proof (Nat.mod_upper_bound n sz ltac:(lia)) as Hmod.
  assert (Hk : n ≤ k * sz ∧ (k = 0 ∨ (k - 1) * sz < n)).
  { subst k. destruct (Nat.eqb_spec (n `mod` sz) 0) as [H0|Hn0].
    - split; [nia|]. destruct (n `div` sz) as [|d] eqn:Hd; [by left|right]. nia.
    - split; [nia|]. right. simpl. nia. }
  eexists. split; [done|]. split.
  - subst n. rewrite chunks_concat. apply take_ge. lia.
  - apply Forall_forall. intros c Hc.
    apply list_elem_of_fmap in Hc as (i & -> & Hi). apply elem_of_seq in Hi.
    rewrite length_take, length_drop. fold n. nia.
Qed.

Lemma lo_Chunk_small {A} (g : list A) (size : Z) :
  1 ≤ length g ≤ Z.to_nat size → lo_Chunk g size = Ret [g].
Proof.
  intros Hg. unfold lo_Chunk.
  destruct (Z.leb_spec size 0) as [|_]; [lia|].
  set (sz := Z.to_nat size) in *.
  assert (Hk : (if Nat.eqb (length g `mod` sz) 0 then length g `div` sz
                else S (length g `div` sz)) = 1).
  { destruct (decide (length g = sz)) as [->|Hne].
    - rewrite Nat.Div0.mod_same, Nat.div_same by lia. done.
    - rewrite Nat.mod_small, Nat.div_small by lia.
      destruct (Nat.eqb_spec (length g) 0); [lia|done]. }
  rewrite Hk. simpl. rewrite Nat.add_0_r, Nat.sub_0_r, Nat.min_r by lia.
  by rewrite take_ge.
Qed.

Section BatchExtras.

Context {Job WriteResult : Type}.
Variable U : Unicode.
Variable ord : MapOrder.
Variable db : Firestore loc.
Variable bw : BulkWriter Job WriteResult.
Variable now : cell.

Lemma batchEach500Docs_group (fuel : nat) (batchFn : option transform)
    (g : list loc) (st : store) :
  1 ≤ length g ≤ 500 →
  batchEach500Docs ord bw now fuel g batchFn st =
    ('(errs, jobs, st) ← foldM (enqueueDoc ord bw now fuel batchFn) ([], [], st) g;
     let '(errs, results) := foldl (collectJob bw) (errs, []) jobs in
     Ret (results, errors_Join errs, st)).
Proof.
  intros Hg. unfold batchEach500Docs.
  destruct (Nat.eqb_spec (length g) 0) as [|_]; [lia|].
  rewrite lo_Chunk_small by (change (Z.to_nat 500) with 500; lia). done.
Qed.

(** X20.  [BatchDocs] cuts the listed documents into consecutive groups
    that together are the listing, each of at least one document and at
    most 500. On such a group the guard of [batchEach500Docs] against an
    empty group and its own cut to the first 500 documents change
    nothing: it runs its two loops on the group as it is. *)
Theorem BatchDocs_groups (fuel : nat) (batchFn : option transform) (docs : list loc) :
  ∃ groups,
    lo_Chunk docs 500 = Ret groups
    ∧ concat groups = docs
    ∧ Forall (λ g, 1 ≤ length g ≤ 500) groups
    ∧ Forall (λ g, ∀ st,
        batchEach500Docs ord bw now fuel g batchFn st =
          ('(errs, jobs, st) ←
             foldM (enqueueDoc ord bw now fuel batchFn) ([], [], st) g;
           let '(errs, results) := foldl (collectJob bw) (errs, []) jobs in
           Ret (results, errors_Join errs, st))) groups.
Proof.
  destruct (lo_Chunk_cover docs 500 ltac:(lia)) as (groups & Hchunk & Hcat & Hsize).
  exists groups. split_and!; try done.
  eapply Forall_impl; [exact Hsize|]. intros g Hg st.
  by apply batchEach500Docs_group.
Qed.

End BatchExtras.

(** ** Documents that the transform leaves as they are *)

Lemma extends_refl (st : store) : extends st st.
Proof. by split. Qed.

Lemma extends_snoc (st s : store) (o : object) : extends st s → extends st (s ++ [o]).
Proof.
  intros [H1 H2]. split; [rewrite length_app; lia|].
  intros l Hl. rewrite lookup_app_l by lia. by apply H2.
Qed.

Lemma SFeqb_refl (f : spec_float) :
  SFeqb f f = negb (isNaN (CScalar (SFloat64 f))).
Proof.
  unfold SFeqb, SFcompare.
  destruct f as [s|s| |s m e]; try done; destruct s; try done;
    by rewrite Z.compare_refl, Pos.compare_cont_refl.
Qed.

(** Compared with itself, a value that is no map and no slice differs
    when it is a NaN, and then only. *)
Lemma ifaceNeq_flat (v : cell) : flat v → ifaceNeq v v = Ret (isNaN v).
Proof.
  destruct v as [|[b|n|n|f|s|ty i]| | |ty p]; try done; intros _;
    unfold ifaceNeq, equalValues; simpl;
    rewrite ?bool_decide_eq_true_2 by done; try done.
  rewrite SFeqb_refl. by destruct f.
Qed.

Lemma deepCopyMap_flat_value (ord : MapOrder) (fuel : nat) (v : cell) (s : store) :
  flat v → deepCopyMap ord (S fuel) v s = Ret (v, s).
Proof. by destruct v. Qed.

Lemma foldM_omap {A B} (f : list A → B → outcome (list A)) (g : B → option A)
    (l : list B) (acc : list A) :
  (∀ acc b, b ∈ l → f acc b = Ret (acc ++ option_list (g b))) →
  foldM f acc l = Ret (acc ++ omap g l).
Proof.
  revert acc. induction l as [|b l IH]; intros acc Hf; simpl.
  - by rewrite app_nil_r.
  - rewrite Hf by left. simpl. rewrite IH by (intros acc' b' Hb'; apply Hf; by right).
    destruct (g b); simpl; by rewrite <- ?app_assoc, ?app_nil_r.
Qed.

Lemma omap_none {A B} (g : B → option A) (l : list B) :
  (∀ b, b ∈ l → g b = None) → omap g l = [].
Proof.
  induction l as [|b l IH]; intros Hg; [done|].
  assert (Hcons : omap g (b :: l) = match g b with
                                     | Some a => a :: omap g l
                                     | None => omap g l
                                     end) by done.
  rewrite Hcons, (Hg b) by left. apply IH. intros b' Hb'. apply Hg. by right.
Qed.

Section FlatDocs.

Variable ord : MapOrder.

#[local] Opaque deepCopyMap.

Lemma copyMap_loop_flat (fuel : nat) (src dst : loc) (st : store)
    (entries : gmap string cell) :
  st !! src = Some (OMap entries) → length st ≤ dst →
  ∀ keys s m,
    extends st s → s !! dst = Some (OMap m) →
    (∀ k, k ∈ keys → flat (default CNil (entries !! k))) →
    ∃ m',
      foldM (λ st key,
               v ← mapIndex st (Some src) key;
               '(c, st) ← deepCopyMap ord (S fuel) v st;
               match c with
               | CNil => mapDelete st dst key
               | _ => mapAssign st dst key c
               end) s keys = Ret (<[ dst := OMap m' ]> s)
      ∧ (∀ k, k ∈ keys → default CNil (m' !! k) = default CNil (entries !! k))
      ∧ (∀ k, k ∉ keys → m' !! k = m !! k).
Proof.
  intros Hsrc Hdst keys.
  induction keys as [|key keys IH]; intros s m Hs Hm Hflat.
  { exists m. rewrite list_insert_id by done. split; [done|]. split; [|done].
    intros k Hk. by apply elem_of_nil in Hk. }
  assert (Hlt : src < length st) by (by apply lookup_lt_Some in Hsrc).
  assert (Hlen : dst < length s) by (by apply lookup_lt_Some in Hm).
  assert (Hidx : mapIndex s (Some src) key = Ret (default CNil (entries !! key))).
  { unfold mapIndex, readMap. by rewrite (proj2 Hs src Hlt), Hsrc. }
  assert (Hv : flat (default CNil (entries !! key))) by (apply Hflat; left).
  match goal with |- context [foldM ?g s (key :: keys)] => set (f := g) in * end.
  assert (∃ m1, f s key = Ret (<[ dst := OMap m1 ]> s)
                ∧ default CNil (m1 !! key) = default CNil (entries !! key)
                ∧ ∀ k, k ≠ key → m1 !! k = m !! k) as (m1 & Hstep & Hkey & Hother).
  { subst f. cbv beta. rewrite Hidx, bind_Ret, deepCopyMap_flat_value, bind_Ret by done.
    destruct (default CNil (entries !! key)) as [|sc| | |ty p]; try done; cbv beta iota;
      unfold mapDelete, mapAssign, readMap; rewrite Hm, bind_Ret;
      eexists; (split; [done|]); split;
      first [ by rewrite lookup_delete_eq
            | by rewrite lookup_insert_eq
            | intros k Hk; by rewrite lookup_delete_ne
            | intros k Hk; by rewrite lookup_insert_ne ]. }
  destruct (IH (<[ dst := OMap m1 ]> s) m1) as (m' & Hrun & Hin & Hout).
  - by apply extends_update.
  - by apply list_lookup_insert_eq.
  - intros k Hk. apply Hflat. by right.
  - exists m'. rewrite foldM_cons, Hstep, bind_Ret, Hrun, list_insert_insert_eq.
    split; [done|]. split.
    + intros k Hk. destruct (decide (k ∈ keys)) as [Hk'|Hk']; [by apply Hin|].
      apply elem_of_cons in Hk as [->|Hk]; [|done]. by rewrite (Hout key Hk').
    + intros k Hk. apply not_elem_of_cons in Hk as [Hne Hk].
      rewrite (Hout k Hk). by apply Hother.
Qed.

#[local] Transparent deepCopyMap.

Lemma deepCopyMap_flat_map (fuel : nat) (l : loc) (st : store)
    (entries : gmap string cell) :
  st !! l = Some (OMap entries) → map_Forall (λ _ c, flat c) entries →
  ∃ m', deepCopyMap ord (S (S fuel)) (CMap l) st = Ret (CMap (length st), st ++ [OMap m'])
        ∧ ∀ k, default CNil (m' !! k) = default CNil (entries !! k).
Proof.
  intros Hl Hflat. rewrite deepCopyMap_unfold. unfold readMap at 1.
  rewrite Hl, bind_Ret. unfold alloc. cbv beta iota.
  destruct (copyMap_loop_flat fuel l (length st) st entries Hl (le_n _)
              (rangeOver ord entries).*1 (st ++ [OMap ∅]) ∅)
    as (m' & -> & Hin & Hout).
  - by apply extends_snoc, extends_refl.
  - by apply list_lookup_middle.
  - intros k Hk. apply list_elem_of_fmap in Hk as ([k' v] & -> & Hkv).
    rewrite (rangeOver_perm ord) in Hkv. apply elem_of_map_to_list in Hkv.
    simpl. rewrite Hkv. simpl. by apply (Hflat k' v).
  - exists m'. rewrite bind_Ret.
    rewrite insert_app_r_alt, Nat.sub_diag by done. split; [done|].
    intros k. destruct (entries !! k) as [v|] eqn:Hk.
    + rewrite <- Hk. apply Hin. apply list_elem_of_fmap.
      exists (k, v). split; [done|].
      rewrite (rangeOver_perm ord). by apply elem_of_map_to_list.
    + rewrite Hout; [done|]. intros Hin'.
      apply list_elem_of_fmap in Hin' as ([k' v] & -> & Hkv).
      rewrite (rangeOver_perm ord) in Hkv. apply elem_of_map_to_list in Hkv.
      simpl in Hk. congruence.
Qed.

Lemma makeUpdateData_flat (fuel : nat) (oldDoc : loc) (batchFn : option transform)
    (st s : store) (entries : gmap string cell) :
  st !! oldDoc = Some (OMap entries) →
  map_Forall (λ _ c, flat c) entries →
  changesNothing batchFn → extends st s →
  ∃ copy, makeUpdateData ord (S (S fuel)) oldDoc batchFn s
          = Ret (omap nanUpdate (rangeOver ord entries), s ++ [OMap copy]).
Proof.
  intros Hdoc Hflat Hfn Hs.
  assert (Hlt : oldDoc < length st) by (by apply lookup_lt_Some in Hdoc).
  assert (Hdoc' : s !! oldDoc = Some (OMap entries)) by (by rewrite (proj2 Hs)).
  destruct (deepCopyMap_flat_map fuel oldDoc s entries Hdoc' Hflat) as (m' & Hcopy & Hm').
  exists m'. unfold makeUpdateData. rewrite Hcopy, !bind_Ret. cbv beta iota.
  assert (Hafter : match batchFn with
                   | Some f => f (length s) (s ++ [OMap m'])
                   | None => Ret (Some (length s), s ++ [OMap m'])
                   end = Ret (Some (length s), s ++ [OMap m'])).
  { destruct batchFn as [f|]; [apply Hfn|done]. }
  rewrite Hafter, bind_Ret. cbv beta iota.
  unfold readMap at 1. rewrite lookup_app_l by (by apply lookup_lt_Some in Hdoc').
  rewrite Hdoc', bind_Ret.
  rewrite (foldM_omap _ nanUpdate); [done|].
  intros acc [key oldVal] Hin. rewrite (rangeOver_perm ord) in Hin.
  apply elem_of_map_to_list in Hin. unfold diffEntry, nanUpdate. cbn [fst snd].
  destruct (String.eqb key IdFieldName); [by rewrite app_nil_r|].
  unfold mapIndex, readMap. rewrite list_lookup_middle by done. rewrite !bind_Ret.
  rewrite Hm', Hin. simpl. rewrite ifaceNeq_flat by (by apply (Hflat key)).
  rewrite bind_Ret. destruct (isNaN oldVal); [done|]. by rewrite app_nil_r.
Qed.

(** X21.  On a document whose fields hold no map and no slice (nil,
    scalars and pointers only), a transform that returns its argument
    as it is, or no transform at all, gives a delta of the fields that
    hold a NaN under a name other than [id] (a NaN differs from itself)
    and of no other field: the empty delta when no field holds a NaN.
    All [makeUpdateData] does to the store is to add the copy. *)
Theorem makeUpdateData_changes_nothing (fuel : nat) (oldDoc : loc)
    (batchFn : option transform) (st : store) (entries : gmap string cell) :
  st !! oldDoc = Some (OMap entries) →
  map_Forall (λ _ c, flat c) entries →
  changesNothing batchFn →
  ∃ copy, makeUpdateData ord (S (S fuel)) oldDoc batchFn st
          = Ret (omap nanUpdate (rangeOver ord entries), st ++ [OMap copy])
          ∧ (∀ k, default CNil (copy !! k) = default CNil (entries !! k))
          ∧ (map_Forall (λ _ c, isNaN c = false) entries →
             omap nanUpdate (rangeOver ord entries) = [])
          ∧ (∀ k v, entries !! k = Some v → k ≠ IdFieldName → isNaN v = true →
               {| Path := k; Value := v |} ∈ omap nanUpdate (rangeOver ord entries)).
Proof.
  intros Hdoc Hflat Hfn.
  destruct (deepCopyMap_flat_map fuel oldDoc st entries Hdoc Hflat) as (m' & Hcopy & Hm').
  destruct (makeUpdateData_flat fuel oldDoc batchFn st st entries Hdoc Hflat Hfn
              (extends_refl st)) as (copy & Hrun).
  exists copy. split; [done|]. split_and!.
  - unfold makeUpdateData in Hrun. rewrite Hcopy, !bind_Ret in Hrun.
    cbv beta iota in Hrun.
    apply bind_inv in Hrun as ([afterDoc st2] & Hafter & Hrun).
    assert (st2 = st ++ [OMap m']) as ->.
    { destruct batchFn as [f|]; [rewrite Hfn in Hafter|]; by inversion Hafter. }
    apply bind_inv in Hrun as (? & _ & Hrun).
    apply bind_inv in Hrun as (? & _ & Hrun). inversion Hrun as [[Hups Hst]].
    apply app_inj_tail in Hst as [_ [= ->]]. done.
  - intros Hnan. apply omap_none. intros [key v] Hin.
    rewrite (rangeOver_perm ord) in Hin. apply elem_of_map_to_list in Hin.
    unfold nanUpdate. cbn [fst snd]. rewrite (Hnan key v Hin).
    by destruct (String.eqb key IdFieldName).
  - intros k v Hk Hne Hnan. apply list_elem_of_omap. exists (k, v). split.
    + rewrite (rangeOver_perm ord). by apply elem_of_map_to_list.
    + unfold nanUpdate. cbn [fst snd]. rewrite Hnan.
      by destruct (String.eqb_spec k IdFieldName).
Qed.

End FlatDocs.

Section BatchUnchanged.

Context {Job WriteResult : Type}.
Variable U : Unicode.
Variable ord : MapOrder.
Variable db : Firestore loc.
Variable bw : BulkWriter Job WriteResult.
Variable now : cell.

Lemma enqueueDoc_flat_one (fuel : nat) (batchFn : option transform) (st0 s : store)
    (doc : loc) (errs : list error) (jobs : list Job) :
  changesNothing batchFn → flatDocument st0 doc → extends st0 s →
  ∃ copy, enqueueDoc ord bw now (S (S fuel)) batchFn (errs, jobs, s) doc
          = Ret (errs, jobs, s ++ [OMap copy]).
Proof.
  intros Hfn (entries & Hdoc & Hflat & Hnan & [id Hid]) Hs.
  assert (Hlt : doc < length st0) by (by apply lookup_lt_Some in Hdoc).
  assert (Hidx : mapIndex s (Some doc) IdFieldName = Ret (CScalar (SString id))).
  { unfold mapIndex, readMap. by rewrite (proj2 Hs doc Hlt), Hdoc, bind_Ret, Hid. }
  destruct (makeUpdateData_flat ord fuel doc batchFn st0 s entries Hdoc Hflat Hfn Hs)
    as (copy & Hdelta).
  assert (Hnone : omap nanUpdate (rangeOver ord entries) = []).
  { apply omap_none. intros [key v] Hin.
    rewrite (rangeOver_perm ord) in Hin. apply elem_of_map_to_list in Hin.
    unfold nanUpdate. cbn [fst snd]. rewrite (Hnan key v Hin).
    by destruct (String.eqb key IdFieldName). }
  rewrite Hnone in Hdelta.
  exists copy. unfold enqueueDoc. by rewrite Hidx, !bind_Ret, Hdelta.
Qed.

Lemma enqueueDoc_flat (fuel : nat) (batchFn : option transform) (st0 : store)
    (g : list loc) :
  changesNothing batchFn → Forall (flatDocument st0) g →
  ∀ errs jobs s, extends st0 s →
    ∃ s', foldM (enqueueDoc ord bw now (S (S fuel)) batchFn) (errs, jobs, s) g
          = Ret (errs, jobs, s')
          ∧ extends st0 s'.
Proof.
  intros Hfn. induction 1 as [|doc g Hdoc _ IH]; intros errs jobs s Hs.
  - by exists s.
  - destruct (enqueueDoc_flat_one fuel batchFn st0 s doc errs jobs Hfn Hdoc Hs)
      as (copy & Hstep).
    rewrite foldM_cons, Hstep, bind_Ret. apply IH. by apply extends_snoc.
Qed.

Lemma batchGroup_flat (fuel : nat) (batchFn : option transform) (st0 : store)
    (groups : list (list loc)) :
  changesNothing batchFn →
  Forall (λ g, 1 ≤ length g ≤ 500) groups →
  Forall (Forall (flatDocument st0)) groups →
  ∀ s, extends st0 s →
    ∃ s', foldM (batchGroup ord bw now (S (S fuel)) batchFn) ([], [], s) groups
          = Ret ([], [], s')
          ∧ extends st0 s'.
Proof.
  intros Hfn Hsize. induction Hsize as [|g groups Hg _ IH]; intros Hflat s Hs.
  - by exists s.
  - apply Forall_cons in Hflat as [Hgflat Hflat].
    destruct (enqueueDoc_flat fuel batchFn st0 g Hfn Hgflat [] [] s Hs)
      as (s1 & Hloop & Hs1).
    assert (Hstep : batchGroup ord bw now (S (S fuel)) batchFn ([], [], s) g
                    = Ret ([], [], s1)).
    { unfold batchGroup. rewrite (batchEach500Docs_group ord bw now) by done.
      by rewrite Hloop. }
    rewrite foldM_cons, Hstep, bind_Ret. by apply IH.
Qed.

(** X22.  Over a listing, not empty, of documents whose fields hold no
    map, no slice and no NaN, with a string under [id], [BatchDocs]
    with a transform that returns its argument as it is, or with no
    transform, skips every document: whatever the bulk writer, it
    returns no result and no error, and every object of the store is as
    it was. *)
Theorem BatchDocs_changes_nothing (fuel : nat) (condition : list value)
    (batchFn : option transform) (st : store) (q : Query) (docs : list loc) :
  MakeQuery U ord condition = Ret q →
  Documents_GetAll db q = (docs, None) → docs ≠ [] →
  Forall (flatDocument st) docs →
  changesNothing batchFn →
  ∃ st', BatchDocs U ord db bw now (S (S fuel)) condition batchFn st
         = Ret ([], None, st')
         ∧ extends st st'.
Proof.
  intros Hq Hget Hne Hflat Hfn. unfold BatchDocs, ListDocs.
  rewrite Hq, bind_Ret, Hget. cbv beta iota. rewrite docSnapsDataToMap_map, list_fmap_id.
  rewrite bind_Ret. cbv beta iota.
  destruct (Nat.eqb_spec (length docs) 0) as [H0|_]; [by destruct docs|].
  destruct (lo_Chunk_cover docs 500 ltac:(lia)) as (groups & -> & Hcat & Hsize).
  rewrite bind_Ret.
  destruct (batchGroup_flat fuel batchFn st groups Hfn Hsize) with (s := st)
    as (st' & -> & Hst').
  - apply Forall_concat. by rewrite Hcat.
  - apply extends_refl.
  - by exists st'.
Qed.

(** X23.  When the first of the listed documents holds no string under
    [id], [BatchDocs] panics on the type assertion, whatever the
    transform: the assertion comes before the transform is applied. *)
Theorem BatchDocs_needs_id (fuel : nat) (condition : list value)
    (batchFn : option transform) (st : store) (q : Query) (doc : loc)
    (docs : list loc) (entries : gmap string cell) :
  MakeQuery U ord condition = Ret q →
  Documents_GetAll db q = (doc :: docs, None) →
  st !! doc = Some (OMap entries) → ¬ hasId entries →
  BatchDocs U ord db bw now fuel condition batchFn st = Panic TypeAssertion.
Proof.
  intros Hq Hget Hdoc Hno. unfold BatchDocs, ListDocs.
  rewrite Hq, bind_Ret, Hget. cbv beta iota. rewrite docSnapsDataToMap_map, list_fmap_id.
  rewrite bind_Ret. cbv beta iota. simpl length. cbv beta iota.
  change (Nat.eqb (S (length docs)) 0) with false. cbv iota.
  destruct (lo_Chunk_cover (doc :: docs) 500 ltac:(lia)) as (groups & -> & Hcat & Hsize).
  rewrite bind_Ret.
  destruct groups as [|g groups]; [done|].
  apply Forall_cons in Hsize as [Hg _].
  destruct g as [|d g]; [simpl in Hg; lia|].
  simpl in Hcat. injection Hcat as -> _.
  assert (Hstep : enqueueDoc ord bw now fuel batchFn ([], [], st) doc
                  = Panic TypeAssertion).
  { unfold enqueueDoc, mapIndex, readMap. rewrite Hdoc, !bind_Ret.
    destruct (entries !! IdFieldName) as [[|[b|n|n|fl|s|ty i]|l|e a off len cap|ty p]|] eqn:Hid;
      try done.
    destruct Hno. by exists s. }
  assert (Hgroup : batchGroup ord bw now fuel batchFn ([], [], st) (doc :: g)
                   = Panic TypeAssertion).
  { unfold batchGroup. rewrite (batchEach500Docs_group ord bw now) by done.
    by rewrite foldM_cons, Hstep. }
  by rewrite foldM_cons, Hgroup.
Qed.

End BatchUnchanged.

(** ** What the deep copy holds *)

Lemma foldM_Ret_step_inv {A B} (I : A → Prop) (f : A → B → outcome A) (l : list B)
    (a a' : A) (b : B) :
  (∀ x c y, I x → f x c = Ret y → I y) → I a →
  foldM f a l = Ret a' → b ∈ l → ∃ x y, I x ∧ f x b = Ret y.
Proof.
  intros Hstep. revert a. induction l as [|b' l IH]; intros a Ha Hrun Hin.
  - by apply elem_of_nil in Hin.
  - simpl in Hrun. apply bind_inv in Hrun as (y & Hy & Hrun).
    apply elem_of_cons in Hin as [->|Hin]; [by exists a, y|].
    apply (IH y); [|done..]. by apply (Hstep a b').
Qed.

Lemma deepCopyMap_shape (ord : MapOrder) (fuel : nat) (v c : cell) (s s' : store) :
  deepCopyMap ord fuel v s = Ret (c, s') →
  match v with
  | CNil => c = CNil
  | CScalar _ | CPtr _ _ => c = v
  | CMap _ => c = CMap (length s)
  | CSlice e _ _ len cap => c = CSlice e (length s) 0 len cap
  end.
Proof.
  destruct fuel as [|fuel]; [done|]. rewrite deepCopyMap_unfold.
  destruct v as [|sc|l|e a off len cap|ty p]; intros Hrun; try (by inversion Hrun).
  - apply bind_inv in Hrun as (entries & _ & Hrun). unfold alloc in Hrun.
    apply bind_inv in Hrun as (s1 & _ & Hrun). by inversion Hrun.
  - apply bind_inv in Hrun as (cells & _ & Hrun). unfold alloc in Hrun.
    apply bind_inv in Hrun as (s1 & _ & Hrun). by inversion Hrun.
Qed.

Section CopyEntries.

Variable ord : MapOrder.

#[local] Opaque deepCopyMap.

Lemma copyMap_loop_entries (fuel : nat) (src dst : loc) (st : store)
    (entries : gmap string cell) :
  st !! src = Some (OMap entries) → length st ≤ dst →
  ∀ keys s s' m,
    extends st s → s !! dst = Some (OMap m) →
    foldM (λ st key,
             v ← mapIndex st (Some src) key;
             '(c, st) ← deepCopyMap ord fuel v st;
             match c with
             | CNil => mapDelete st dst key
             | _ => mapAssign st dst key c
             end) s keys = Ret s' →
    ∃ m', s' !! dst = Some (OMap m')
          ∧ (∀ k, k ∈ keys → copiedEntry dst (entries !! k) (m' !! k))
          ∧ (∀ k, k ∉ keys → m' !! k = m !! k).
Proof.
  intros Hsrc Hdst keys.
  induction keys as [|key keys IH]; intros s s' m Hs Hm Hrun.
  { simpl in Hrun. inversion Hrun; subst. exists m. split; [done|].
    split; [|done]. intros k Hk. by apply elem_of_nil in Hk. }
  rewrite foldM_cons in Hrun. apply bind_inv in Hrun as (s1 & Hstep & Hrun).
  assert (Hlt : src < length st) by (by apply lookup_lt_Some in Hsrc).
  assert (Hlen : dst < length s) by (by apply lookup_lt_Some in Hm).
  assert (Hidx : mapIndex s (Some src) key = Ret (default CNil (entries !! key))).
  { unfold mapIndex, readMap. by rewrite (proj2 Hs src Hlt), Hsrc. }
  rewrite Hidx, bind_Ret in Hstep.
  apply bind_inv in Hstep as ([c s2] & Hcopy & Hstep).
  pose proof (deepCopyMap_post ord _ _ _ _ Hcopy) as [G _]. simpl in G.
  pose proof (deepCopyMap_shape ord _ _ _ _ _ Hcopy) as Hshape.
  assert (Hs2 : extends st s2) by (by apply (extends_grown st s s2)).
  assert (Hm2 : s2 !! dst = Some (OMap m)) by (by rewrite (grown_frame _ _ _ _ G)).
  set (m1 := match c with CNil => delete key m | _ => <[ key := c ]> m end).
  assert (Hs1 : s1 = <[ dst := OMap m1 ]> s2).
  { subst m1. destruct c; unfold mapDelete, mapAssign, readMap in Hstep;
      rewrite Hm2 in Hstep; by inversion Hstep. }
  assert (Hkey : copiedEntry dst (entries !! key) (m1 !! key)).
  { subst m1. unfold copiedEntry.
    destruct (entries !! key) as [[|sc|l|e a off len cap|ty p]|]; simpl in Hshape; subst c.
    - by rewrite lookup_delete_eq.
    - by rewrite lookup_insert_eq.
    - rewrite lookup_insert_eq. by eexists.
    - rewrite lookup_insert_eq. by eexists.
    - by rewrite lookup_insert_eq.
    - by rewrite lookup_delete_eq. }
  assert (Hother : ∀ k, k ≠ key → m1 !! k = m !! k).
  { intros k Hk. subst m1.
    destruct c; [by rewrite lookup_delete_ne|by rewrite lookup_insert_ne..]. }
  subst s1.
  apply (IH _ _ m1) in Hrun as (m' & Hm' & Hin & Hout);
    [|by apply extends_update
     |apply list_lookup_insert_eq; by apply lookup_lt_Some in Hm2].
  exists m'. split; [done|]. split.
  - intros k Hk. destruct (decide (k ∈ keys)) as [Hk'|Hk']; [by apply Hin|].
    apply elem_of_cons in Hk as [->|Hk]; [|done]. by rewrite (Hout key Hk').
  - intros k Hk. apply not_elem_of_cons in Hk as [Hne Hk].
    rewrite (Hout k Hk). by apply Hother.
Qed.

(** X24.  The copy of a map is a new map. Under a key where the source
    holds nil it holds nothing: the key is dropped. Under a key where
    the source holds a scalar or a pointer it holds that scalar or that
    pointer. Under a key where
    the source holds a map or a slice it holds a map, or a slice of the
    same element type, length and capacity, allocated in the course of
    the copy. It has no other keys. *)
Theorem deepCopyMap_map_entries (fuel : nat) (l : loc) (st st' : store) (copy : cell)
    (entries : gmap string cell) :
  st !! l = Some (OMap entries) →
  deepCopyMap ord fuel (CMap l) st = Ret (copy, st') →
  ∃ m', copy = CMap (length st)
        ∧ st' !! length st = Some (OMap m')
        ∧ ∀ k, copiedEntry (length st) (entries !! k) (m' !! k).
Proof.
  intros Hl Hrun. destruct fuel as [|fuel]; [done|].
  rewrite deepCopyMap_unfold in Hrun. unfold readMap at 1 in Hrun.
  rewrite Hl, bind_Ret in Hrun. unfold alloc in Hrun. cbv beta iota in Hrun.
  apply bind_inv in Hrun as (s' & Hloop & Hrun). inversion Hrun; subst.
  apply (copyMap_loop_entries fuel l (length st) st entries Hl (le_n _) _ _ _ ∅)
    in Hloop as (m' & Hm' & Hin & Hout).
  - exists m'. split; [done|]. split; [done|]. intros k.
    destruct (entries !! k) as [v|] eqn:Hk.
    + rewrite <- Hk. apply Hin. apply list_elem_of_fmap.
      exists (k, v). split; [done|].
      rewrite (rangeOver_perm ord). by apply elem_of_map_to_list.
    + simpl. rewrite Hout; [done|]. intros Hin'.
      apply list_elem_of_fmap in Hin' as ([k' v] & -> & Hkv).
      rewrite (rangeOver_perm ord) in Hkv. apply elem_of_map_to_list in Hkv.
      simpl in Hk. congruence.
  - by apply extends_snoc, extends_refl.
  - by apply list_lookup_middle.
Qed.

(** X25.  A slice that holds nil within its length cannot be copied:
    [deepCopyMap] never returns on it (the [Set] of the reflect package
    panics on the nil element), and it panics right away when the nil is
    the first element. *)
Theorem deepCopyMap_nil_element (fuel : nat) (e : elemty) (a off len cap : nat)
    (st : store) (cells : list cell) (i : nat) :
  st !! a = Some (OArray cells) → i < len → cells !! (off + i) = Some CNil →
  (∀ r, deepCopyMap ord fuel (CSlice e a off len cap) st ≠ Ret r)
  ∧ (i = 0 →
     deepCopyMap ord (S (S fuel)) (CSlice e a off len cap) st = Panic SetZeroValue).
Proof.
  intros Ha Hi Hnil.
  assert (Hlt : a < length st) by (by apply lookup_lt_Some in Ha).
  assert (Hread : ∀ x, x !! a = Some (OArray cells) →
                       sliceIndex x a off len i = Ret CNil).
  { intros x Hx. unfold sliceIndex, readArray. rewrite Hx, bind_Ret.
    destruct (Nat.ltb_spec i len); [|lia]. by rewrite Hnil. }
  split.
  - intros r Hrun. destruct fuel as [|fuel]; [done|].
    rewrite deepCopyMap_unfold in Hrun. unfold readArray at 1 in Hrun.
    rewrite Ha, bind_Ret in Hrun. unfold alloc in Hrun. cbv beta iota in Hrun.
    apply bind_inv in Hrun as (s' & Hloop & _).
    apply (foldM_Ret_step_inv (λ x, x !! a = Some (OArray cells)) _ _ _ _ i)
      in Hloop as (x & y & Hx & Hstep).
    + rewrite (Hread x Hx), bind_Ret in Hstep.
      destruct fuel as [|fuel]; [done|].
      by rewrite deepCopyMap_unfold, bind_Ret in Hstep.
    + intros x j y Hx Hstep.
      apply bind_inv in Hstep as (v & _ & Hstep).
      apply bind_inv in Hstep as ([c s2] & Hcopy & Hstep).
      pose proof (deepCopyMap_post ord _ _ _ _ Hcopy) as [G _]. simpl in G.
      assert (Hx2 : s2 !! a = Some (OArray cells)).
      { rewrite (grown_frame _ _ _ _ G); [done|]. by apply lookup_lt_Some in Hx. }
      destruct c; try done; unfold sliceAssign in Hstep;
        apply bind_inv in Hstep as (cs & _ & Hstep);
        destruct (Nat.ltb j len); try done; inversion Hstep; subst;
        by rewrite list_lookup_insert_ne by lia.
    + by rewrite lookup_app_l.
    + apply elem_of_seq. lia.
  - intros ->. rewrite deepCopyMap_unfold. unfold readArray at 1.
    rewrite Ha, bind_Ret. unfold alloc. cbv beta iota.
    destruct len as [|len]; [lia|]. rewrite <- cons_seq, foldM_cons.
    rewrite Hread by (by rewrite lookup_app_l).
    by rewrite bind_Ret, deepCopyMap_unfold, bind_Ret.
Qed.

#[local] Transparent deepCopyMap.

End CopyEntries.

(** ** The copy and the original *)

Section Independence.

Variable ord : MapOrder.

(** Under a transform given by a program, the loop of [makeUpdateData]
    ranges over the entries the document had before the copy was
    taken. *)
Lemma makeUpdateData_ranges (fuel : nat) (oldDoc : loc) (prog : list mutation)
    (ret : option (list step)) (st : store) (entries : gmap string cell) :
  readMap st oldDoc = Ret entries →
  makeUpdateData ord fuel oldDoc (Some (programTransform prog ret)) st =
    ('(copy, st1) ← deepCopyMap ord fuel (CMap oldDoc) st;
     afterDoc ← match copy with CMap l => Ret l | _ => Panic TypeAssertion end;
     '(afterDoc, st2) ← programTransform prog ret afterDoc st1;
     updateData ← foldM (diffEntry st2 afterDoc) [] (rangeOver ord entries);
     Ret (updateData, st2)).
Proof.
  intros Hread. unfold makeUpdateData.
  destruct (deepCopyMap ord fuel (CMap oldDoc) st) as [[copy st1]| | |] eqn:Hcopy;
    try reflexivity.
  rewrite !bind_Ret. cbv beta iota.
  destruct copy as [| |d| |]; try reflexivity.
  rewrite !bind_Ret.
  destruct (programTransform prog ret d st1) as [[afterDoc st2]| | |] eqn:Htrans;
    try reflexivity.
  rewrite !bind_Ret. cbv beta iota.
  pose proof (programTransform_post ord fuel oldDoc prog ret st st1 st2 (CMap d) d
                afterDoc Hcopy eq_refl Htrans) as G.
  apply kept_intact in G.
  assert (Hread2 : readMap st2 oldDoc = Ret entries).
  { unfold readMap in *. destruct (st !! oldDoc) as [[m| |]|] eqn:Hold; try done.
    by rewrite (G oldDoc (OMap m) Hold eq_refl). }
  by rewrite Hread2, bind_Ret.
Qed.

(** C2, as amended.  Take the deep copy of a value in a store; run any
    program of in-place assignments (to keys and indices at any depth,
    deletions, appends, writes through pointers) on the copy, as a
    transform would; take whatever value the transform returns from
    it, and run any further program on that.  The copy itself has
    changed nothing, and every map and every array that was in the
    store when the copy was taken (those of the original document
    among them) is afterwards exactly as it was: the copy, what is
    reached from it and what is made of it refer to maps and arrays
    allocated since.  So the loop of [makeUpdateData] ranges over the
    entries the document had before the transform ran.  What the copy
    shares with the original is what pointers refer to: [deepCopyMap]
    returns a pointer as it is, and the copy of a map holds under a
    key the very pointer the original holds there. *)
Theorem deepCopyMap_independent (fuel : nat) (st : store) :
  (∀ (src copy r : cell) (st1 st2 st3 : store) (ret : list step)
     (prog prog' : list mutation),
     deepCopyMap ord fuel src st = Ret (copy, st1) →
     runProgram copy st1 prog = Ret st2 →
     walk st2 copy ret = Ret r →
     runProgram r st2 prog' = Ret st3 →
     (∀ l, l < length st → st1 !! l = st !! l)
     ∧ intact st st2
     ∧ intact st st3
     ∧ cellFresh (length st) copy
     ∧ cellFresh (length st) r
     ∧ (∀ l o, length st ≤ l → st3 !! l = Some o → objectFresh (length st) o))
  ∧ (∀ (oldDoc : loc) (prog : list mutation) (ret : option (list step))
       (entries : gmap string cell),
       readMap st oldDoc = Ret entries →
       makeUpdateData ord fuel oldDoc (Some (programTransform prog ret)) st =
         ('(copy, st1) ← deepCopyMap ord fuel (CMap oldDoc) st;
          afterDoc ← match copy with CMap l => Ret l | _ => Panic TypeAssertion end;
          '(afterDoc, st2) ← programTransform prog ret afterDoc st1;
          updateData ← foldM (diffEntry st2 afterDoc) [] (rangeOver ord entries);
          Ret (updateData, st2)))
  ∧ (∀ (oldDoc d : loc) (prog : list mutation) (ret : option (list step))
       (entries : gmap string cell) (st1 st2 : store) (afterDoc : option loc),
       readMap st oldDoc = Ret entries →
       deepCopyMap ord fuel (CMap oldDoc) st = Ret (CMap d, st1) →
       programTransform prog ret d st1 = Ret (afterDoc, st2) →
       readMap st2 oldDoc = Ret entries)
  ∧ (∀ (ty : nat) (p : loc) (copy : cell) (st1 : store),
       deepCopyMap ord fuel (CPtr ty p) st = Ret (copy, st1) →
       copy = CPtr ty p ∧ st1 = st)
  ∧ (∀ (l : loc) (entries : gmap string cell) (k : string) (ty : nat) (p : loc)
       (copy : cell) (st1 : store),
       st !! l = Some (OMap entries) → entries !! k = Some (CPtr ty p) →
       deepCopyMap ord fuel (CMap l) st = Ret (copy, st1) →
       ∃ m', copy = CMap (length st)
             ∧ st1 !! length st = Some (OMap m')
             ∧ m' !! k = Some (CPtr ty p)).
Proof.
  split_and!.
  - intros src copy r st1 st2 st3 ret prog prog' Hcopy Hprog Hret Hprog'.
    apply deepCopyMap_post in Hcopy as [G1 Hfresh]. simpl in G1, Hfresh.
    pose proof (kept_of_grown _ _ G1) as K1.
    pose proof (runProgram_post st st1 st2 copy prog K1 Hfresh Hprog) as K2.
    pose proof (walk_fresh st st2 ret copy r K2 Hfresh Hret) as Hr.
    pose proof (runProgram_post st st2 st3 r prog' K2 Hr Hprog') as K3.
    split_and!; try done.
    + by apply grown_frame with None (length st).
    + by apply kept_intact.
    + by apply kept_intact.
    + intros l o Hl. by apply (kept_fresh st st3).
  - intros oldDoc prog ret entries. apply makeUpdateData_ranges.
  - intros oldDoc d prog ret entries st1 st2 afterDoc Hread Hcopy Htrans.
    pose proof (programTransform_post ord fuel oldDoc prog ret st st1 st2 (CMap d) d
                  afterDoc Hcopy eq_refl Htrans) as G.
    apply kept_intact in G.
    unfold readMap in *. destruct (st !! oldDoc) as [[m| |]|] eqn:Hold; try done.
    by rewrite (G oldDoc (OMap m) Hold eq_refl).
  - intros ty p copy st1 Hcopy. destruct fuel as [|f]; [done|].
    simpl in Hcopy. by inversion Hcopy.
  - intros l entries k ty p copy st1 Hl Hk Hrun. destruct fuel as [|f]; [done|].
    rewrite deepCopyMap_unfold in Hrun. unfold readMap at 1 in Hrun.
    rewrite Hl, bind_Ret in Hrun. unfold alloc in Hrun. cbv beta iota in Hrun.
    apply bind_inv in Hrun as (s' & Hloop & Hrun). inversion Hrun; subst.
    apply (copyMap_loop_entries ord f l (length st) st entries Hl (le_n _) _ _ _ ∅)
      in Hloop as (m' & Hm' & Hin & _).
    + exists m'. split; [done|]. split; [done|].
      assert (Hkeys : k ∈ (rangeOver ord entries).*1).
      { apply list_elem_of_fmap. exists (k, CPtr ty p). split; [done|].
        rewrite (rangeOver_perm ord). by apply elem_of_map_to_list. }
      specialize (Hin k Hkeys). by rewrite Hk in Hin.
    + by apply extends_snoc, extends_refl.
    + by apply list_lookup_middle.
Qed.

End Independence.

(** ** Pages of any number and size *)

Lemma withPage_mapping (pre : list value) (m : gmap string value) (page perPage : Z) :
  withPage (pre ++ [VMap m]) page perPage
  = pre ++ [VMap (lo_Assign m (pageOptions page perPage))].
Proof. unfold withPage. by rewrite last_snoc, removelast_last. Qed.

Lemma lo_Assign_pageOptions (m : gmap string value) (p n p2 n2 : Z) :
  lo_Assign (lo_Assign m (pageOptions p n)) (pageOptions p2 n2)
  = lo_Assign m (pageOptions p2 n2).
Proof.
  unfold lo_Assign, pageOptions. apply map_eq. intros k.
  rewrite !lookup_union.
  destruct (decide (k = "limit")) as [->|Hl].
  { rewrite !lookup_insert_eq. by destruct (m !! "limit"). }
  rewrite !(lookup_insert_ne _ "limit") by done.
  destruct (decide (k = "offset")) as [->|Ho].
  { rewrite !lookup_singleton_eq. by destruct (m !! "offset"). }
  rewrite !lookup_singleton_ne by done. by destruct (m !! k).
Qed.

Section PageFacts.

Context {Snap Doc : Type}.
Variable U : Unicode.
Variable ord : MapOrder.
Variable db : Firestore Snap.
Variable mk : Snap → Doc.

(** X26.  On a condition sequence whose final clause is a tuple or a
    mapping, [Paginate] takes page 0 for page 1 and a page size of 0 for
    the default of 25, lists the sequence with the limit and the offset
    of that page put on it, and reports the page and the size it has
    used. The compiled query carries the size as its limit and [(page -
    1) * perPage] as its offset, which is the product itself as long as
    that fits the machine integer. *)
Theorem Paginate_page_options (cond : list value) (c : value) (page perPage : Z) :
  last cond = Some c →
  TypeOf_Kind c = Some KSlice ∨ (∃ m, c = VMap m) →
  let page' := if (page =? 0)%Z then 1%Z else page in
  let perPage' := if (perPage =? 0)%Z then DefaultPaginatePerPage else perPage in
  let paged := withPage cond page' perPage' in
  (∀ q, MakeQuery U ord paged = Ret q →
     QLimit perPage' ∈ q ∧ QOffset (int_mul (int_sub page' 1) perPage') ∈ q)
  ∧ (∀ seen r, Paginate U ord db mk cond page perPage = Ret (seen, (Some r, None)) →
       ∃ docs, ListDocs U ord db mk paged = Ret (docs, None)
               ∧ r !! "docs" = Some (RDocs docs)
               ∧ r !! "page" = Some (RInt page')
               ∧ r !! "perPage" = Some (RInt perPage'))
  ∧ ((1 ≤ page' < 2 ^ 63)%Z → (0 ≤ perPage')%Z → ((page' - 1) * perPage' < 2 ^ 63)%Z →
     int_mul (int_sub page' 1) perPage' = ((page' - 1) * perPage')%Z).
Proof.
  intros Hlast Hkind page' perPage' paged. split_and!.
  - intros q Hq. subst paged.
    destruct (withPage_snoc cond page' perPage') as (pre & m & Hpaged & Hlim & Hoff).
    rewrite Hpaged in Hq.
    destruct (MakeQuery_final_limit_offset U ord pre m q Hq) as [H1 H2]. auto.
  - intros seen r Hrun.
    rewrite (Paginate_unfold U ord db mk cond c page perPage Hlast Hkind) in Hrun.
    fold page' perPage' paged in Hrun.
    apply bind_inv in Hrun as ([docs [e|]] & Hlist & Hrun); [done|].
    inversion Hrun; subst. exists docs. split; [done|].
    split_and!; by simplify_map_eq.
  - intros Hp Hn Hprod. unfold int_mul, int_sub.
    rewrite (wrap_small (page' - 1)) by lia. apply wrap_small. nia.
Qed.

(** X27.  [Paginate] leaves its page options in the final mapping of the
    caller's sequence. They do not linger: a further call on the
    sequence as it was left gives what the call on the original sequence
    gives. *)
Theorem Paginate_reuse (pre : list value) (m : gmap string value)
    (page perPage page2 perPage2 : Z) (seen : list value)
    (r : option (gmap string (rvalue Doc)) * error) :
  Paginate U ord db mk (pre ++ [VMap m]) page perPage = Ret (seen, r) →
  Paginate U ord db mk seen page2 perPage2
  = Paginate U ord db mk (pre ++ [VMap m]) page2 perPage2.
Proof.
  intros Hrun.
  assert (Hkind : ∀ m', TypeOf_Kind (VMap m') = Some KSlice ∨ (∃ m0, VMap m' = VMap m0))
    by (intros m'; right; by eexists).
  rewrite (Paginate_unfold U ord db mk (pre ++ [VMap m]) (VMap m) page perPage
             (last_snoc _ _) (Hkind m)) in Hrun.
  rewrite withPage_mapping in Hrun.
  assert (Hseen : seen = pre ++ [VMap (lo_Assign m (pageOptions
                    (if (page =? 0)%Z then 1%Z else page)
                    (if (perPage =? 0)%Z then DefaultPaginatePerPage else perPage)))]).
  { apply bind_inv in Hrun as ([docs [e|]] & _ & Hrun); by inversion Hrun. }
  rewrite Hseen.
  rewrite (Paginate_unfold U ord db mk _ (VMap _) page2 perPage2 (last_snoc _ _) (Hkind _)).
  rewrite (Paginate_unfold U ord db mk (pre ++ [VMap m]) (VMap m) page2 perPage2
             (last_snoc _ _) (Hkind m)).
  by rewrite !withPage_mapping, lo_Assign_pageOptions.
Qed.

End PageFacts.

(** ** The copy of a slice *)

Section CopyCells.

Variable ord : MapOrder.

#[local] Opaque deepCopyMap.

Lemma copySlice_loop_cells (fuel : nat) (a off len dst : nat) (st : store)
    (cells : list cell) :
  st !! a = Some (OArray cells) → length st ≤ dst → off + len ≤ length cells →
  ∀ idxs s s' cs,
    extends st s → s !! dst = Some (OArray cs) →
    foldM (λ st i,
             v ← sliceIndex st a off len i;
             '(c, st) ← deepCopyMap ord fuel v st;
             match c with
             | CNil => Panic SetZeroValue
             | _ => sliceAssign st dst 0 len i c
             end) s idxs = Ret s' →
    ∃ cs', s' !! dst = Some (OArray cs')
           ∧ length cs' = length cs
           ∧ (∀ i, i ∈ idxs → i < length cs →
                copiedElement dst (cells !! (off + i)) (cs' !! i))
           ∧ (∀ i, i ∉ idxs → cs' !! i = cs !! i).
Proof.
  intros Ha Hdst Hbound idxs.
  induction idxs as [|i idxs IH]; intros s s' cs Hs Hcs Hrun.
  { simpl in Hrun. inversion Hrun; subst. exists cs. split; [done|].
    split; [done|]. split; [|done]. intros i Hi. by apply elem_of_nil in Hi. }
  rewrite foldM_cons in Hrun. apply bind_inv in Hrun as (s1 & Hstep & Hrun).
  assert (Hlt : a < length st) by (by apply lookup_lt_Some in Ha).
  assert (Hlen : dst < length s) by (by apply lookup_lt_Some in Hcs).
  apply bind_inv in Hstep as (v & Hidx & Hstep).
  assert (Hv : i < len ∧ cells !! (off + i) = Some v).
  { unfold sliceIndex, readArray in Hidx. rewrite (proj2 Hs a Hlt), Ha in Hidx.
    rewrite bind_Ret in Hidx. destruct (Nat.ltb_spec i len); [|done].
    split; [done|]. destruct (cells !! (off + i)); by inversion Hidx. }
  destruct Hv as [Hi Hv].
  apply bind_inv in Hstep as ([c s2] & Hcopy & Hstep).
  pose proof (deepCopyMap_post ord _ _ _ _ Hcopy) as [G _]. simpl in G.
  pose proof (deepCopyMap_shape ord _ _ _ _ _ Hcopy) as Hshape.
  assert (Hs2 : extends st s2) by (by apply (extends_grown st s s2)).
  assert (Hcs2 : s2 !! dst = Some (OArray cs)) by (by rewrite (grown_frame _ _ _ _ G)).
  assert (Hs1 : c ≠ CNil ∧ s1 = <[ dst := OArray (<[ i := c ]> cs) ]> s2).
  { destruct c; try done; (split; [done|]);
      unfold sliceAssign, readArray in Hstep; rewrite Hcs2, bind_Ret in Hstep;
      destruct (Nat.ltb_spec i len); try lia; by inversion Hstep. }
  destruct Hs1 as [Hc ->].
  assert (Hkey : i < length cs →
                 copiedElement dst (cells !! (off + i)) (<[ i := c ]> cs !! i)).
  { intros Hics. rewrite Hv, list_lookup_insert_eq by done. unfold copiedElement.
    destruct v as [|sc|l|e a' off' len' cap'|ty p]; simpl in Hshape; subst c;
      try done; by eexists. }
  apply (IH _ _ (<[ i := c ]> cs)) in Hrun as (cs' & Hcs' & Hlen' & Hin & Hout);
    [|by apply extends_update
     |apply list_lookup_insert_eq; by apply lookup_lt_Some in Hcs2].
  exists cs'. split; [done|]. split; [by rewrite Hlen', length_insert|]. split.
  - intros j Hj Hjcs. destruct (decide (j ∈ idxs)) as [Hj'|Hj'].
    + apply Hin; [done|]. by rewrite length_insert.
    + apply elem_of_cons in Hj as [->|Hj]; [|done].
      rewrite (Hout i Hj'). by apply Hkey.
  - intros j Hj. apply not_elem_of_cons in Hj as [Hne Hj].
    rewrite (Hout j Hj). by rewrite list_lookup_insert_ne.
Qed.

(** X28.  When [deepCopyMap] returns on a slice, the result is a slice
    of the same element type, length and capacity over a new array of
    exactly that capacity: within the length it holds the copies of the
    elements (scalars and pointers as they are, maps and slices newly
    allocated);
    beyond the length it holds zero values, whatever the array of the
    source holds there. *)
Theorem deepCopyMap_slice_cells (fuel : nat) (e : elemty) (a off len cap : nat)
    (st st' : store) (copy : cell) (cells : list cell) :
  st !! a = Some (OArray cells) → off + len ≤ length cells → len ≤ cap →
  deepCopyMap ord fuel (CSlice e a off len cap) st = Ret (copy, st') →
  ∃ cells',
    copy = CSlice e (length st) 0 len cap
    ∧ st' !! length st = Some (OArray cells')
    ∧ length cells' = cap
    ∧ (∀ i, i < len → copiedElement (length st) (cells !! (off + i)) (cells' !! i))
    ∧ (∀ i, len ≤ i < cap → cells' !! i = Some (zeroOf e)).
Proof.
  intros Ha Hbound Hcap Hrun. destruct fuel as [|fuel]; [done|].
  rewrite deepCopyMap_unfold in Hrun. unfold readArray at 1 in Hrun.
  rewrite Ha, bind_Ret in Hrun. unfold alloc in Hrun. cbv beta iota in Hrun.
  apply bind_inv in Hrun as (s' & Hloop & Hrun). inversion Hrun; subst.
  set (cs := take len (drop off cells) ++ replicate (cap - len) (zeroOf e)) in *.
  assert (Htake : length (take len (drop off cells)) = len).
  { rewrite length_take, length_drop. lia. }
  assert (Hcs : length cs = cap).
  { subst cs. rewrite length_app, Htake, length_replicate. lia. }
  apply (copySlice_loop_cells fuel a off len (length st) st cells Ha (le_n _) Hbound
           _ _ _ cs) in Hloop as (cs' & Hcs' & Hlen' & Hin & Hout).
  - exists cs'. split; [done|]. split; [done|]. split; [lia|]. split.
    + intros i Hi. apply Hin; [apply elem_of_seq; lia|lia].
    + intros i Hi. rewrite Hout by (rewrite elem_of_seq; lia).
      subst cs. rewrite lookup_app_r by lia. rewrite Htake.
      apply lookup_replicate_2. lia.
  - by apply extends_snoc, extends_refl.
  - by apply list_lookup_middle.
Qed.

#[local] Transparent deepCopyMap.

End CopyCells.

(** ** Nothing to batch *)

Section BatchNothing.

Context {Job WriteResult : Type}.
Variable U : Unicode.
Variable ord : MapOrder.
Variable db : Firestore loc.
Variable bw : BulkWriter Job WriteResult.
Variable now : cell.

Lemma errors_Join_shape (errs : list error) :
  errors_Join errs = None ∨ ∃ es, errors_Join errs = Some (ErrJoin es).
Proof. unfold errors_Join. destruct (omap id errs); [by left|right; by eexists]. Qed.

(** X29.  The error "no docs to batch" is what [BatchDocs] returns when
    the listing is empty, and only then: on a listing that is not empty
    the error it returns is nil or the join of the errors of the groups,
    each of these in turn a join of the errors of the writes. *)
Theorem BatchDocs_nothing_to_batch (fuel : nat) (condition : list value)
    (batchFn : option transform) (st : store) (q : Query) (docs : list loc) :
  MakeQuery U ord condition = Ret q →
  Documents_GetAll db q = (docs, None) →
  (docs = [] →
   BatchDocs U ord db bw now fuel condition batchFn st
     = Ret ([], Some (ErrNew "no docs to batch"), st))
  ∧ (docs ≠ [] →
     ∀ results e st',
       BatchDocs U ord db bw now fuel condition batchFn st = Ret (results, e, st') →
       e = None
       ∨ ∃ es, e = Some (ErrJoin es) ∧ Forall (λ e', ∃ es', e' = ErrJoin es') es).
Proof.
  intros Hq Hget. unfold BatchDocs, ListDocs.
  rewrite Hq, bind_Ret, Hget. cbv beta iota. rewrite docSnapsDataToMap_map, list_fmap_id.
  rewrite bind_Ret. cbv beta iota. split.
  - by intros ->.
  - intros Hne results e st' Hrun.
    destruct (Nat.eqb_spec (length docs) 0) as [H0|_]; [by destruct docs|].
    destruct (lo_Chunk_cover docs 500 ltac:(lia)) as (groups & Hchunk & _ & Hsize).
    rewrite Hchunk, bind_Ret in Hrun.
    apply bind_inv in Hrun as ([[errs batchResults] s'] & Hloop & Hrun).
    inversion Hrun; subst. clear Hrun.
    assert (Herrs : Forall (λ e, ∃ es, e = Some (ErrJoin es)) errs).
    { apply (foldM_inv
               (λ acc : list error * list WriteResult * store,
                  Forall (λ e, ∃ es, e = Some (ErrJoin es)) acc.1.1)
               _ _ _ _) in Hloop; [done| |done].
      intros [[errs0 rs0] s0] g [[errs1 rs1] s1] Hg Hacc Hstep. simpl in *.
      unfold batchGroup in Hstep.
      rewrite (batchEach500Docs_group ord bw now) in Hstep
        by (by apply (proj1 (Forall_forall _ _) Hsize)).
      apply bind_inv in Hstep as ([[rs e] s2] & Hgroup & Hstep).
      apply bind_inv in Hgroup as ([[errs2 jobs] s3] & _ & Hgroup).
      destruct (foldl (collectJob bw) (errs2, []) jobs) as [errs3 rs3].
      inversion Hgroup; subst.
      destruct (errors_Join errs3) as [e|] eqn:Hjoin; inversion Hstep; subst; [|done].
      apply Forall_app. split; [done|]. constructor; [|done].
      destruct (errors_Join_shape errs3) as [Hn|[es Hes]]; [congruence|].
      exists es. congruence. }
    unfold errors_Join.
    assert (Hall : Forall (λ e', ∃ es', e' = ErrJoin es') (omap id errs)).
    { clear Hloop. induction Herrs as [|e0 errs0 [es ->] _ IH]; [done|].
      assert (Hcons : omap id (Some (ErrJoin es) :: errs0)
                      = ErrJoin es :: omap id errs0) by done.
      rewrite Hcons. constructor; [by eexists|done]. }
    destruct (omap id errs) as [|e1 es1]; [by left|right]. by eexists.
Qed.

End BatchNothing.

(** ** The result of a counted page *)

Section CountedPage.

Context {Snap Doc : Type}.
Variable U : Unicode.
Variable ord : MapOrder.
Variable db : Firestore Snap.
Variable mk : Snap → Doc.

Lemma Paginate_result (cond seen : list value) (page perPage : Z)
    (val : option (gmap string (rvalue Doc))) :
  Paginate U ord db mk cond page perPage = Ret (seen, (val, None)) →
  ∃ docs, val = Some {[ "docs" := RDocs docs;
                        "page" := RInt (if (page =? 0)%Z then 1%Z else page);
                        "perPage" := RInt (if (perPage =? 0)%Z
                                           then DefaultPaginatePerPage else perPage) ]}.
Proof.
  unfold Paginate. intros Hrun.
  apply bind_inv in Hrun as (lastCond & _ & Hrun).
  apply bind_inv in Hrun as ([condition' seen'] & _ & Hrun).
  apply bind_inv in Hrun as ([docs [e|]] & _ & Hrun); inversion Hrun; subst.
  by exists docs.
Qed.

(** X30.  [PaginateWithCount] returns a result or an error, not both.
    The result holds five entries and no other: the documents of the
    page under [docs], the page and the page size as used (1 for page 0,
    25 for size 0) under [page] and [perPage], under [count] the count
    that [CountDocs] gives for the sequence it was called with, and
    under [totalPage] the number of pages computed from that count. *)
Theorem PaginateWithCount_result (cond : list value) (page perPage : Z)
    (r : option (gmap string (rvalue Doc))) (e : error) :
  PaginateWithCount U ord db mk cond page perPage = Ret (r, e) →
  let page' := if (page =? 0)%Z then 1%Z else page in
  let perPage' := if (perPage =? 0)%Z then DefaultPaginatePerPage else perPage in
  match e with
  | Some _ => r = None
  | None =>
      ∃ docs count seen,
        Paginate U ord db mk cond page perPage
          = Ret (seen, (Some {[ "docs" := RDocs docs; "page" := RInt page';
                                "perPage" := RInt perPage' ]}, None))
        ∧ CountDocs U ord db cond = Ret (count, None)
        ∧ r = Some {[ "count" := RInt count;
                      "totalPage" := RInt (totalPage count perPage');
                      "docs" := RDocs docs;
                      "page" := RInt page';
                      "perPage" := RInt perPage' ]}
  end.
Proof.
  intros Hrun page' perPage'. unfold PaginateWithCount in Hrun.
  fold page' perPage' in Hrun.
  assert (Hp : (if (page' =? 0)%Z then 1%Z else page') = page').
  { subst page'. destruct (Z.eqb_spec page 0) as [->|Hp]; [reflexivity|].
    destruct (Z.eqb_spec page 0); [contradiction|reflexivity]. }
  assert (Hn : (if (perPage' =? 0)%Z then DefaultPaginatePerPage else perPage')
               = perPage').
  { subst perPage'. destruct (Z.eqb_spec perPage 0) as [->|Hn]; [reflexivity|].
    destruct (Z.eqb_spec perPage 0); [contradiction|reflexivity]. }
  assert (Hsame : Paginate U ord db mk cond page' perPage'
                  = Paginate U ord db mk cond page perPage).
  { unfold Paginate. rewrite Hp, Hn. reflexivity. }
  rewrite Hsame in Hrun.
  apply bind_inv in Hrun as ([seen [val [e1|]]] & Hpage & Hrun);
    [by inversion Hrun; subst|].
  rewrite (Paginate_keeps_count U ord db mk cond page perPage seen _ Hpage) in Hrun.
  apply bind_inv in Hrun as ([count [e2|]] & Hcount & Hrun);
    [by inversion Hrun; subst|].
  inversion Hrun; subst. clear Hrun.
  destruct (Paginate_result cond seen page perPage val Hpage) as (docs & ->).
  exists docs, count, seen. split; [done|]. split; [done|].
  reflexivity.
Qed.

End CountedPage.

(** ** The further statements at work *)

Lemma MakeQuery_returns_wellFormed_witness :
  MakeQuery asciiOnly storedOrder exampleFilters
    = Ret [QWhere "deletedAt" "==" VNil; QWhere "uid" "==" (VString "abc")]
  ∧ Forall wellFormed exampleFilters.
Proof.
  split; [reflexivity|].
  exact (MakeQuery_returns_wellFormed asciiOnly storedOrder exampleFilters
           [QWhere "deletedAt" "==" VNil; QWhere "uid" "==" (VString "abc")] eq_refl).
Defined.

Lemma MakeQuery_unhandled_clause_witness :
  MakeQuery asciiOnly storedOrder (exampleFilters ++ VNil :: [VMap {[ "limit" := VInt 1 ]}])
    = Panic (Explicit "unhandled default case")
  ∧ MakeQuery asciiOnly storedOrder (exampleFilters ++ VString "uid" :: [])
    = Panic (Explicit "unhandled default case").
Proof.
  assert (Hwf : Forall wellFormed exampleFilters) by (by repeat constructor).
  split.
  - apply (MakeQuery_unhandled_clause asciiOnly storedOrder exampleFilters); done.
  - apply (MakeQuery_unhandled_clause asciiOnly storedOrder exampleFilters); done.
Defined.

Lemma MakeQuery_order_of_maps_witness :
  ∃ q2, MakeQuery asciiOnly reversedOrder
          [VMap {[ "limit" := VInt 5; "orderBy" := VString "name" ]}] = Ret q2
        ∧ [QOrderBy "name" Asc; QLimit 5] ≡ₚ q2.
Proof.
  refine (MakeQuery_order_of_maps asciiOnly storedOrder reversedOrder
            [VMap {[ "limit" := VInt 5; "orderBy" := VString "name" ]}]
            [QOrderBy "name" Asc; QLimit 5] _).
  vm_compute. reflexivity.
Defined.

Lemma MakeQuery_final_mapping_types_witness :
  MakeQuery asciiOnly storedOrder (exampleFilters ++ [VMap {[ "Limit" := VInt 5 ]}])
    = Ret [QWhere "deletedAt" "==" VNil; QWhere "uid" "==" (VString "abc"); QLimit 5]
  ∧ ∃ n, VInt 5 = VInt n.
Proof.
  assert (Hrun : MakeQuery asciiOnly storedOrder
                   (exampleFilters ++ [VMap {[ "Limit" := VInt 5 ]}])
                 = Ret [QWhere "deletedAt" "==" VNil;
                        QWhere "uid" "==" (VString "abc"); QLimit 5])
    by (vm_compute; reflexivity).
  split; [exact Hrun|].
  refine (proj1 (MakeQuery_final_mapping_types asciiOnly storedOrder exampleFilters
                   {[ "Limit" := VInt 5 ]} _ Hrun "Limit" (VInt 5) _) _).
  - vm_compute. reflexivity.
  - left. reflexivity.
Defined.

Lemma MakeQuery_orderBy_sequence_witness :
  MakeQuery asciiOnly storedOrder
    ((tupleClause <$> [("uid", "==", VString "abc")])
       ++ [VMap {[ "OrderBy" := VStrings ["createdAt:desc"; " "; "name"] ]}])
  = Ret [QWhere "uid" "==" (VString "abc"); QOrderBy "createdAt" Desc;
         QOrderBy "name" Asc].
Proof.
  refine (eq_trans
            (proj1 (MakeQuery_orderBy_sequence asciiOnly storedOrder
                      [("uid", "==", VString "abc")] "OrderBy" _)
               ["createdAt:desc"; " "; "name"]) _).
  - reflexivity.
  - vm_compute. reflexivity.
Defined.

Lemma parseOrderBy_field_direction_witness :
  parseOrderBy asciiOnly DefaultOrderByString
    = Ret (Some {| Field := "createdAt"; Direction := Desc |})
  ∧ parseOrderBy asciiOnly " name : DESC :x"
    = Ret (Some {| Field := "name"; Direction := Desc |}).
Proof.
  split.
  - exact (proj1 (parseOrderBy_field_direction asciiOnly "createdAt" "desc" ""
                    eq_refl eq_refl)).
  - exact (proj1 (proj2 (parseOrderBy_field_direction asciiOnly " name " " DESC " "x"
                           eq_refl eq_refl))).
Defined.

Lemma ListDocs_responses_witness :
  ∃ docs, ListDocs asciiOnly storedOrder (snapDb [snapA; snapB]) makeDocResponse []
          = Ret (docs, None)
    ∧ length docs = 2
    ∧ ∃ doc, docs !! 1 = Some doc
             ∧ doc !! "_id" = Some (CScalar (SString "b"))
             ∧ doc !! "id" = None.
Proof.
  destruct (ListDocs_responses asciiOnly storedOrder (snapDb [snapA; snapB]) [] []
              [snapA; snapB] None eq_refl eq_refl) as (docs & Hrun & Hlen & Hdocs).
  exists docs. split; [exact Hrun|]. split; [exact Hlen|].
  destruct (Hdocs 1 snapB eq_refl) as (doc & Hdoc & Hid & _ & Hother).
  exists doc. split; [exact Hdoc|]. split; [exact Hid|].
  rewrite Hother by done. reflexivity.
Defined.

Lemma totalPage_covers_witness :
  ((totalPage 61 25 - 1) * 25 < 61 ∧ 61 ≤ totalPage 61 25 * 25)%Z.
Proof.
  apply (totalPage_covers 61 25); lia.
Defined.

Lemma AddDocWithId_managed_fields_witness :
  ∃ m' w',
    AddDocWithId stubClient stubClock (Some "u1") None (Some 0) johnWorld
      = Ret (Some "u1", Some "u1", None, w')
    ∧ heap w' !! 0 = Some (OMap m')
    ∧ m' !! "id" = Some (CScalar (SString "u1"))
    ∧ m' !! "createdAt" = Some (stubClock 0)
    ∧ m' !! "deletedAt" = Some CNil
    ∧ m' !! "name" = Some (CScalar (SString "John Doe")).
Proof.
  destruct (AddDocWithId_managed_fields stubClient stubClock (Some "u1") None 0 _
              johnWorld eq_refl)
    as (m' & w' & Hrun & Hheap & _ & _ & Hid & Hcreated & _ & Hdeleted & _ & Hother).
  exists m', w'. split_and!; try done.
  rewrite Hother; [reflexivity|].
  rewrite !not_elem_of_cons. split_and!; try done. apply not_elem_of_nil.
Defined.

Lemma AddDoc_names_document_witness :
  ∃ m' w',
    AddDoc stubClient stubClock None (Some 0) ["user_"; "x"] johnWorld
      = Ret (Some "user_doc0", Some "user_doc0", None, w')
    ∧ heap w' !! 0 = Some (OMap m')
    ∧ m' !! "id" = Some (CScalar (SString "user_doc0")).
Proof.
  destruct (AddDoc_names_document stubClient stubClock None 0 _ ["user_"; "x"]
              johnWorld eq_refl) as (m' & w' & Hrun & Hheap & Hid & _).
  by exists m', w'.
Defined.

Lemma UpdateDoc_stamps_witness :
  ∃ m' w',
    UpdateDoc stubClient stubClock "u1" (Some 0) johnWorld = Ret (inl "u1", w')
    ∧ heap w' !! 0 = Some (OMap m')
    ∧ m' !! "updatedAt" = Some (stubClock 0)
    ∧ m' !! "createdAt" = Some (CScalar (SString "never")).
Proof.
  destruct (UpdateDoc_stamps stubClient stubClock "u1" 0 _ johnWorld eq_refl)
    as (m' & w' & Hrun & Hheap & _ & _ & Hup & Hother).
  exists m', w'. split_and!; try done. by rewrite Hother.
Defined.

Lemma DeleteDocs_accounts_for_all_witness :
  (∃ results es t',
     DeleteDocs asciiOnly storedOrder (snapDb [snapA; snapC]) stubWriter stubDelete
       stubClock [] [] 0
       = Ret (results, match es with [] => None | _ => Some (ErrJoin es) end, t')
     ∧ length results + length es = 2)
  ∧ DeleteDocs asciiOnly storedOrder (snapDb [snapA; snapC]) stubWriter stubDelete
      stubClock [] [] 0
    = Ret (["a"], Some (ErrJoin [ErrNew "delete failed"]), 0).
Proof.
  split; [|vm_compute; reflexivity].
  refine (DeleteDocs_accounts_for_all asciiOnly storedOrder (snapDb [snapA; snapC])
            stubWriter stubDelete stubClock [] [] 0 [] [snapA; snapC]
            eq_refl eq_refl _).
  repeat constructor; eexists; reflexivity.
Defined.

Lemma DeleteDocs_needs_id_witness :
  DeleteDocs asciiOnly storedOrder (snapDb [snapA; snapB]) stubWriter stubDelete
    stubClock [] [true] 0
  = Panic TypeAssertion.
Proof.
  refine (DeleteDocs_needs_id asciiOnly storedOrder (snapDb [snapA; snapB])
            stubWriter stubDelete stubClock [] [true] 0 [] [snapA; snapB] snapB
            eq_refl eq_refl _ _).
  - right. left.
  - intros [s Hs]. vm_compute in Hs. discriminate.
Defined.

Lemma makeUpdateData_changes_nothing_witness :
  (∃ copy, makeUpdateData storedOrder 2 0 (Some identityTransform) flatStore
           = Ret ([], flatStore ++ [OMap copy])
           ∧ default CNil (copy !! "n") = CScalar (SInt64 1))
  ∧ (∃ copy, makeUpdateData storedOrder 2 0 (Some identityTransform) nanStore
             = Ret ([ {| Path := "score"; Value := CScalar (SFloat64 S754_nan) |} ],
                    nanStore ++ [OMap copy])).
Proof.
  split.
  - destruct (makeUpdateData_changes_nothing storedOrder 0 0 (Some identityTransform)
                flatStore _ eq_refl) as (copy & Hrun & Hcopy & Hnone & _).
    + apply map_Forall_insert_2; [done|]. by apply map_Forall_singleton.
    + intros d st. reflexivity.
    + exists copy. rewrite Hnone in Hrun.
      * split; [exact Hrun|]. by rewrite Hcopy.
      * apply map_Forall_insert_2; [done|]. by apply map_Forall_singleton.
  - destruct (makeUpdateData_changes_nothing storedOrder 0 0 (Some identityTransform)
                nanStore _ eq_refl) as (copy & Hrun & _).
    + apply map_Forall_insert_2; [done|]. by apply map_Forall_singleton.
    + intros d st. reflexivity.
    + exists copy. rewrite Hrun. reflexivity.
Defined.

Lemma BatchDocs_changes_nothing_witness :
  ∃ st', BatchDocs asciiOnly storedOrder (listFirst 1) stubWriter noon 2 [] None
           flatStore = Ret ([], None, st')
         ∧ extends flatStore st'.
Proof.
  refine (BatchDocs_changes_nothing asciiOnly storedOrder (listFirst 1) stubWriter noon
            0 [] None flatStore [] [0] eq_refl eq_refl _ _ I).
  - done.
  - constructor; [|constructor]. eexists. split; [reflexivity|]. split_and!.
    + apply map_Forall_insert_2; [done|]. by apply map_Forall_singleton.
    + apply map_Forall_insert_2; [done|]. by apply map_Forall_singleton.
    + by eexists.
Defined.

(** A document that holds a NaN is written at every batch, also when
    the transform changes nothing. *)
Lemma BatchDocs_writes_NaN :
  (r ← BatchDocs asciiOnly storedOrder (listFirst 1) stubWriter noon 2 []
         (Some identityTransform) nanStore;
   Ret r.1) = Ret (["a"], None).
Proof. vm_compute. reflexivity. Qed.

Lemma BatchDocs_needs_id_witness :
  BatchDocs asciiOnly storedOrder (listFirst 1) stubWriter noon 2 []
    (Some identityTransform) noIdStore
  = Panic TypeAssertion.
Proof.
  refine (BatchDocs_needs_id asciiOnly storedOrder (listFirst 1) stubWriter noon 2 []
            (Some identityTransform) noIdStore [] 0 [] _ eq_refl eq_refl eq_refl _).
  intros [s Hs]. vm_compute in Hs. discriminate.
Defined.

Lemma deepCopyMap_map_entries_witness :
  ∃ copy st' m',
    deepCopyMap storedOrder 4 (CMap 0) nestedStore = Ret (copy, st')
    ∧ copy = CMap 4
    ∧ st' !! 4 = Some (OMap m')
    ∧ m' !! "id" = Some (CScalar (SString "a"))
    ∧ ∃ a, m' !! "tags" = Some (CSlice EAny a 0 2 2) ∧ 4 < a.
Proof.
  assert (Hrun : ∃ x, deepCopyMap storedOrder 4 (CMap 0) nestedStore = Ret x)
    by (eexists; vm_compute; reflexivity).
  destruct Hrun as ([copy st'] & Hrun).
  set (entries := ({[ "id" := CScalar (SString "a"); "profile" := CMap 1;
                      "tags" := CSlice EAny 2 0 2 2 ]} : gmap string cell)).
  assert (Hid : entries !! "id" = Some (CScalar (SString "a")))
    by (vm_compute; reflexivity).
  assert (Htags : entries !! "tags" = Some (CSlice EAny 2 0 2 2))
    by (vm_compute; reflexivity).
  destruct (deepCopyMap_map_entries storedOrder 4 0 nestedStore st' copy entries
              eq_refl Hrun) as (m' & Hcopy & Hm' & Hentries).
  pose proof (Hentries "id") as H1. rewrite Hid in H1.
  pose proof (Hentries "tags") as H2. rewrite Htags in H2.
  clear Hentries.
  exists copy, st', m'.
  split; [exact Hrun|]. split; [exact Hcopy|]. split; [exact Hm'|].
  split; [exact H1|exact H2].
Defined.

Lemma deepCopyMap_nil_element_witness :
  deepCopyMap storedOrder 2 (CSlice EAny 1 0 2 2) nilSliceStore = Panic SetZeroValue
  ∧ ∀ r, deepCopyMap storedOrder 4 (CMap 0) nilSliceStore ≠ Ret r.
Proof.
  split.
  - refine (proj2 (deepCopyMap_nil_element storedOrder 0 EAny 1 0 2 2 nilSliceStore
                     _ 0 eq_refl _ eq_refl) eq_refl).
    lia.
  - intros r Hr. vm_compute in Hr. discriminate.
Defined.

Lemma Paginate_page_options_witness :
  MakeQuery asciiOnly storedOrder (withPage exampleFilters 1 25)
    = Ret [QWhere "deletedAt" "==" VNil; QWhere "uid" "==" (VString "abc");
           QOffset 0; QLimit 25]
  ∧ QOffset 0 ∈ [QWhere "deletedAt" "==" VNil; QWhere "uid" "==" (VString "abc");
                 QOffset 0; QLimit 25].
Proof.
  split; [vm_compute; reflexivity|].
  refine (proj2 (proj1
    (Paginate_page_options asciiOnly storedOrder exampleDb (λ d, d) exampleFilters
       (VSlice [VString "uid"; VString "=="; VString "abc"]) 0 0
       eq_refl (or_introl eq_refl)) _ _)).
  vm_compute; reflexivity.
Defined.

Lemma Paginate_reuse_witness :
  ∃ seen r,
    Paginate asciiOnly storedOrder exampleDb (λ d, d)
      (exampleFilters ++ [VMap {[ "orderBy" := VString "createdAt:desc" ]}]) 2 25
    = Ret (seen, r)
    ∧ Paginate asciiOnly storedOrder exampleDb (λ d, d) seen 3 10
      = Paginate asciiOnly storedOrder exampleDb (λ d, d)
          (exampleFilters ++ [VMap {[ "orderBy" := VString "createdAt:desc" ]}]) 3 10.
Proof.
  assert (Hrun : ∃ x, Paginate asciiOnly storedOrder exampleDb (λ d, d)
                        (exampleFilters
                           ++ [VMap {[ "orderBy" := VString "createdAt:desc" ]}]) 2 25
                      = Ret x) by (eexists; vm_compute; reflexivity).
  destruct Hrun as ([seen r] & Hrun). exists seen, r. split; [exact Hrun|].
  exact (Paginate_reuse asciiOnly storedOrder exampleDb (λ d, d) exampleFilters
           {[ "orderBy" := VString "createdAt:desc" ]} 2 25 3 10 seen r Hrun).
Defined.

Lemma deepCopyMap_slice_cells_witness :
  ∃ copy st' cells',
    deepCopyMap storedOrder 3 (CSlice EAny 2 0 1 2) nestedStore = Ret (copy, st')
    ∧ copy = CSlice EAny 4 0 1 2
    ∧ st' !! 4 = Some (OArray cells')
    ∧ cells' !! 0 = Some (CScalar (SString "x"))
    ∧ cells' !! 1 = Some CNil.
Proof.
  assert (Hrun : ∃ x, deepCopyMap storedOrder 3 (CSlice EAny 2 0 1 2) nestedStore = Ret x)
    by (eexists; vm_compute; reflexivity).
  destruct Hrun as ([copy st'] & Hrun).
  destruct (deepCopyMap_slice_cells storedOrder 3 EAny 2 0 1 2 nestedStore st' copy
              [CScalar (SString "x"); CMap 3] eq_refl) as (cells' & Hcopy & Hst' & _ & Hin & Hout).
  - simpl. lia.
  - lia.
  - exact Hrun.
  - exists copy, st', cells'.
    split; [exact Hrun|]. split; [exact Hcopy|]. split; [exact Hst'|].
    split; [exact (Hin 0 ltac:(lia))|exact (Hout 1 ltac:(lia))].
Defined.

Lemma BatchDocs_nothing_to_batch_witness :
  BatchDocs asciiOnly storedOrder (listFirst 0) stubWriter noon 2 [] None flatStore
  = Ret ([], Some (ErrNew "no docs to batch"), flatStore).
Proof.
  exact (proj1 (BatchDocs_nothing_to_batch asciiOnly storedOrder (listFirst 0) stubWriter
                  noon 2 [] None flatStore [] [] eq_refl eq_refl) eq_refl).
Defined.

Lemma PaginateWithCount_result_witness :
  ∃ r, PaginateWithCount asciiOnly storedOrder exampleDb (λ d, d) exampleFilters 3 25
       = Ret (Some r, None)
       ∧ r !! "count" = Some (RInt 60)
       ∧ r !! "totalPage" = Some (RInt 3)
       ∧ r !! "docs" = Some (RDocs (seq 50 10)).
Proof.
  assert (Hrun : ∃ r, PaginateWithCount asciiOnly storedOrder exampleDb (λ d, d)
                        exampleFilters 3 25 = Ret (Some r, None)
                      ∧ r !! "count" = Some (RInt 60)
                      ∧ r !! "docs" = Some (RDocs (seq 50 10))).
  { eexists. split; [vm_compute; reflexivity|]. split; vm_compute; reflexivity. }
  destruct Hrun as (r & Hrun & Hcount & Hdocs).
  exists r. split; [exact Hrun|]. split; [exact Hcount|]. split; [|exact Hdocs].
  destruct (PaginateWithCount_result asciiOnly storedOrder exampleDb (λ d, d)
              exampleFilters 3 25 (Some r) None Hrun)
    as (docs & count & seen & _ & _ & Hr).
  injection Hr as ->.
  rewrite lookup_insert_eq in Hcount. injection Hcount as ->.
  rewrite lookup_insert_ne, lookup_insert_eq by done. reflexivity.
Defined.

Lemma deepCopyMap_independent_witness :
  (∃ copy st1 st2 st3,
     nestedRun = Ret (copy, st1, st2, st3)
     ∧ intact nestedStore st3
     ∧ st3 !! 0 = nestedStore !! 0)
  ∧ (∃ copy st1 st2,
       geoRun = Ret (copy, st1, st2)
       ∧ st2 !! 0 = geoStore !! 0
       ∧ ∃ entries, st1 !! 2 = Some (OMap entries)
                    ∧ entries !! "location" = Some (CPtr 0 1)).
Proof.
  split.
  - assert (Hrun : ∃ x, nestedRun = Ret x) by (eexists; vm_compute; reflexivity).
    destruct Hrun as ([[[copy st1] st2] st3] & Hrun).
    exists copy, st1, st2, st3. split; [exact Hrun|].
    unfold nestedRun in Hrun.
    apply bind_inv in Hrun as ([copy' st1'] & Hcopy & Hrun).
    apply bind_inv in Hrun as (st2' & Hprog & Hrun).
    apply bind_inv in Hrun as (r & Hret & Hrun).
    apply bind_inv in Hrun as (st3' & Hprog' & Hrun).
    inversion Hrun; subst.
    pose proof (proj1 (deepCopyMap_independent storedOrder 4 nestedStore)
                  (CMap 0) copy r st1 st2 st3 [AtKey "profile"] nestedProgram
                  [SetKey [] "zip" NewMap] Hcopy Hprog Hret Hprog')
      as (_ & _ & Hintact & _).
    split; [exact Hintact|].
    assert (H0 : nestedStore !! 0
                 = Some (OMap {[ "id" := CScalar (SString "a");
                                 "profile" := CMap 1;
                                 "tags" := CSlice EAny 2 0 2 2 ]})) by reflexivity.
    rewrite H0. apply Hintact; [exact H0|reflexivity].
  - assert (Hrun : ∃ x, geoRun = Ret x) by (eexists; vm_compute; reflexivity).
    destruct Hrun as ([[copy st1] st2] & Hrun).
    exists copy, st1, st2. split; [exact Hrun|].
    unfold geoRun in Hrun.
    apply bind_inv in Hrun as ([copy' st1'] & Hcopy & Hrun).
    apply bind_inv in Hrun as (st2' & Hprog & Hrun).
    inversion Hrun; subst.
    pose proof (deepCopyMap_independent storedOrder 2 geoStore)
      as (Hframe & _ & _ & _ & Hshared).
    assert (H0 : geoStore !! 0
                 = Some (OMap {[ "id" := CScalar (SString "a");
                                 "location" := CPtr 0 1 ]})) by reflexivity.
    assert (H1 : ({[ "id" := CScalar (SString "a"); "location" := CPtr 0 1 ]}
                    : gmap string cell) !! "location" = Some (CPtr 0 1))
      by (vm_compute; reflexivity).
    split.
    + pose proof (Hframe (CMap 0) copy copy st1 st2 st2 [] moveSouth [] Hcopy Hprog
                    eq_refl eq_refl) as (_ & Hintact & _).
      rewrite H0. apply Hintact; [exact H0|reflexivity].
    + destruct (Hshared 0 _ "location" 0 1 copy st1 H0 H1 Hcopy)
        as (m' & _ & Hm' & Hloc).
      exists m'. split; [exact Hm'|exact Hloc].
Defined.

(** C2, as stated, fails.  The document holds a geographical point,
    which is a pointer.  The transform sets the latitude to 0 through
    the pointer of the copy it is handed; the copy holds the very
    pointer of the original, so the latitude of the original is 0 as
    well from then on.  Nothing of it shows in the delta: the two
    pointers are equal, and [BatchDocs] issues no write. *)
Lemma deepCopyMap_shares_pointee :
  walk geoStore (CMap 0) [AtKey "location"; AtField "Latitude"]
    = Ret (CScalar (SFloat64 float_one))
  ∧ (r ← makeUpdateData storedOrder 2 0 (Some southward) geoStore;
     walk r.2 (CMap 0) [AtKey "location"; AtField "Latitude"])
    = Ret (CScalar (SFloat64 float_zero))
  ∧ (r ← makeUpdateData storedOrder 2 0 (Some southward) geoStore;
     Ret (r.1, r.2 !! 1))
    = Ret ([], Some (OStruct {[ "Latitude" := SFloat64 float_zero;
                                "Longitude" := SFloat64 float_zero ]}))
  ∧ geoStore !! 1 ≠ Some (OStruct {[ "Latitude" := SFloat64 float_zero;
                                     "Longitude" := SFloat64 float_zero ]})
  ∧ (r ← BatchDocs asciiOnly storedOrder (listFirst 1) stubWriter noon 2 []
           (Some southward) geoStore;
     Ret r.1) = Ret ([], None).
Proof.
  split_and!; try (vm_compute; reflexivity).
  vm_compute. by intros [= H].
Qed.
